(** * GPS ingestion, caching, durable storage and route analytics

    A shallow embedding of the GPS pipeline of the logistics backend:

    - [redis_optimizer.py]: [GPSPoint], the 20-byte trajectory codec
      ([_compress_gps_point] / [_decompress_gps_point]), the write buffer
      and its flush into Redis ([cache_gps_point], [_flush_write_buffer]),
      the reads and their counters ([get_vehicle_location],
      [get_vehicle_track], [get_performance_stats], [cleanup]), the shards
      and the connection pools ([get_client], [get_redis_client]);
    - [database_optimizer.py]: the batch buffer ([add_gps_data],
      [_flush_batch], [stop]), the partitioned table with its primary key
      and the upsert statement ([_execute_batch_insert]), the daily
      partitions ([create_daily_partitions], [cleanup_old_partitions]),
      the track and statistics queries;
    - [src/services/gps_service.py]: [record_location],
      [get_current_location], [get_tracking_history], [analyze_route],
      [_calculate_distance], [create_geofence] and
      [check_geofence_violation], each with its tenant context, the
      [uuid.UUID] of its ids and its [except] clause.

    Conventions.  A Python [float] handled by the codec is an IEEE-754
    binary64 value ([spec_float]); a [numpy.float32] element is its 32-bit
    pattern.  Decimal columns and the floats compared against them are exact
    rationals ([Q]); results of [math.sin], [math.asin], [math.sqrt] and of
    PostGIS' [ST_Distance] are real numbers ([R]).  A [datetime] is a number
    of microseconds since the epoch ([Z]).  The Redis keyspace is a [gmap];
    a SQL table is the list of its rows. *)

From Stdlib Require Import ZArith QArith Qround Qminmax Reals Lra Lia Bool.
From Stdlib Require Import SpecFloat.
From Stdlib Require Strings.Byte.
From Stdlib Require Lqa.
From Stdlib Require Import Sorting.Sorted.
From stdpp Require Import gmap strings list sorting.

Local Open Scope Z_scope.

(** ** Python exceptions that the modelled code can raise *)

Inductive exn : Type :=
| ValueError      (* numpy: buffer size must be a multiple of element size;
                     uuid: badly formed hexadecimal UUID string *)
| IndexError      (* index out of bounds *)
| TypeError       (* an operation on a value of the wrong type *)
| ValidationError (* pydantic: a validator of the model raised *)
| GPSServiceError (* gps_service.py *)
| DataError       (* redis.exceptions: the arguments of a command are refused *)
| DBAPIError      (* sqlalchemy.exc: the database refused a statement *).

(** Results of fallible code: the value, or the exception raised. *)
Definition result (A : Type) : Type := (exn + A)%type.

Definition ret {A} (a : A) : result A := inr a.
Definition raise {A} (e : exn) : result A := inl e.
Definition bind {A B} (r : result A) (k : A -> result B) : result B :=
  match r with
  | inl e => inl e
  | inr a => k a
  end.

Notation "'let!' x ':=' r 'in' k" := (bind r (fun x => k))
  (at level 10, x name, r at level 100, k at level 200).

(** ** PointCodec: [_compress_gps_point] and [_decompress_gps_point] *)

Module PointCodec.

(** [GPSPoint] of redis_optimizer.py: five Python floats. *)
Record GPSPoint : Type := mkGPSPoint {
  lat : spec_float;
  lng : spec_float;
  timestamp : spec_float;
  speed : spec_float;
  direction : spec_float
}.

(** *** binary64 to binary32 and back

    [np.array(..., dtype=np.float32)] rounds each double to the nearest
    single (ties to even, overflow to infinity); the array then holds the
    32-bit patterns.  [float(arr[i])] widens a single to a double, which is
    exact. *)

Definition round_to_single (x : spec_float) : spec_float :=
  match x with
  | S754_finite s m e => binary_round 24 128 s m e
  | _ => x
  end.

Definition sign_bit (s : bool) : Z := if s then 1 else 0.

(** Bit pattern of a binary32 value: 1 sign bit, 8 exponent bits, 23
    fraction bits.  The fields are masked to their widths, as the memory
    cell is. *)
Definition bits_of_single (x : spec_float) : Z :=
  match x with
  | S754_zero s => Z.shiftl (sign_bit s) 31
  | S754_infinity s => Z.lor (Z.shiftl (sign_bit s) 31) (Z.shiftl 255 23)
  | S754_nan => Z.lor (Z.shiftl 255 23) (Z.shiftl 1 22)
  | S754_finite s m e =>
      if Z.pos m <? 2 ^ 23
      then Z.lor (Z.shiftl (sign_bit s) 31) (Z.land (Z.pos m) (Z.ones 23))
      else Z.lor (Z.shiftl (sign_bit s) 31)
             (Z.lor (Z.shiftl (Z.land (e + 150) (Z.ones 8)) 23)
                    (Z.land (Z.pos m) (Z.ones 23)))
  end.

(** [np.float32(x)] as stored in the array. *)
Definition float32_of_float (x : spec_float) : Z :=
  bits_of_single (round_to_single x).

(** [float(w)] for a float32 element [w]: the binary64 value of the
    pattern. *)
Definition float_of_float32 (w : Z) : spec_float :=
  let s := Z.testbit w 31 in
  let E := Z.land (Z.shiftr w 23) (Z.ones 8) in
  let M := Z.land w (Z.ones 23) in
  if E =? 255 then (if M =? 0 then S754_infinity s else S754_nan)
  else if E =? 0 then binary_normalize 53 1024 (cond_Zopp s M) (-149) s
  else binary_normalize 53 1024 (cond_Zopp s (M + 2 ^ 23)) (E - 150) s.

(** *** [ndarray.tobytes] and [np.frombuffer] for dtype float32

    Four bytes per element, least significant byte first. *)

Definition byte_of_Z (z : Z) : Byte.byte :=
  match Byte.of_N (Z.to_N (Z.land z (Z.ones 8))) with
  | Some b => b
  | None => Byte.x00
  end.

Definition Z_of_byte (b : Byte.byte) : Z := Z.of_N (Byte.to_N b).

Definition bytes_of_word (w : Z) : list Byte.byte :=
  [byte_of_Z w; byte_of_Z (Z.shiftr w 8);
   byte_of_Z (Z.shiftr w 16); byte_of_Z (Z.shiftr w 24)].

Definition word_of_bytes (b0 b1 b2 b3 : Byte.byte) : Z :=
  Z.lor (Z_of_byte b0)
    (Z.lor (Z.shiftl (Z_of_byte b1) 8)
       (Z.lor (Z.shiftl (Z_of_byte b2) 16) (Z.shiftl (Z_of_byte b3) 24))).

Definition tobytes (arr : list Z) : list Byte.byte :=
  concat (map bytes_of_word arr).

Fixpoint words_of_bytes (data : list Byte.byte) : list Z :=
  match data with
  | b0 :: b1 :: b2 :: b3 :: rest => word_of_bytes b0 b1 b2 b3 :: words_of_bytes rest
  | _ => []
  end.

(** [np.frombuffer(data, dtype=np.float32)]: numpy raises [ValueError]
    when the buffer size is not a multiple of the element size. *)
Definition frombuffer (data : list Byte.byte) : result (list Z) :=
  if (Z.of_nat (length data) mod 4 =? 0)
  then ret (words_of_bytes data)
  else raise ValueError.

(** [arr[i]] *)
Definition getitem (arr : list Z) (i : nat) : result Z :=
  match nth_error arr i with
  | Some w => ret w
  | None => raise IndexError
  end.

(** [_compress_gps_point] *)
Definition _compress_gps_point (point : GPSPoint) : list Byte.byte :=
  let data := map float32_of_float
                [lat point; lng point; timestamp point;
                 speed point; direction point] in
  tobytes data.

(** The five element reads [arr[0]], ..., [arr[4]] and the construction of
    the point. *)
Definition decode_words (arr : list Z) : result GPSPoint :=
  let! a0 := getitem arr 0 in
  let! a1 := getitem arr 1 in
  let! a2 := getitem arr 2 in
  let! a3 := getitem arr 3 in
  let! a4 := getitem arr 4 in
  ret {| lat := float_of_float32 a0;
         lng := float_of_float32 a1;
         timestamp := float_of_float32 a2;
         speed := float_of_float32 a3;
         direction := float_of_float32 a4 |}.

(** [_decompress_gps_point] *)
Definition _decompress_gps_point (data : list Byte.byte) : result GPSPoint :=
  let! arr := frombuffer data in
  decode_words arr.

(** Python's [==] on floats, and on two [GPSPoint]s: the dataclass compares
    field by field. *)
Definition float_eq (x y : spec_float) : bool := SFeqb x y.

Definition GPSPoint_eq (p q : GPSPoint) : bool :=
  float_eq (lat p) (lat q) && float_eq (lng p) (lng q)
  && float_eq (timestamp p) (timestamp q) && float_eq (speed p) (speed q)
  && float_eq (direction p) (direction q).

End PointCodec.

(** ** Single precision among the doubles

    What the codec is measured against, stated with the operations of
    IEEE 754 alone: no bit pattern and no byte takes part. *)

Module Binary32.
Import PointCodec.

(** The numbers of the binary32 format: a mantissa of at most 24 digits
    that is canonical for its exponent, the exponent between -149 and 104;
    the zeros, the infinities and NaN. *)
Definition is_binary32 (y : spec_float) : bool := valid_binary 24 128 y.

(** The double that has the value of a binary32 number. *)
Definition widen (y : spec_float) : spec_float :=
  match y with
  | S754_finite s m e => binary_normalize 53 1024 (cond_Zopp s (Z.pos m)) e s
  | _ => y
  end.

(** The single-precision rounding of a double: the binary32 number
    nearest to it, ties to the even mantissa, infinity beyond the range,
    taken as a double again. *)
Definition rounding (x : spec_float) : spec_float :=
  match x with
  | S754_finite s m e => widen (binary_round 24 128 s m e)
  | _ => x
  end.

(** A double is exactly representable in single precision when it is a
    number, and the value of a binary32 number. *)
Definition representable (x : spec_float) : Prop :=
  x <> S754_nan /\ exists y, is_binary32 y = true /\ widen y = x.

(** The point whose fields are the single-precision roundings of [p]'s. *)
Definition round_point (p : GPSPoint) : GPSPoint :=
  {| lat := rounding (lat p);
     lng := rounding (lng p);
     timestamp := rounding (timestamp p);
     speed := rounding (speed p);
     direction := rounding (direction p) |}.

End Binary32.

(** ** FastCache: the write buffer and its flush into Redis *)

Module RedisCache.
Import PointCodec.

(** The hash stored under [v:<vehicle_id>]. *)
Record location_data : Type := mkLocationData {
  ld_lat : spec_float;
  ld_lng : spec_float;
  ld_speed : spec_float;
  ld_dir : spec_float;
  ld_ts : spec_float
}.

(** The part of the Redis keyspace the cache writes: hashes, the members
    of geo sets, lists and the time to live set on each key. *)
Record redis : Type := mkRedis {
  hashes : gmap string location_data;
  geosets : gmap (string * string) (spec_float * spec_float);
  lists : gmap string (list (list Byte.byte));
  ttls : gmap string Z
}.

Definition redis_empty : redis :=
  {| hashes := ∅; geosets := ∅; lists := ∅; ttls := ∅ |}.

(** The commands the flush queues on its pipeline. *)
Inductive command : Type :=
| HSET (key : string) (mapping : location_data)
| EXPIRE (key : string) (seconds : Z)
| LPUSH (key : string) (value : list Byte.byte)
| LTRIM (key : string) (start stop : Z).

(** [LTRIM key start stop] keeps the elements at indices [start..stop],
    both inclusive; negative indices count from the tail. *)
Definition ltrim_range (l : list (list Byte.byte)) (start stop : Z)
  : list (list Byte.byte) :=
  let len := Z.of_nat (length l) in
  let start := if start <? 0 then Z.max (len + start) 0 else start in
  let stop := if stop <? 0 then len + stop else stop in
  if (stop <? start) || (len <=? start) then []
  else take (Z.to_nat (Z.min stop (len - 1) - start + 1))
            (drop (Z.to_nat start) l).

Definition list_at (r : redis) (key : string) : list (list Byte.byte) :=
  default [] (lists r !! key).

(** A list that becomes empty is removed from the keyspace. *)
Definition set_list (r : redis) (key : string) (l : list (list Byte.byte))
  : redis :=
  {| hashes := hashes r; geosets := geosets r;
     lists := match l with [] => delete key (lists r) | _ => <[key := l]> (lists r) end;
     ttls := ttls r |}.

Definition exec (r : redis) (c : command) : redis :=
  match c with
  | HSET key mapping =>
      {| hashes := <[key := mapping]> (hashes r); geosets := geosets r;
         lists := lists r; ttls := ttls r |}
  | EXPIRE key seconds =>
      {| hashes := hashes r; geosets := geosets r;
         lists := lists r; ttls := <[key := seconds]> (ttls r) |}
  | LPUSH key value => set_list r key (value :: list_at r key)
  | LTRIM key start stop => set_list r key (ltrim_range (list_at r key) start stop)
  end.

(** [pipe.execute()]: the queued commands run in order. *)
Definition execute (pipe : list command) (r : redis) : redis :=
  fold_left exec pipe r.

(** [OptimizedGPSCache]: the attributes the modelled methods use. *)
Record cache : Type := mkCache {
  store : redis;
  vehicle_ttl : Z;
  track_ttl : Z;
  batch_size : Z;
  write_count : Z;
  write_buffer : gmap string (list GPSPoint)
}.

(** [__init__] *)
Definition init (r : redis) : cache :=
  {| store := r; vehicle_ttl := 3600; track_ttl := 7200; batch_size := 50;
     write_count := 0; write_buffer := ∅ |}.

Definition vehicle_key (vehicle_id : string) : string := "v:" +:+ vehicle_id.
Definition track_key (vehicle_id : string) : string := "t:" +:+ vehicle_id.
Definition geo_key : string := "geo:vehicles".

(** Python's truth value of a float and of a string: zero, of either sign,
    and the empty string are false. *)
Definition float_truthy (x : spec_float) : bool :=
  match x with
  | S754_zero _ => false
  | _ => true
  end.

Definition str_truthy (s : string) : bool :=
  match s with
  | EmptyString => false
  | _ => true
  end.

(** [pipe.geoadd(geo_key, latest_point.lng, latest_point.lat, vehicle_id)].
    The method of the client library, in the versions that have
    [redis.asyncio], is [geoadd(name, values, nx=False, xx=False,
    ch=False)]: the call binds the longitude to [values], the latitude to
    [nx] and the vehicle id to [xx].  The method first refuses [nx] and
    [xx] both true with [DataError]; otherwise it takes [len(values)], and
    the length of a float is a [TypeError].  No path queues a command or
    returns. *)
Definition geoadd {A} (name : string) (values nx : spec_float) (xx : string)
  : result A :=
  if float_truthy nx && str_truthy xx then raise DataError else raise TypeError.

(** The body of the loop of [_flush_write_buffer] for one item of the
    write buffer: the commands it queues, when it gets to its end. *)
Definition flush_item (c : cache) (item : string * list GPSPoint)
  : result (list command) :=
  let '(vehicle_id, gps_points) := item in
  match last gps_points with
  | None => ret []                               (* if not gps_points: continue *)
  | Some latest_point =>
      let queued :=
        [HSET (vehicle_key vehicle_id)
           {| ld_lat := lat latest_point; ld_lng := lng latest_point;
              ld_speed := speed latest_point; ld_dir := direction latest_point;
              ld_ts := timestamp latest_point |};
         EXPIRE (vehicle_key vehicle_id) (vehicle_ttl c)] in
      let! _ := geoadd (A := unit) geo_key (lng latest_point) (lat latest_point)
                  vehicle_id in
      ret (queued
           ++ map (fun point => LPUSH (track_key vehicle_id) (_compress_gps_point point))
                  gps_points
           ++ [LTRIM (track_key vehicle_id) 0 199;
               EXPIRE (track_key vehicle_id) (track_ttl c)])
  end.

(** The loop of [_flush_write_buffer]: the pipeline it has built when no
    item raised. *)
Definition pipeline (c : cache) (items : list (string * list GPSPoint))
  : result (list command) :=
  foldr (fun item rest =>
           let! queued := flush_item c item in
           let! more := rest in
           ret (queued ++ more))
        (ret []) items.

Definition total_points (wb : gmap string (list GPSPoint)) : Z :=
  Z.of_nat (sum_list (length <$> (map_to_list wb).*2)).

(** [_flush_write_buffer]: the cache it leaves, and how it ends.  When
    the loop raises nothing has been sent, since the pipeline is executed
    after the loop, and the buffer and the counter are as they were. *)
Definition _flush_write_buffer (c : cache) : cache * result unit :=
  if decide (write_buffer c = ∅) then (c, ret tt)
  else
    match pipeline c (map_to_list (write_buffer c)) with
    | inl e => (c, raise e)
    | inr pipe =>
        ({| store := execute pipe (store c);
            vehicle_ttl := vehicle_ttl c; track_ttl := track_ttl c;
            batch_size := batch_size c;
            write_count := write_count c + total_points (write_buffer c);
            write_buffer := ∅ |}, ret tt)
    end.

(** [cache_gps_point]: the point is appended before the flush is tried. *)
Definition cache_gps_point (c : cache) (vehicle_id : string) (gps_point : GPSPoint)
  : cache * result unit :=
  let buffered := default [] (write_buffer c !! vehicle_id) ++ [gps_point] in
  let c' := {| store := store c;
               vehicle_ttl := vehicle_ttl c; track_ttl := track_ttl c;
               batch_size := batch_size c; write_count := write_count c;
               write_buffer := <[vehicle_id := buffered]> (write_buffer c) |} in
  if batch_size c <=? Z.of_nat (length buffered)
  then _flush_write_buffer c'
  else (c', ret tt).

(** [LRANGE key start stop] selects the same range that [LTRIM] keeps. *)
Definition lrange (r : redis) (key : string) (start stop : Z)
  : list (list Byte.byte) :=
  ltrim_range (list_at r key) start stop.

(** [get_vehicle_track]: the cached trajectory, decoded. *)
Definition get_vehicle_track (c : cache) (vehicle_id : string) (limit : Z)
  : result (list GPSPoint) :=
  let track_data := lrange (store c) (track_key vehicle_id) 0 (limit - 1) in
  foldr (fun data acc =>
           let! p := _decompress_gps_point data in
           let! ps := acc in
           ret (p :: ps))
        (ret []) track_data.

(** What happens to a cache: a client caches a point, and the call
    returns or raises; or the background task fires and flushes, and logs
    what the flush raises. *)
Inductive op : Type :=
| Cache (vehicle_id : string) (gps_point : GPSPoint)
| BackgroundFlush.

Definition step (c : cache) (o : op) : cache :=
  match o with
  | Cache vehicle_id gps_point => fst (cache_gps_point c vehicle_id gps_point)
  | BackgroundFlush => fst (_flush_write_buffer c)
  end.

Definition run (ops : list op) (c : cache) : cache := fold_left step ops c.

(** The points of [vehicle_id] cached by [ops], in the order of the calls. *)
Definition cached_points (vehicle_id : string) (ops : list op) : list GPSPoint :=
  flat_map (fun o => match o with
                     | Cache v p => if decide (v = vehicle_id) then [p] else []
                     | BackgroundFlush => []
                     end) ops.

Definition buffered (c : cache) (vehicle_id : string) : list GPSPoint :=
  default [] (write_buffer c !! vehicle_id).

Definition history (c : cache) (vehicle_id : string) : list (list Byte.byte) :=
  list_at (store c) (track_key vehicle_id).

(** Every list of the write buffer holds a point: [cache_gps_point]
    creates a list to append to it, and nothing takes a point out of a
    list. *)
Definition filled (c : cache) : Prop :=
  forall vehicle_id gps_points,
    write_buffer c !! vehicle_id = Some gps_points -> gps_points <> [].

End RedisCache.

(** ** Numbers shared by the store and the service *)

Module Num.

Definition Qlt_bool (x y : Q) : bool := negb (Qle_bool y x).

(** Python's [int(x)] on a rational: truncation towards zero. *)
Definition int_of_Q (x : Q) : Z := Z.quot (Qnum x) (Z.pos (Qden x)).

(** Rounding to the nearest integer, ties to the even one. *)
Definition Qround_half_even (x : Q) : Z :=
  let f := Qfloor x in
  match Qcompare (x - inject_Z f) (1 # 2) with
  | Lt => f
  | Gt => f + 1
  | Eq => if Z.even f then f else f + 1
  end.

(** Python's [round(x, 2)]. *)
Definition round2 (x : Q) : Q := Qmake (Qround_half_even (x * 100)) 100.

Definition Rround_half_even (x : R) : Z :=
  let f := Int_part x in
  if Rlt_dec (x - IZR f) (1 / 2) then f
  else if Rlt_dec (1 / 2) (x - IZR f) then f + 1
  else if Z.even f then f else f + 1.

Definition Rround2 (x : R) : R := (IZR (Rround_half_even (x * 100)) / 100)%R.

(** [timedelta.total_seconds()] of a difference of two datetimes. *)
Definition total_seconds (later earlier : Z) : Q := Qmake (later - earlier) 1000000.

Definition minutes (n : Z) : Z := n * 60 * 1000000.
Definition hours (n : Z) : Z := n * 3600 * 1000000.

End Num.

(** ** DurableStore: batch buffer, upsert and queries of database_optimizer.py *)

(** ** Texts sent to PostgreSQL

    A Python [str] is the list of the bytes of its UTF-8 encoding.  A
    length in characters counts the bytes that begin a character: all but
    the continuation bytes [10xxxxxx]. *)

Module PgText.

Definition continuation (c : Ascii.ascii) : bool :=
  let n := Ascii.N_of_ascii c in (128 <=? n)%N && (n <? 192)%N.

(** [len(s)], and the length PostgreSQL compares with the [n] of
    [VARCHAR(n)]. *)
Fixpoint chars (s : string) : nat :=
  match s with
  | EmptyString => 0
  | String c s' => ((if continuation c then 0 else 1) + chars s')%nat
  end.

(** The first [n] characters of [s], and what follows them. *)
Fixpoint take_chars (n : nat) (s : string) : string :=
  match s with
  | EmptyString => EmptyString
  | String c s' =>
      if continuation c then String c (take_chars n s')
      else match n with
           | O => EmptyString
           | S n' => String c (take_chars n' s')
           end
  end.

Fixpoint drop_chars (n : nat) (s : string) : string :=
  match s with
  | EmptyString => EmptyString
  | String c s' =>
      if continuation c then drop_chars n s'
      else match n with
           | O => s
           | S n' => drop_chars n' s'
           end
  end.

Fixpoint all_spaces (s : string) : bool :=
  match s with
  | EmptyString => true
  | String c s' => Ascii.eqb c (Ascii.ascii_of_nat 32) && all_spaces s'
  end.

Fixpoint has_nul (s : string) : bool :=
  match s with
  | EmptyString => false
  | String c s' => Ascii.eqb c (Ascii.ascii_of_nat 0) || has_nul s'
  end.

(** A value for a column [TEXT]: the server takes no text with the
    character of code 0. *)
Definition TEXT (s : string) : result string :=
  if has_nul s then raise DBAPIError else ret s.

(** A value stored in a column [String(n)], PostgreSQL's [VARCHAR(n)]: one
    of more than [n] characters is refused, unless the characters in
    excess are all spaces, which are then cut off. *)
Definition VARCHAR (n : nat) (s : string) : result string :=
  let! s := TEXT s in
  if (chars s <=? n)%nat then ret s
  else if all_spaces (drop_chars n s) then ret (take_chars n s)
  else raise DBAPIError.

End PgText.

(** ** [uuid.UUID] *)

Module UUID.

Definition code (c : Ascii.ascii) (n : nat) : bool := Ascii.eqb c (Ascii.ascii_of_nat n).

(** [hex.replace('urn:', '')] and [hex.replace('uuid:', '')]: the
    occurrences are taken out from left to right. *)
Fixpoint remove_urn (s : string) : string :=
  match s with
  | EmptyString => EmptyString
  | String c1 t =>
      match t with
      | String c2 (String c3 (String c4 s')) =>
          if code c1 117 && code c2 114 && code c3 110 && code c4 58
          then remove_urn s'
          else String c1 (remove_urn t)
      | _ => String c1 (remove_urn t)
      end
  end.

Fixpoint remove_uuid (s : string) : string :=
  match s with
  | EmptyString => EmptyString
  | String c1 t =>
      match t with
      | String c2 (String c3 (String c4 (String c5 s'))) =>
          if code c1 117 && code c2 117 && code c3 105 && code c4 100 && code c5 58
          then remove_uuid s'
          else String c1 (remove_uuid t)
      | _ => String c1 (remove_uuid t)
      end
  end.

(** [hex.strip('{}')] *)
Definition brace (c : Ascii.ascii) : bool := code c 123 || code c 125.

Fixpoint lstrip (s : string) : string :=
  match s with
  | EmptyString => EmptyString
  | String c s' => if brace c then lstrip s' else s
  end.

Fixpoint rstrip (s : string) : string :=
  match s with
  | EmptyString => EmptyString
  | String c s' =>
      match rstrip s' with
      | EmptyString => if brace c then EmptyString else String c EmptyString
      | kept => String c kept
      end
  end.

(** [hex.replace('-', '')] *)
Fixpoint remove_hyphens (s : string) : string :=
  match s with
  | EmptyString => EmptyString
  | String c s' => if code c 45 then remove_hyphens s' else String c (remove_hyphens s')
  end.

(** The value of a hexadecimal digit. *)
Definition digit (c : Ascii.ascii) : option Z :=
  let n := Z.of_nat (Ascii.nat_of_ascii c) in
  if (48 <=? n) && (n <=? 57) then Some (n - 48)
  else if (97 <=? n) && (n <=? 102) then Some (n - 87)
  else if (65 <=? n) && (n <=? 70) then Some (n - 55)
  else None.

(** The number a text of hexadecimal digits writes, after the digits
    [acc]. *)
Fixpoint digits (acc : Z) (s : string) : option Z :=
  match s with
  | EmptyString => Some acc
  | String c s' =>
      match digit c with
      | Some d => digits (16 * acc + d) s'
      | None => None
      end
  end.

Fixpoint hex (width : nat) (n : Z) : string :=
  match width with
  | O => EmptyString
  | S w => hex w (n / 16)
           +:+ String (Ascii.ascii_of_nat
                         (Z.to_nat (let d := n mod 16 in
                                    if d <? 10 then 48 + d else 87 + d)))
                      EmptyString
  end.

(** [str(u)]: 32 hexadecimal digits in lower case, in groups of 8, 4, 4, 4
    and 12. *)
Definition str (u : Z) : string :=
  let h := hex 32 u in
  String.substring 0 8 h +:+ "-" +:+ String.substring 8 4 h +:+ "-"
  +:+ String.substring 12 4 h +:+ "-" +:+ String.substring 16 4 h +:+ "-"
  +:+ String.substring 20 12 h.

Section Int.

(** [int(hex, 16)] on a text of 32 characters that are not all
    hexadecimal digits.  Python takes more than digits there: a sign, a
    prefix [0x], underscores, spaces around, digits of other scripts.
    What it makes of such a text is left open. *)
Variable int_other : string -> result Z.

(** [uuid.UUID(hex)] *)
Definition UUID (hex : string) : result Z :=
  let hex := remove_uuid (remove_urn hex) in
  let hex := remove_hyphens (rstrip (lstrip hex)) in
  if negb (PgText.chars hex =? 32)%nat then raise ValueError
  else
    let! int := match digits 0 hex with
                | Some int => ret int
                | None => int_other hex
                end in
    if (0 <=? int) && (int <? 2 ^ 128) then ret int else raise ValueError.

(** [uuid.UUID(x) if x else None], the result as its text. *)
Definition optional (x : option string) : result (option string) :=
  match x with
  | None => ret None
  | Some EmptyString => ret None
  | Some hex => let! u := UUID hex in ret (Some (str u))
  end.

End Int.

End UUID.

Module GPSBatchData.
Record t : Type := mk {
  vehicle_id : string;
  latitude : Q;
  longitude : Q;
  speed : Q;
  direction : Q;
  timestamp : Z;
  accuracy : Q
}.
End GPSBatchData.

Module DurableStore.
Import Num.

(** A row of [gps_locations_partitioned], and the dict [add_gps_data]
    builds for it: the seven data columns and [geom], the point
    [POINT(longitude latitude)] given by its two coordinates. *)
Record row : Type := mkRow {
  data : GPSBatchData.t;
  geom : Q * Q
}.

Abbreviation table := (list row).

(** The columns of [CONSTRAINT pk_gps_locations PRIMARY KEY (vehicle_id,
    timestamp)]. *)
Definition key (r : row) : string * Z :=
  (GPSBatchData.vehicle_id (data r), GPSBatchData.timestamp (data r)).

Definition has_key (k : string * Z) (r : row) : bool := bool_decide (key r = k).

(** The primary key constraint on a table. *)
Definition pk_unique (t : table) : Prop := NoDup (key <$> t).

(** [ON CONFLICT (vehicle_id, timestamp) DO UPDATE SET latitude =
    EXCLUDED.latitude, ...]: the existing row keeps its key columns and
    takes the six other columns of the proposed row. *)
Definition do_update (existing excluded : row) : row :=
  {| data :=
       {| GPSBatchData.vehicle_id := GPSBatchData.vehicle_id (data existing);
          GPSBatchData.timestamp := GPSBatchData.timestamp (data existing);
          GPSBatchData.latitude := GPSBatchData.latitude (data excluded);
          GPSBatchData.longitude := GPSBatchData.longitude (data excluded);
          GPSBatchData.speed := GPSBatchData.speed (data excluded);
          GPSBatchData.direction := GPSBatchData.direction (data excluded);
          GPSBatchData.accuracy := GPSBatchData.accuracy (data excluded) |};
     geom := geom excluded |}.

(** One execution of the [INSERT ... ON CONFLICT ... DO UPDATE] statement,
    for a row the table takes. *)
Fixpoint insert_on_conflict (r : row) (t : table) : table :=
  match t with
  | [] => [r]
  | x :: t' =>
      if has_key (key r) x then do_update x r :: t'
      else x :: insert_on_conflict r t'
  end.

(** The statement run once per row, in the order of the rows. *)
Definition upsert (t : table) (rows : list row) : table :=
  fold_left (fun t r => insert_on_conflict r t) rows t.

Definition ts (r : row) : Z := GPSBatchData.timestamp (data r).

(** The server behind the engine: the time zone of its sessions, as the
    offset to UTC in microseconds; the days that have a partition of
    [gps_locations_partitioned]; the rows of the table. *)
Record server : Type := mkServer {
  time_zone : Z;
  partitions : gset Z;
  gps_locations_partitioned : table
}.

Definition day : Z := 86400000000.

(** The day a timestamp falls on.  The partition of a day is made [FOR
    VALUES FROM ('<day>') TO ('<next day>')]: from one midnight of the time
    zone to the next. *)
Definition date_of (sv : server) (timestamp : Z) : Z :=
  (timestamp + time_zone sv) / day.

(** The row as the table takes it, or the error of the server: the
    vehicle id goes in a [VARCHAR(50)], and the row needs the partition of
    its day ("no partition of relation found for row"). *)
Definition stored (sv : server) (r : row) : result row :=
  let! vehicle_id := PgText.VARCHAR 50 (GPSBatchData.vehicle_id (data r)) in
  if decide (date_of sv (ts r) ∈ partitions sv)
  then ret {| data :=
                {| GPSBatchData.vehicle_id := vehicle_id;
                   GPSBatchData.timestamp := GPSBatchData.timestamp (data r);
                   GPSBatchData.latitude := GPSBatchData.latitude (data r);
                   GPSBatchData.longitude := GPSBatchData.longitude (data r);
                   GPSBatchData.speed := GPSBatchData.speed (data r);
                   GPSBatchData.direction := GPSBatchData.direction (data r);
                   GPSBatchData.accuracy := GPSBatchData.accuracy (data r) |};
              geom := geom r |}
  else raise DBAPIError.

(** [session.execute(stmt, batch_data)]: the statement runs once per
    parameter set, in the order of the batch, and stops at the first row
    the server refuses. *)
Definition insert_row (sv : server) (t : result table) (r : row) : result table :=
  let! t := t in
  let! r := stored sv r in
  ret (insert_on_conflict r t).

Definition execute_many (sv : server) (batch_data : list row) : result table :=
  fold_left (insert_row sv) batch_data (ret (gps_locations_partitioned sv)).

(** [_execute_batch_insert]: one transaction.  It is committed when every
    row was taken; otherwise it is rolled back, which leaves the table as
    it was, and the error is raised again. *)
Definition _execute_batch_insert (sv : server) (batch_data : list row)
  : server * result unit :=
  match batch_data with
  | [] => (sv, ret tt)                                   (* if not batch_data: return *)
  | _ =>
      match execute_many sv batch_data with
      | inr t =>
          ({| time_zone := time_zone sv; partitions := partitions sv;
              gps_locations_partitioned := t |}, ret tt)
      | inl e => (sv, raise e)
      end
  end.

(** [AsyncBatchProcessor]: the buffer, the counters and the server behind
    the engine. *)
Record processor : Type := mkProcessor {
  engine : server;
  batch_size : Z;
  batch_buffer : list row;
  total_processed : Z;
  batch_count : Z
}.

(** [_flush_batch]: the buffer is copied and cleared before the insert is
    tried, and the counters are updated after it: when the insert raises,
    the rows of the batch are in no buffer and in no table. *)
Definition _flush_batch (p : processor) : processor * result unit :=
  match batch_buffer p with
  | [] => (p, ret tt)
  | batch_data =>
      match _execute_batch_insert (engine p) batch_data with
      | (sv, inr _) =>
          ({| engine := sv;
              batch_size := batch_size p;
              batch_buffer := [];
              total_processed := total_processed p + Z.of_nat (length batch_data);
              batch_count := batch_count p + 1 |}, ret tt)
      | (sv, inl e) =>
          ({| engine := sv;
              batch_size := batch_size p;
              batch_buffer := [];
              total_processed := total_processed p;
              batch_count := batch_count p |}, raise e)
      end
  end.

(** [add_gps_data] *)
Definition add_gps_data (p : processor) (gps_data : GPSBatchData.t)
  : processor * result unit :=
  let item := {| data := gps_data;
                 geom := (GPSBatchData.longitude gps_data,
                          GPSBatchData.latitude gps_data) |} in
  let p' := {| engine := engine p; batch_size := batch_size p;
               batch_buffer := batch_buffer p ++ [item];
               total_processed := total_processed p;
               batch_count := batch_count p |} in
  if batch_size p <=? Z.of_nat (length (batch_buffer p'))
  then _flush_batch p'
  else (p', ret tt).

(** A row the server takes as it is: an id of at most 50 characters, none
    of code 0, and a timestamp on a day that has its partition. *)
Definition admissible (sv : server) (r : row) : Prop :=
  PgText.has_nul (GPSBatchData.vehicle_id (data r)) = false
  /\ (PgText.chars (GPSBatchData.vehicle_id (data r)) <= 50)%nat
  /\ date_of sv (ts r) ∈ partitions sv.

(** *** [GPSQueryOptimizer] *)

(** [ORDER BY timestamp DESC] *)
Definition ts_desc (r1 r2 : row) : Prop := ts r2 <= ts r1.

#[global] Instance ts_desc_dec : RelDecision ts_desc :=
  fun r1 r2 => decide (ts r2 <= ts r1).

(** [get_vehicle_track]: [now] is [datetime.now()]; the select list is the
    seven data columns. *)
Definition get_vehicle_track (t : table) (now : Z) (vehicle_id : string)
    (start_time end_time : option Z) (limit : nat) : list GPSBatchData.t :=
  let start_time := default (now - hours 24) start_time in
  let end_time := default now end_time in
  let selected :=
    filter (fun r => GPSBatchData.vehicle_id (data r) = vehicle_id
                     ∧ start_time <= ts r <= end_time) t in
  data <$> take limit (merge_sort ts_desc selected).

(** [ST_MakePoint(x, y)] and PostGIS' [ST_Distance] on two such points,
    which carry no spatial reference: the planar distance, in the unit of
    the coordinates. *)
Definition ST_MakePoint (x y : Q) : Q * Q := (x, y).

Definition ST_Distance (p q : Q * Q) : R :=
  sqrt ((Q2R (fst p) - Q2R (fst q)) ^ 2 + (Q2R (snd p) - Q2R (snd q)) ^ 2)%R.

(** SQL aggregates over the column values of a non-empty group. *)
Definition agg_min (x : Q) (xs : list Q) : Q := foldl Qmin x xs.
Definition agg_max (x : Q) (xs : list Q) : Q := foldl Qmax x xs.
Definition agg_sum (xs : list Q) : Q := foldl Qplus 0%Q xs.

(** The types of the expressions of [distance_km] in the select list of
    [get_vehicle_statistics]. *)
Inductive pg_type : Type := double_precision | geometry | geography.

(** [ST_Distance] takes two geometries, or two geographies, and gives a
    double precision. *)
Definition ST_Distance_type (a b : pg_type) : result pg_type :=
  match a, b with
  | geometry, geometry | geography, geography => ret double_precision
  | _, _ => raise DBAPIError
  end.

(** [expr::geography]: PostGIS casts a geometry to geography; no cast
    takes a double precision to it ("cannot cast type double precision to
    geography"). *)
Definition cast_to_geography (from : pg_type) : result pg_type :=
  match from with
  | geometry | geography => ret geography
  | double_precision => raise DBAPIError
  end.

(** The server types the statement before it reads a row:
    [ST_Distance(ST_MakePoint(..), ST_MakePoint(..))::geography]. *)
Definition distance_km_type : result pg_type :=
  let! distance := ST_Distance_type geometry geometry in
  cast_to_geography distance.

Record statistics : Type := mkStatistics {
  point_count : Z;
  avg_speed : Q;
  max_speed : Q;
  first_update : Z;
  last_update : Z;
  distance_km : R
}.

(** The select list of [get_vehicle_statistics] on one group, whose rows
    are [r :: rs]; [distance_km] is given the operand of the cast, divided
    by 1000. *)
Definition aggregate (r : row) (rs : list row) : statistics :=
  let col (f : GPSBatchData.t -> Q) := (fun x => f (data x)) <$> rs in
  let lon := GPSBatchData.longitude in
  let la := GPSBatchData.latitude in
  let spd := GPSBatchData.speed in
  let n := Z.of_nat (length (r :: rs)) in
  {| point_count := n;
     avg_speed := (agg_sum (spd (data r) :: col spd) / inject_Z n)%Q;
     max_speed := agg_max (spd (data r)) (col spd);
     first_update := foldl Z.min (ts r) (ts <$> rs);
     last_update := foldl Z.max (ts r) (ts <$> rs);
     distance_km :=
       (ST_Distance
          (ST_MakePoint (agg_min (lon (data r)) (col lon))
                        (agg_min (la (data r)) (col la)))
          (ST_MakePoint (agg_max (lon (data r)) (col lon))
                        (agg_max (la (data r)) (col la))) / 1000)%R |}.

(** The rows the [WHERE] clause of [get_vehicle_statistics] selects. *)
Definition window (t : table) (vehicle_ids : list string) (since_time : Z) : table :=
  filter (fun r => GPSBatchData.vehicle_id (data r) ∈ vehicle_ids
                   ∧ since_time <= ts r) t.

(** [GROUP BY vehicle_id]: the rows of one vehicle. *)
Definition group (vehicle_id : string) (rows : table) : table :=
  filter (fun r => GPSBatchData.vehicle_id (data r) = vehicle_id) rows.

(** [get_vehicle_statistics]: the statement is typed, then one entry is
    made per vehicle with a row in the window. *)
Definition get_vehicle_statistics (t : table) (now : Z)
    (vehicle_ids : list string) (time_window_hours : Z)
  : result (gmap string statistics) :=
  let! _ := distance_km_type in
  let rows := window t vehicle_ids (now - hours time_window_hours) in
  ret (foldr (fun r stats =>
                match group (GPSBatchData.vehicle_id (data r)) rows with
                | [] => stats
                | g :: gs => <[GPSBatchData.vehicle_id (data r) := aggregate g gs]> stats
                end) ∅ rows).

End DurableStore.

(** ** GPSService: src/services/gps_service.py *)

Module GPSSource.
Inductive t : Type := G7_API | DRIVER_APP | MANUAL.

Definition value (s : t) : string :=
  match s with
  | G7_API => "g7_api"
  | DRIVER_APP => "driver_app"
  | MANUAL => "manual"
  end.
End GPSSource.

Module LocationPoint.
Record t : Type := mk {
  latitude : Q;
  longitude : Q;
  altitude : option Q;
  accuracy : option Q;
  speed : option Q;
  heading : option Q;
  timestamp : option Z;
  address : option string
}.
End LocationPoint.

(** A row of the table [gps_locations] (models/gps.py). *)
Module GPSLocation.
Record t : Type := mk {
  tenant_id : string;
  shipment_id : option string;
  vehicle_id : option string;
  latitude : Q;
  longitude : Q;
  altitude : option Q;
  accuracy : option Q;
  gps_time : Z;
  speed : option Q;
  heading : option Q;
  source : string;
  device_id : option string;
  address : option string;
  is_valid : string;
  is_real_time : string
}.
End GPSLocation.

Module TrackingFilter.
Record t : Type := mk {
  shipment_id : option string;
  vehicle_id : option string;
  time_from : option Z;
  time_to : option Z;
  min_speed : option Q;
  max_speed : option Q
}.
End TrackingFilter.

Module RouteAnalysis.
Record t : Type := mk {
  total_distance : R;
  total_duration : Z;
  average_speed : Q;
  max_speed : Q;
  stop_count : Z;
  stop_duration : Z
}.
End RouteAnalysis.

(** The validators of the pydantic model [G7LocationData]
    (integrations/g7_api.py), on the three fields they check.  A
    [ValueError] raised by a validator reaches the caller as pydantic's
    [ValidationError]. *)
Module G7LocationData.

Definition validate_latitude (v : Q) : result Q :=
  if Qle_bool (-90) v && Qle_bool v 90 then ret v else raise ValidationError.

Definition validate_longitude (v : Q) : result Q :=
  if Qle_bool (-180) v && Qle_bool v 180 then ret v else raise ValidationError.

Definition validate_speed (v : Q) : result Q :=
  if Num.Qlt_bool v 0 then raise ValidationError else ret v.

Definition validate (latitude longitude speed : Q) : result (Q * Q * Q) :=
  let! latitude := validate_latitude latitude in
  let! longitude := validate_longitude longitude in
  let! speed := validate_speed speed in
  ret (latitude, longitude, speed).

End G7LocationData.

Module GPSService.
Import Num.

(** The two tables the service writes: [gps_locations], and for each
    vehicle its [current_coordinates] and [last_update_time]. *)
Record database : Type := mkDatabase {
  gps_locations : list GPSLocation.t;
  vehicles : gmap string (Q * Q * Z)
}.

(** Python truth value of an [Optional[float]] or of a Decimal column:
    [None] and zero are false. *)
Definition truthy (x : option Q) : bool :=
  match x with
  | Some q => negb (Qeq_bool q 0)
  | None => false
  end.

(** Truth value of an [Optional[str]]. *)
Definition truthy_str (x : option string) : bool :=
  match x with
  | Some s => negb (String.eqb s "")
  | None => false
  end.

(** [Decimal(str(x)) if x else None] *)
Definition decimal_or_none (x : option Q) : option Q :=
  if truthy x then x else None.

(** A value stored in a column [DECIMAL(precision, scale)]: it is rounded
    to [scale] decimals, half away from zero, and must then be below
    [10 ^ (precision - scale)] in absolute value; the server refuses an
    overflow. *)
Definition round_half_away (x : Q) : Z :=
  if Qle_bool 0 x then Qfloor (x + (1 # 2)) else Qceiling (x - (1 # 2)).

Definition DECIMAL (precision scale : Z) (x : Q) : result Q :=
  let scaled := round_half_away (x * inject_Z (10 ^ scale)) in
  if Z.abs scaled <? 10 ^ precision
  then ret (scaled # Z.to_pos (10 ^ scale))
  else raise DBAPIError.

Definition DECIMAL_opt (precision scale : Z) (x : option Q) : result (option Q) :=
  match x with
  | None => ret None
  | Some q => let! v := DECIMAL precision scale q in ret (Some v)
  end.

(** [_update_vehicle_location] *)
Definition _update_vehicle_location (db : database) (now : Z)
    (vehicle_id : string) (latitude longitude : Q) : database :=
  {| gps_locations := gps_locations db;
     vehicles := alter (fun _ => (longitude, latitude, now)) vehicle_id (vehicles db) |}.

(** [ORDER BY gps_time] *)
Definition gps_time_asc (p1 p2 : GPSLocation.t) : Prop :=
  GPSLocation.gps_time p1 <= GPSLocation.gps_time p2.

#[global] Instance gps_time_asc_dec : RelDecision gps_time_asc :=
  fun p1 p2 => decide (GPSLocation.gps_time p1 <= GPSLocation.gps_time p2).

(** One condition of the [WHERE] clause; a comparison with a NULL column
    does not select the row. *)
Definition cond_eq (wanted : option string) (column : option string) : bool :=
  if truthy_str wanted then bool_decide (column = wanted) else true.

Definition cond_time (bound : option Z) (test : Z -> bool) : bool :=
  match bound with
  | Some b => test b
  | None => true
  end.

Definition cond_speed (bound : option Q) (column : option Q)
    (test : Q -> Q -> bool) : bool :=
  match bound with
  | None => true
  | Some b => match column with
              | Some v => test v b
              | None => false
              end
  end.

Definition matches (filters : option TrackingFilter.t) (p : GPSLocation.t) : bool :=
  String.eqb (GPSLocation.is_valid p) "1" &&
  match filters with
  | None => true
  | Some f =>
      cond_eq (TrackingFilter.shipment_id f) (GPSLocation.shipment_id p)
      && cond_eq (TrackingFilter.vehicle_id f) (GPSLocation.vehicle_id p)
      && cond_time (TrackingFilter.time_from f) (fun b => b <=? GPSLocation.gps_time p)
      && cond_time (TrackingFilter.time_to f) (fun b => GPSLocation.gps_time p <=? b)
      && cond_speed (TrackingFilter.min_speed f) (GPSLocation.speed p)
           (fun v b => Qle_bool b v)
      && cond_speed (TrackingFilter.max_speed f) (GPSLocation.speed p)
           (fun v b => Qle_bool v b)
  end.

(** The statement of [get_tracking_history], for filters whose ids are
    parsed. *)
Definition get_tracking_history (db : database)
    (filters : option TrackingFilter.t) (limit : nat) : list GPSLocation.t :=
  take limit (merge_sort gps_time_asc (filter (fun p => matches filters p = true)
                                              (gps_locations db))).

(** [_calculate_distance]: the haversine formula. *)
Definition radians (x : R) : R := (x * PI / 180)%R.

Definition _calculate_distance (lat1 lon1 lat2 lon2 : R) : R :=
  let lat1 := radians lat1 in
  let lon1 := radians lon1 in
  let lat2 := radians lat2 in
  let lon2 := radians lon2 in
  let dlat := (lat2 - lat1)%R in
  let dlon := (lon2 - lon1)%R in
  let a := (sin (dlat / 2) ^ 2 + cos lat1 * cos lat2 * sin (dlon / 2) ^ 2)%R in
  let c := (2 * asin (sqrt a))%R in
  let r := 6371%R in
  (c * r)%R.

(** The variables the loop of [analyze_route] updates. *)
Record loop_state : Type := mkLoop {
  l_total_distance : R;
  l_max_speed : Q;
  l_speeds : list Q;
  l_stop_count : Z;
  l_stop_duration : Z
}.

Definition loop_init : loop_state :=
  {| l_total_distance := 0%R; l_max_speed := 0%Q; l_speeds := [];
     l_stop_count := 0; l_stop_duration := 0 |}.

(** [time_diff]: minutes from [prev_point] to [curr_point]. *)
Definition time_diff (prev_point curr_point : GPSLocation.t) : Q :=
  (total_seconds (GPSLocation.gps_time curr_point) (GPSLocation.gps_time prev_point)
   / 60)%Q.

(** The body of the loop, for [prev_point = gps_points[i-1]] and
    [curr_point = gps_points[i]]. *)
Definition loop_body (prev_point curr_point : GPSLocation.t) (st : loop_state)
  : loop_state :=
  let distance :=
    _calculate_distance
      (Q2R (GPSLocation.latitude prev_point)) (Q2R (GPSLocation.longitude prev_point))
      (Q2R (GPSLocation.latitude curr_point)) (Q2R (GPSLocation.longitude curr_point)) in
  let total_distance := (l_total_distance st + distance)%R in
  let unchanged :=
    {| l_total_distance := total_distance;
       l_max_speed := l_max_speed st; l_speeds := l_speeds st;
       l_stop_count := l_stop_count st; l_stop_duration := l_stop_duration st |} in
  match GPSLocation.speed curr_point with
  | Some speed =>
      if truthy (Some speed) then                        (* if curr_point.speed: *)
        let time_diff := time_diff prev_point curr_point in
        let stop := Qlt_bool speed 5 && Qlt_bool 2 time_diff in
        {| l_total_distance := total_distance;
           l_max_speed := Qmax (l_max_speed st) speed;
           l_speeds := l_speeds st ++ [speed];
           l_stop_count := if stop then l_stop_count st + 1 else l_stop_count st;
           l_stop_duration :=
             if stop then l_stop_duration st + int_of_Q time_diff
             else l_stop_duration st |}
      else unchanged
  | None => unchanged
  end.

(** [for i in range(1, len(gps_points))] *)
Fixpoint route_loop (prev_point : GPSLocation.t) (rest : list GPSLocation.t)
    (st : loop_state) : loop_state :=
  match rest with
  | [] => st
  | curr_point :: rest' => route_loop curr_point rest' (loop_body prev_point curr_point st)
  end.

Definition sum (xs : list Q) : Q := foldl Qplus 0%Q xs.

(** The part of [analyze_route] that follows the query. *)
Definition analyze_points (gps_points : list GPSLocation.t) : RouteAnalysis.t :=
  match gps_points with
  | first :: (_ :: _) as rest =>
      let st := route_loop first rest loop_init in
      let total_duration :=
        int_of_Q (total_seconds (GPSLocation.gps_time (List.last rest first))
                                (GPSLocation.gps_time first) / 60) in
      let average_speed :=
        match l_speeds st with
        | [] => 0%Q
        | speeds => (sum speeds / inject_Z (Z.of_nat (length speeds)))%Q
        end in
      {| RouteAnalysis.total_distance := Rround2 (l_total_distance st);
         RouteAnalysis.total_duration := total_duration;
         RouteAnalysis.average_speed := round2 average_speed;
         RouteAnalysis.max_speed := round2 (l_max_speed st);
         RouteAnalysis.stop_count := l_stop_count st;
         RouteAnalysis.stop_duration := l_stop_duration st |}
  | _ =>
      {| RouteAnalysis.total_distance := 0%R;
         RouteAnalysis.total_duration := 0;
         RouteAnalysis.average_speed := 0%Q;
         RouteAnalysis.max_speed := 0%Q;
         RouteAnalysis.stop_count := 0;
         RouteAnalysis.stop_duration := 0 |}
  end.

(** The filter [analyze_route] builds for its query. *)
Definition route_filter (shipment_id : string) (time_from time_to : option Z)
  : TrackingFilter.t :=
  {| TrackingFilter.shipment_id := Some shipment_id;
     TrackingFilter.vehicle_id := None;
     TrackingFilter.time_from := time_from;
     TrackingFilter.time_to := time_to;
     TrackingFilter.min_speed := None;
     TrackingFilter.max_speed := None |}.

(** [analyze_route] on the points this statement returns. *)
Definition analyze_route (db : database) (shipment_id : string)
    (time_from time_to : option Z) : RouteAnalysis.t :=
  let filters := route_filter shipment_id time_from time_to in
  let gps_points := get_tracking_history db (Some filters) 1000 in
  analyze_points gps_points.

(** *** The quantities of the loop, one by one *)

(** The pairs [(gps_points[i-1], gps_points[i])] the loop visits. *)
Fixpoint gaps (prev_point : GPSLocation.t) (rest : list GPSLocation.t)
  : list (GPSLocation.t * GPSLocation.t) :=
  match rest with
  | [] => []
  | curr_point :: rest' => (prev_point, curr_point) :: gaps curr_point rest'
  end.

(** The speed the loop records for a point: the one that is present and
    not zero. *)
Definition recorded_speed (p : GPSLocation.t) : option Q :=
  if truthy (GPSLocation.speed p) then GPSLocation.speed p else None.

(** The gaps the loop counts as a stop. *)
Definition counted_stop (gap : GPSLocation.t * GPSLocation.t) : bool :=
  match recorded_speed (snd gap) with
  | Some speed => Qlt_bool speed 5 && Qlt_bool 2 (time_diff (fst gap) (snd gap))
  | None => false
  end.

(** A qualifying gap in the words of the specification: the later point's
    speed is below 5 km/h and more than 2 minutes have elapsed. *)
Definition qualifying_gap (gap : GPSLocation.t * GPSLocation.t) : bool :=
  match GPSLocation.speed (snd gap) with
  | Some speed => Qlt_bool speed 5 && Qlt_bool 2 (time_diff (fst gap) (snd gap))
  | None => false
  end.

(** The number of maximal runs of [true] in [bs]; [inside] tells whether the
    element before [bs] was [true]. *)
Fixpoint maximal_runs (inside : bool) (bs : list bool) : nat :=
  match bs with
  | [] => 0
  | b :: bs' => ((if b && negb inside then 1 else 0) + maximal_runs b bs')%nat
  end.

Definition whole_minutes (gap : GPSLocation.t * GPSLocation.t) : Z :=
  int_of_Q (time_diff (fst gap) (snd gap)).

Definition sum_Z (xs : list Z) : Z := foldr Z.add 0 xs.

Definition mean (xs : list Q) : Q :=
  match xs with
  | [] => 0%Q
  | _ => (sum xs / inject_Z (Z.of_nat (length xs)))%Q
  end.

End GPSService.

(** ** FastCache: shards, connection pools, reads and statistics *)

Module RedisClusterManager.

(** [_get_shard_index]: [hash] is Python's built-in hash of the key,
    [client_count] the number of clients.  The remainder has the sign of
    the divisor; with no client the division raises [ZeroDivisionError],
    here [None]. *)
Definition _get_shard_index (hash : string -> Z) (client_count : Z) (key : string)
  : option Z :=
  if client_count =? 0 then None else Some (hash key mod client_count).

(** [get_client]: [redis_clients[index]], for an index that is never
    negative here; past the end of the list it is an [IndexError]. *)
Definition get_client {Redis} (hash : string -> Z) (redis_clients : list Redis)
    (key : string) : option (result Redis) :=
  index ← _get_shard_index hash (Z.of_nat (length redis_clients)) key;
  Some (match redis_clients !! Z.to_nat index with
        | Some client => ret client
        | None => raise IndexError
        end).

End RedisClusterManager.

Module RedisConnectionPool.

(** [get_redis_client]: the pool handed out, and the new [current_pool]. *)
Definition get_redis_client {Pool} (pools : list Pool) (current_pool : nat)
  : result (Pool * nat) :=
  match pools !! current_pool with
  | Some pool => ret (pool, ((current_pool + 1) mod length pools)%nat)
  | None => raise IndexError
  end.

(** [n] calls in a row: the pools handed out, in order, and the last
    [current_pool]. *)
Fixpoint get_redis_clients {Pool} (pools : list Pool) (current_pool : nat) (n : nat)
  : result (list Pool * nat) :=
  match n with
  | O => ret ([], current_pool)
  | S n' =>
      let! first := get_redis_client pools current_pool in
      let! others := get_redis_clients pools (snd first) n' in
      ret (fst first :: fst others, snd others)
  end.

End RedisConnectionPool.

(** The reads of a cache that has no cluster manager, as
    [create_optimized_cache] builds it from the one Redis of the shipped
    configuration: reads and flushes go to the same client.  [hgetall]
    and [lrange] stand for the Redis commands of their names.  No key has
    expired: the time to live is recorded, and no time passes. *)
Module RedisReads.
Import PointCodec RedisCache.

(** The counters of [OptimizedGPSCache] the reads update. *)
Record counters : Type := mkCounters {
  read_count : Z;
  cache_hits : Z;
  cache_misses : Z
}.

Definition counters_init : counters :=
  {| read_count := 0; cache_hits := 0; cache_misses := 0 |}.

Definition hit (n : counters) : counters :=
  {| read_count := read_count n + 1; cache_hits := cache_hits n + 1;
     cache_misses := cache_misses n |}.

Definition miss (n : counters) : counters :=
  {| read_count := read_count n + 1; cache_hits := cache_hits n;
     cache_misses := cache_misses n + 1 |}.

(** The dict [get_vehicle_location] returns.  The fields of the hash are
    read back with [float], which gives the float that was written. *)
Record vehicle_location : Type := mkVehicleLocation {
  vehicle_id : string;
  latitude : spec_float;
  longitude : spec_float;
  speed : spec_float;
  direction : spec_float;
  timestamp : spec_float
}.

(** [get_vehicle_location] *)
Definition get_vehicle_location (c : cache) (n : counters) (vid : string)
  : counters * option vehicle_location :=
  match hashes (store c) !! vehicle_key vid with
  | Some data =>
      (hit n, Some {| vehicle_id := vid;
                      latitude := ld_lat data; longitude := ld_lng data;
                      speed := ld_speed data; direction := ld_dir data;
                      timestamp := ld_ts data |})
  | None => (miss n, None)
  end.

(** [get_vehicle_track] with its counters: a non-empty range is a hit,
    counted before the blocks are decoded. *)
Definition get_vehicle_track (c : cache) (n : counters) (vid : string) (limit : Z)
  : counters * result (list GPSPoint) :=
  match lrange (store c) (track_key vid) 0 (limit - 1) with
  | [] => (miss n, ret [])
  | _ => (hit n, RedisCache.get_vehicle_track c vid limit)
  end.

(** A read of the cache. *)
Inductive read : Type :=
| ReadLocation (vid : string)
| ReadTrack (vid : string) (limit : Z).

Definition read_step (c : cache) (n : counters) (r : read) : counters :=
  match r with
  | ReadLocation vid => fst (get_vehicle_location c n vid)
  | ReadTrack vid limit => fst (get_vehicle_track c n vid limit)
  end.

(** The dict [get_performance_stats] returns. *)
Record performance_stats : Type := mkPerformanceStats {
  ps_write_count : Z;
  ps_read_count : Z;
  ps_cache_hits : Z;
  ps_cache_misses : Z;
  hit_rate_percent : Q;
  buffer_size : Z
}.

(** [get_performance_stats]; the quotient of the hit rate is taken
    exactly. *)
Definition get_performance_stats (c : cache) (n : counters) : performance_stats :=
  let total_reads := read_count n in
  let hit_rate :=
    if 0 <? total_reads
    then (inject_Z (cache_hits n) / inject_Z total_reads * 100)%Q
    else 0%Q in
  {| ps_write_count := write_count c;
     ps_read_count := read_count n;
     ps_cache_hits := cache_hits n;
     ps_cache_misses := cache_misses n;
     hit_rate_percent := Num.round2 hit_rate;
     buffer_size := total_points (write_buffer c) |}.

(** [cleanup]: the last flush comes first; when it raises, the task is
    not cancelled and the connections are not closed.  Cancelling and
    closing leave the cache as it is. *)
Definition cleanup (c : cache) : cache * result unit := _flush_write_buffer c.

(** The number of points a sequence of operations caches. *)
Definition cached_count (ops : list op) : Z :=
  foldr (fun o k => match o with Cache _ _ => k + 1 | BackgroundFlush => k end) 0 ops.

End RedisReads.

(** ** The rest of database_optimizer.py: the processor's life cycle and
    the daily partitions *)

Module AsyncBatchProcessor.
Import DurableStore.

(** The dict [add_gps_data] appends for a [GPSBatchData]. *)
Definition item (gps_data : GPSBatchData.t) : row :=
  {| data := gps_data;
     geom := (GPSBatchData.longitude gps_data, GPSBatchData.latitude gps_data) |}.

(** The table the processor stands for: what the engine holds once the
    buffer is written. *)
Definition pending (p : processor) : table :=
  upsert (gps_locations_partitioned (engine p)) (batch_buffer p).

(** [stop]: the flush of what is left; cancelling the background task
    leaves the processor as it is. *)
Definition stop (p : processor) : processor * result unit := _flush_batch p.

(** What happens to a running processor: a producer adds a datum, and the
    call returns or raises; or the background task finds a flush due and
    calls [_flush_batch], and logs what it raises. *)
Inductive event : Type :=
| Add (gps_data : GPSBatchData.t)
| BackgroundFlush.

Definition step (p : processor) (e : event) : processor :=
  match e with
  | Add gps_data => fst (add_gps_data p gps_data)
  | BackgroundFlush => fst (_flush_batch p)
  end.

Definition run (p : processor) (events : list event) : processor :=
  foldl step p events.

(** The data the events add, in the order of arrival. *)
Definition added (events : list event) : list GPSBatchData.t :=
  omap (fun e => match e with
                 | Add gps_data => Some gps_data
                 | BackgroundFlush => None
                 end) events.

(** What a successful [_flush_batch] does with [processing_times]: it
    appends the time of the flush, then keeps [processing_times[-100:]]
    when there are more than 100. *)
Definition record_processing_time {A} (processing_times : list A) (process_time : A)
  : list A :=
  let processing_times := processing_times ++ [process_time] in
  if (100 <? length processing_times)%nat
  then drop (length processing_times - 100) processing_times
  else processing_times.

End AsyncBatchProcessor.

(** The daily partitions of [gps_locations_partitioned].  A date is the
    number of its day; the partition [gps_locations_YYYYMMDD] of a day holds
    the rows from that day to the next, and is named by the day: the names of
    two days compare as the days do.  The state is the set of the days whose
    partition exists.  The parent table, whose name matches the pattern of
    [cleanup_old_partitions] too, is named above the partition of every
    day, and is never dropped. *)
Module PostgreSQLOptimizer.

(** [create_daily_partitions]: [CREATE TABLE IF NOT EXISTS] for the days
    [base_date + i], [i] in [range(-1, days_ahead + 1)]. *)
Definition create_daily_partitions (partitions : gset Z) (base_date : Z)
    (days_ahead : Z) : gset Z :=
  foldl (fun partitions i => let partition_date := base_date + i in
                             {[ partition_date ]} ∪ partitions)
        partitions (seqZ (-1) (days_ahead + 1 - (-1))).

(** [cleanup_old_partitions]: the partitions named below the one of
    [cutoff_date] are dropped. *)
Definition cleanup_old_partitions (partitions : gset Z) (today : Z)
    (retention_days : Z) : gset Z :=
  let cutoff_date := today - retention_days in
  filter (fun partition_date => ¬ partition_date < cutoff_date) partitions.

(** One round of [DatabaseManager.maintenance_task], run on the day
    [today], with the default [days_ahead = 7] and [retention_days = 30]. *)
Definition maintenance (partitions : gset Z) (today : Z) : gset Z :=
  cleanup_old_partitions (create_daily_partitions partitions today 7) today 30.

(** [DatabaseManager.initialize] on the day [start], then the maintenance
    once a day on each of the [n] following days. *)
Fixpoint daily_maintenance (partitions : gset Z) (start : Z) (n : nat) : gset Z :=
  match n with
  | O => create_daily_partitions partitions start 7
  | S n' => maintenance (daily_maintenance partitions start n') (start + Z.of_nat n)
  end.

End PostgreSQLOptimizer.

(** ** The rest of gps_service.py: the current location and the geofences

    An identifier column holds the canonical text of a UUID, and the
    database is the part of it the tenant of the session sees. *)

Module CurrentLocation.
Import Num GPSService.

(** [ORDER BY gps_time DESC] *)
Definition gps_time_desc (p1 p2 : GPSLocation.t) : Prop :=
  GPSLocation.gps_time p2 <= GPSLocation.gps_time p1.

#[global] Instance gps_time_desc_dec : RelDecision gps_time_desc :=
  fun p1 p2 => decide (GPSLocation.gps_time p2 <= GPSLocation.gps_time p1).

(** The [WHERE] clauses of [get_current_location]. *)
Definition current_of (shipment_id vehicle_id : option string) (p : GPSLocation.t)
  : bool :=
  cond_eq shipment_id (GPSLocation.shipment_id p)
  && cond_eq vehicle_id (GPSLocation.vehicle_id p)
  && String.eqb (GPSLocation.is_valid p) "1".

End CurrentLocation.

(** A row of the table [geofences] (models/gps.py); the centre and the
    radius are nullable columns. *)
Module Geofence.
Record t : Type := mk {
  id : string;
  tenant_id : string;
  name : string;
  description : option string;
  fence_type : string;
  center_latitude : option Q;
  center_longitude : option Q;
  radius_meters : option Q;
  is_active : string
}.
End Geofence.

Module Geofences.
Import Num GPSService.

(** An entry of the list [check_geofence_violation] returns. *)
Record violation : Type := mkViolation {
  fence_id : string;
  fence_name : string;
  violation_type : string;
  distance_meters : R
}.

(** [float(x)] of a nullable decimal column: a [TypeError] on [None]. *)
Definition float (x : option Q) : result R :=
  match x with
  | Some q => ret (Q2R q)
  | None => raise TypeError
  end.

(** The body of the loop of [check_geofence_violation] for one fence. *)
Definition check_fence (latitude longitude : R) (fence : Geofence.t)
  : result (option violation) :=
  if String.eqb (Geofence.fence_type fence) "circle" then
    let! center_latitude := float (Geofence.center_latitude fence) in
    let! center_longitude := float (Geofence.center_longitude fence) in
    let distance :=
      _calculate_distance latitude longitude center_latitude center_longitude in
    let distance_meters := (distance * 1000)%R in
    let! radius_meters := float (Geofence.radius_meters fence) in
    if Rle_dec distance_meters radius_meters
    then ret (Some {| fence_id := Geofence.id fence;
                      fence_name := Geofence.name fence;
                      violation_type := "inside";
                      distance_meters := Rround2 distance_meters |})
    else ret None
  else ret None.

Fixpoint check_fences (latitude longitude : R) (geofences : list Geofence.t)
  : result (list violation) :=
  match geofences with
  | [] => ret []
  | fence :: geofences =>
      let! v := check_fence latitude longitude fence in
      let! violations := check_fences latitude longitude geofences in
      ret (match v with
           | Some v => v :: violations
           | None => violations
           end)
  end.

(** The fences [create_geofence] can have written: no null centre or
    radius. *)
Definition complete (fence : Geofence.t) : Prop :=
  is_Some (Geofence.center_latitude fence)
  /\ is_Some (Geofence.center_longitude fence)
  /\ is_Some (Geofence.radius_meters fence).

End Geofences.

(** ** The methods of [GPSService], on a session

    Each method begins with [set_tenant_context], parses the ids it is
    given with [uuid.UUID], and raises whatever goes wrong in its body
    again as [GPSServiceError].  A UUID is stored and compared as its
    canonical text. *)

Module GPSServiceAPI.
Import Num GPSService CurrentLocation Geofences.

(** What a method sees of the database through its [AsyncSession]: the
    tables [gps_locations] and [vehicles], the table [geofences], the ids
    of the rows of [shipments], and what [set_tenant_context]
    (core/security.py) gets from the server for [SET
    app.current_tenant_id = :tenant_id] with a text as the parameter;
    whether a [SET] is taken with a parameter is up to the driver. *)
Record session : Type := mkSession {
  db : database;
  geofences : list Geofence.t;
  shipments : gset string;
  set_tenant_context : string -> result unit
}.

Definition with_db (s : session) (db' : database) : session :=
  {| db := db'; geofences := geofences s; shipments := shipments s;
     set_tenant_context := set_tenant_context s |}.

(** [except Exception as e: raise GPSServiceError(...)] *)
Definition wrap {A} (body : result A) : result A :=
  match body with
  | inl _ => raise GPSServiceError
  | inr a => ret a
  end.

(** A foreign key: a NULL refers to nothing; an id must be the id of a
    row of the other table. *)
Definition foreign_key (id : option string) (present : string -> bool)
  : result unit :=
  match id with
  | None => ret tt
  | Some id => if present id then ret tt else raise DBAPIError
  end.

(** A nullable text column. *)
Definition nullable (column : string -> result string) (x : option string)
  : result (option string) :=
  match x with
  | None => ret None
  | Some v => let! v := column v in ret (Some v)
  end.

Section Methods.

Variable int_other : string -> result Z.

(** [record_location]: [now] and [update_time] are the two readings of
    [datetime.utcnow()], the first for a point without a timestamp, the
    second in [_update_vehicle_location]; [raw_data] is left at [None].
    The row is checked by the server when the session commits: the
    decimal columns, [device_id] in its [VARCHAR(50)], the texts, and the
    two foreign keys; the [id] the column default draws is not kept.
    After the commit, the row of the vehicle is updated. *)
Definition record_location (s : session) (now update_time : Z) (tenant_id : string)
    (location : LocationPoint.t) (shipment_id vehicle_id : option string)
    (source : GPSSource.t) (device_id : option string)
  : result (session * GPSLocation.t) :=
  wrap
    (let! _ := set_tenant_context s tenant_id in
     let! tenant := UUID.UUID int_other tenant_id in
     let! shipment := UUID.optional int_other shipment_id in
     let! vehicle := UUID.optional int_other vehicle_id in
     let! latitude := DECIMAL 10 8 (LocationPoint.latitude location) in
     let! longitude := DECIMAL 11 8 (LocationPoint.longitude location) in
     let! altitude := DECIMAL_opt 8 2 (decimal_or_none (LocationPoint.altitude location)) in
     let! accuracy := DECIMAL_opt 6 2 (decimal_or_none (LocationPoint.accuracy location)) in
     let! speed := DECIMAL_opt 5 2 (decimal_or_none (LocationPoint.speed location)) in
     let! heading := DECIMAL_opt 5 2 (decimal_or_none (LocationPoint.heading location)) in
     let! device_id := nullable (PgText.VARCHAR 50) device_id in
     let! address := nullable PgText.TEXT (LocationPoint.address location) in
     let! _ := foreign_key shipment (fun id => bool_decide (id ∈ shipments s)) in
     let! _ := foreign_key vehicle
                 (fun id => bool_decide (is_Some (vehicles (db s) !! id))) in
     let gps_location :=
       {| GPSLocation.tenant_id := UUID.str tenant;
          GPSLocation.shipment_id := shipment;
          GPSLocation.vehicle_id := vehicle;
          GPSLocation.latitude := latitude;
          GPSLocation.longitude := longitude;
          GPSLocation.altitude := altitude;
          GPSLocation.accuracy := accuracy;
          GPSLocation.gps_time := default now (LocationPoint.timestamp location);
          GPSLocation.speed := speed;
          GPSLocation.heading := heading;
          GPSLocation.source := GPSSource.value source;
          GPSLocation.device_id := device_id;
          GPSLocation.address := address;
          GPSLocation.is_valid := "1";
          GPSLocation.is_real_time := "1" |} in
     let db' := {| gps_locations := gps_locations (db s) ++ [gps_location];
                   vehicles := vehicles (db s) |} in
     let db'' :=
       match vehicle with
       | Some v => _update_vehicle_location db' update_time v
                     (LocationPoint.latitude location)
                     (LocationPoint.longitude location)
       | None => db'
       end in
     ret (with_db s db'', gps_location)).

(** [get_current_location]: [limit(1)] and [scalar_one_or_none()] give the
    first row of the order, if there is one. *)
Definition get_current_location (s : session) (tenant_id : string)
    (shipment_id vehicle_id : option string) : result (option GPSLocation.t) :=
  wrap
    (let! _ := set_tenant_context s tenant_id in
     let! shipment := UUID.optional int_other shipment_id in
     let! vehicle := UUID.optional int_other vehicle_id in
     match shipment, vehicle with
     | None, None => raise GPSServiceError          (* if not conditions: *)
     | _, _ =>
         ret (head (merge_sort gps_time_desc
                      (filter (fun p => current_of shipment vehicle p = true)
                              (gps_locations (db s)))))
     end).

(** The ids of a [TrackingFilter], parsed. *)
Definition parse_filters (filters : option TrackingFilter.t)
  : result (option TrackingFilter.t) :=
  match filters with
  | None => ret None
  | Some f =>
      let! shipment := UUID.optional int_other (TrackingFilter.shipment_id f) in
      let! vehicle := UUID.optional int_other (TrackingFilter.vehicle_id f) in
      ret (Some {| TrackingFilter.shipment_id := shipment;
                   TrackingFilter.vehicle_id := vehicle;
                   TrackingFilter.time_from := TrackingFilter.time_from f;
                   TrackingFilter.time_to := TrackingFilter.time_to f;
                   TrackingFilter.min_speed := TrackingFilter.min_speed f;
                   TrackingFilter.max_speed := TrackingFilter.max_speed f |})
  end.

(** [get_tracking_history]: the server refuses a negative [LIMIT].  Rows
    of equal [gps_time] come in the order they were stored; the statement
    leaves their order open. *)
Definition get_tracking_history (s : session) (tenant_id : string)
    (filters : option TrackingFilter.t) (limit : Z) : result (list GPSLocation.t) :=
  wrap
    (let! _ := set_tenant_context s tenant_id in
     let! filters := parse_filters filters in
     if limit <? 0 then raise DBAPIError
     else ret (GPSService.get_tracking_history (db s) filters (Z.to_nat limit))).

(** [analyze_route] *)
Definition analyze_route (s : session) (tenant_id shipment_id : string)
    (time_from time_to : option Z) : result RouteAnalysis.t :=
  wrap
    (let filters := route_filter shipment_id time_from time_to in
     let! gps_points := get_tracking_history s tenant_id (Some filters) 1000 in
     ret (analyze_points gps_points)).

(** [create_geofence]: [id] is the [uuid.uuid4()] the column default
    draws, as its text; the primary key refuses an id that is taken. *)
Definition create_geofence (s : session) (id : string) (tenant_id : string)
    (name fence_type : string) (center_lat center_lng radius_meters : Q)
    (description : option string) : result (session * Geofence.t) :=
  wrap
    (let! _ := set_tenant_context s tenant_id in
     let! tenant := UUID.UUID int_other tenant_id in
     let! name := PgText.VARCHAR 200 name in
     let! description := nullable PgText.TEXT description in
     let! fence_type := PgText.VARCHAR 20 fence_type in
     let! center_latitude := DECIMAL 10 8 center_lat in
     let! center_longitude := DECIMAL 11 8 center_lng in
     let! radius_meters := DECIMAL 8 2 radius_meters in
     if bool_decide (id ∈ Geofence.id <$> geofences s) then raise DBAPIError
     else
       let geofence :=
         {| Geofence.id := id;
            Geofence.tenant_id := UUID.str tenant;
            Geofence.name := name;
            Geofence.description := description;
            Geofence.fence_type := fence_type;
            Geofence.center_latitude := Some center_latitude;
            Geofence.center_longitude := Some center_longitude;
            Geofence.radius_meters := Some radius_meters;
            Geofence.is_active := "1" |} in
       ret ({| db := db s; geofences := geofences s ++ [geofence];
               shipments := shipments s;
               set_tenant_context := set_tenant_context s |}, geofence)).

(** [check_geofence_violation]: the loop over the active fences. *)
Definition check_geofence_violation (s : session) (tenant_id : string)
    (latitude longitude : R) : result (list violation) :=
  wrap
    (let! _ := set_tenant_context s tenant_id in
     check_fences latitude longitude
       (filter (fun fence => Geofence.is_active fence = "1") (geofences s))).

End Methods.

End GPSServiceAPI.

(** ** Concrete inputs *)

Module Samples.
Import PointCodec.

(** The doubles 39.5, 116.25, 1700000000, 60 and 90 are singles too. *)
Definition sample_point : GPSPoint :=
  {| lat := S754_finite false 5559130790035456 (-47);
     lng := S754_finite false 8180366510653440 (-46);
     timestamp := S754_finite false 7130316800000000 (-22);
     speed := S754_finite false 8444249301319680 (-47);
     direction := S754_finite false 6333186975989760 (-46) |}.

Definition zero_point : GPSPoint :=
  {| lat := S754_zero false; lng := S754_zero false; timestamp := S754_zero false;
     speed := S754_zero false; direction := S754_zero false |}.

(** The double nearest to 0.1 is no single: its single-precision rounding
    is 13421773 * 2^-27, above it. *)
Definition tenth_point : GPSPoint :=
  {| lat := S754_finite false 7205759403792794 (-56);
     lng := S754_finite false 8180366510653440 (-46);
     timestamp := S754_finite false 7130316800000000 (-22);
     speed := S754_finite false 8444249301319680 (-47);
     direction := S754_finite false 6333186975989760 (-46) |}.

Definition tenth_rounded : GPSPoint :=
  {| lat := S754_finite false 7205759511166976 (-56);
     lng := S754_finite false 8180366510653440 (-46);
     timestamp := S754_finite false 7130316800000000 (-22);
     speed := S754_finite false 8444249301319680 (-47);
     direction := S754_finite false 6333186975989760 (-46) |}.

(** A Redis in which the list of veh-1 holds the blocks of two points. *)
Definition stored_track : RedisCache.redis :=
  {| RedisCache.hashes := ∅; RedisCache.geosets := ∅;
     RedisCache.lists :=
       {[ RedisCache.track_key "veh-1"
          := [_compress_gps_point tenth_point; _compress_gps_point sample_point] ]};
     RedisCache.ttls := ∅ |}.

(** Noon of the day 20000, and a server whose sessions are in UTC, with
    the partitions [create_daily_partitions] makes on that day: from the
    day before to a week ahead. *)
Definition noon : Z := 20000 * DurableStore.day + 12 * 3600000000.

Definition this_week : gset Z :=
  PostgreSQLOptimizer.create_daily_partitions ∅ 20000 7.

Definition empty_server : DurableStore.server :=
  {| DurableStore.time_zone := 0; DurableStore.partitions := this_week;
     DurableStore.gps_locations_partitioned := [] |}.

(** Two writes for the same vehicle and timestamp. *)
Definition write1 : DurableStore.row :=
  {| DurableStore.data := GPSBatchData.mk "veh-1" (399 # 10) (1164 # 10) 60 90 noon 5;
     DurableStore.geom := (1164 # 10, 399 # 10)%Q |}.

Definition write2 : DurableStore.row :=
  {| DurableStore.data := GPSBatchData.mk "veh-1" 40 117 0 180 noon 3;
     DurableStore.geom := (117, 40)%Q |}.

(** A datum of veh-1 and one of veh-2, stamped at noon; a processor with
    [batch_size = 2], empty, and with the datum of veh-2 buffered. *)
Definition veh1_data : GPSBatchData.t :=
  GPSBatchData.mk "veh-1" (399 # 10) (1164 # 10) 60 90 noon 5.

Definition veh2_data : GPSBatchData.t :=
  GPSBatchData.mk "veh-2" 31 121 30 0 noon 5.

Definition empty_processor : DurableStore.processor :=
  {| DurableStore.engine := empty_server; DurableStore.batch_size := 2;
     DurableStore.batch_buffer := [];
     DurableStore.total_processed := 0; DurableStore.batch_count := 0 |}.

Definition processor_with_veh2 : DurableStore.processor :=
  {| DurableStore.engine := empty_server; DurableStore.batch_size := 2;
     DurableStore.batch_buffer := [AsyncBatchProcessor.item veh2_data];
     DurableStore.total_processed := 0; DurableStore.batch_count := 0 |}.

(** A round trip of veh-1: out to (lon 4, lat 3) and back to the origin. *)
Definition at_origin (timestamp : Z) : DurableStore.row :=
  {| DurableStore.data := GPSBatchData.mk "veh-1" 0 0 0 0 timestamp 5;
     DurableStore.geom := (0, 0)%Q |}.

Definition far_out (timestamp : Z) : DurableStore.row :=
  {| DurableStore.data := GPSBatchData.mk "veh-1" 3 4 60 0 timestamp 5;
     DurableStore.geom := (4, 3)%Q |}.

Definition round_trip : list DurableStore.row :=
  [at_origin 1; far_out 2; at_origin 3].

(** The ids of a tenant, a shipment, a vehicle and a fence. *)
Definition tenant_1 : string := "11111111-1111-4111-8111-111111111111".
Definition ship_1 : string := "22222222-2222-4222-8222-222222222222".
Definition veh_1 : string := "33333333-3333-4333-8333-333333333333".
Definition fence_1 : string := "44444444-4444-4444-8444-444444444444".

(** An [int(hex, 16)] that takes hexadecimal digits only: enough for the
    ids above. *)
Definition no_other (hex : string) : result Z := raise ValueError.

(** Points of the shipment.  [minute] is the time of the point, in
    minutes; the place is the same for all of them. *)
Definition route_point (minute : Z) (speed : option Q) : GPSLocation.t :=
  {| GPSLocation.tenant_id := tenant_1;
     GPSLocation.shipment_id := Some ship_1;
     GPSLocation.vehicle_id := None;
     GPSLocation.latitude := 399042 # 10000;
     GPSLocation.longitude := 1164074 # 10000;
     GPSLocation.altitude := None;
     GPSLocation.accuracy := None;
     GPSLocation.gps_time := Num.minutes minute;
     GPSLocation.speed := speed;
     GPSLocation.heading := None;
     GPSLocation.source := "g7_api";
     GPSLocation.device_id := None;
     GPSLocation.address := None;
     GPSLocation.is_valid := "1";
     GPSLocation.is_real_time := "1" |}.

Definition route_db (points : list GPSLocation.t) : GPSService.database :=
  {| GPSService.gps_locations := points; GPSService.vehicles := ∅ |}.

(** A session on these points, with the row of the shipment, on a server
    that takes every tenant context. *)
Definition route_session (points : list GPSLocation.t) : GPSServiceAPI.session :=
  {| GPSServiceAPI.db := route_db points;
     GPSServiceAPI.geofences := [];
     GPSServiceAPI.shipments := {[ ship_1 ]};
     GPSServiceAPI.set_tenant_context := fun _ => ret tt |}.

(** The sequence of the specification's stop example, with a slow second
    point: 10 minutes at 3 km/h, then 1 minute at 60 km/h. *)
Definition slow_stop : list GPSLocation.t :=
  [route_point 0 (Some 60%Q); route_point 10 (Some 3%Q); route_point 11 (Some 60%Q)].

(** The same with the second point at speed 0, as the specification has it. *)
Definition zero_stop : list GPSLocation.t :=
  [route_point 0 (Some 60%Q); route_point 10 (Some 0%Q); route_point 11 (Some 60%Q)].

(** One stop seen by two consecutive slow points, 10 minutes apart. *)
Definition long_stop : list GPSLocation.t :=
  [route_point 0 (Some 60%Q); route_point 10 (Some 3%Q); route_point 20 (Some 3%Q)].

(** An hour at the same place, reported at 60 km/h. *)
Definition parked_hour : list GPSLocation.t :=
  [route_point 0 None; route_point 60 (Some 60%Q)].

(** A point north of the pole, east of the date line, driving backwards. *)
Definition impossible_location : LocationPoint.t :=
  {| LocationPoint.latitude := 95;
     LocationPoint.longitude := 190;
     LocationPoint.altitude := None;
     LocationPoint.accuracy := None;
     LocationPoint.speed := Some (-5)%Q;
     LocationPoint.heading := None;
     LocationPoint.timestamp := Some 0;
     LocationPoint.address := None |}.

(** The same from a device whose clock is at the epoch. *)
Definition impossible_data : GPSBatchData.t :=
  GPSBatchData.mk "veh-1" 95 190 (-5) 0 0 5.

End Samples.

(** Inputs of the reads and of the geofences. *)
Module MoreSamples.

(** Tiananmen, at 42.5 km/h, stamped by the device. *)
Definition tiananmen : LocationPoint.t :=
  {| LocationPoint.latitude := 399042 # 10000;
     LocationPoint.longitude := 1163974 # 10000;
     LocationPoint.altitude := None;
     LocationPoint.accuracy := Some 5%Q;
     LocationPoint.speed := Some (425 # 10)%Q;
     LocationPoint.heading := None;
     LocationPoint.timestamp := Some (Num.minutes 30);
     LocationPoint.address := None |}.

(** A vehicle seen twice, 10 and 20 minutes after midnight. *)
Definition vehicle_point (minute : Z) : GPSLocation.t :=
  {| GPSLocation.tenant_id := Samples.tenant_1;
     GPSLocation.shipment_id := None;
     GPSLocation.vehicle_id := Some Samples.veh_1;
     GPSLocation.latitude := 399042 # 10000;
     GPSLocation.longitude := 1164074 # 10000;
     GPSLocation.altitude := None;
     GPSLocation.accuracy := None;
     GPSLocation.gps_time := Num.minutes minute;
     GPSLocation.speed := None;
     GPSLocation.heading := None;
     GPSLocation.source := "driver_app";
     GPSLocation.device_id := None;
     GPSLocation.address := None;
     GPSLocation.is_valid := "1";
     GPSLocation.is_real_time := "1" |}.

Definition fleet_db : GPSService.database :=
  {| GPSService.gps_locations := [vehicle_point 20; vehicle_point 10];
     GPSService.vehicles := {[ Samples.veh_1 := (0%Q, 0%Q, 0) ]} |}.

(** A session on this database, with no fence and no shipment. *)
Definition fleet_session : GPSServiceAPI.session :=
  {| GPSServiceAPI.db := fleet_db;
     GPSServiceAPI.geofences := [];
     GPSServiceAPI.shipments := ∅;
     GPSServiceAPI.set_tenant_context := fun _ => ret tt |}.

End MoreSamples.

(** * Properties *)

(** Evaluates the rationals under [Q2R] in the goal and unfolds [Q2R]. *)
Ltac eval_Q2R :=
  repeat match goal with
  | |- context [Q2R ?q] =>
      lazymatch q with
      | Qmake _ _ => fail
      | _ => let v := eval vm_compute in q in change q with v
      end
  end;
  unfold Q2R; cbn [Qnum Qden].

(** ** PointCodec *)

Module PointCodecFacts.
Import PointCodec Binary32 Samples.

Lemma Z_of_byte_of_Z (z : Z) : Z_of_byte (byte_of_Z z) = Z.land z (Z.ones 8).
Proof.
  unfold Z_of_byte, byte_of_Z.
  assert (Hb : 0 <= Z.land z (Z.ones 8) < 256).
  { rewrite Z.land_ones by lia. apply Z.mod_pos_bound. lia. }
  destruct (Byte.of_N (Z.to_N (Z.land z (Z.ones 8)))) as [b|] eqn:E.
  - apply Byte.to_of_N in E. rewrite E. lia.
  - apply Byte.of_N_None_iff in E. lia.
Qed.

Lemma Z_of_byte_range (b : Byte.byte) : 0 <= Z_of_byte b < 256.
Proof.
  unfold Z_of_byte. pose proof (Byte.to_N_bounded b). lia.
Qed.

(** Bits of a sub-word taken out of [w] and put back at its place. *)
Lemma testbit_slice (w : Z) (k n : Z) :
  0 <= k -> 0 <= n ->
  Z.testbit (Z.shiftl (Z.land (Z.shiftr w k) (Z.ones 8)) k) n
  = Z.testbit w n && (k <=? n) && (n <? k + 8).
Proof.
  intros Hk Hn.
  destruct (Z.leb_spec k n) as [Hle|Hlt].
  - rewrite Z.shiftl_spec by lia.
    rewrite Z.land_spec, Z.shiftr_spec by lia.
    replace (n - k + k) with n by lia.
    destruct (Z.ltb_spec n (k + 8)).
    + rewrite Z.ones_spec_low by lia. by rewrite !andb_true_r.
    + rewrite Z.ones_spec_high by lia. by rewrite !andb_false_r.
  - rewrite Z.shiftl_spec_low by lia. by rewrite andb_false_r.
Qed.

Lemma testbit_above (w : Z) (n : Z) :
  0 <= w < 2 ^ 32 -> 32 <= n -> Z.testbit w n = false.
Proof.
  intros Hw Hn.
  destruct (Z.eq_dec w 0) as [->|Hne]; [apply Z.testbit_0_l|].
  apply Z.bits_above_log2; [lia|].
  assert (Z.log2 w < 32) by (apply Z.log2_lt_pow2; lia). lia.
Qed.

Lemma word_of_bytes_of_word (w : Z) :
  0 <= w < 2 ^ 32 ->
  word_of_bytes (byte_of_Z w) (byte_of_Z (Z.shiftr w 8))
                (byte_of_Z (Z.shiftr w 16)) (byte_of_Z (Z.shiftr w 24)) = w.
Proof.
  intros Hw. unfold word_of_bytes. rewrite !Z_of_byte_of_Z.
  apply Z.bits_inj'. intros n Hn.
  rewrite !Z.lor_spec.
  rewrite <- (Z.shiftl_0_r (Z.land w (Z.ones 8))).
  rewrite <- (Z.shiftr_0_r w) at 1.
  rewrite !testbit_slice by lia.
  destruct (Z.ltb_spec n 32) as [Hlt|Hge].
  - destruct (Z.testbit w n); simpl; [|reflexivity].
    destruct (Z.ltb_spec n 8), (Z.ltb_spec n 16), (Z.ltb_spec n 24),
      (Z.leb_spec 8 n), (Z.leb_spec 16 n), (Z.leb_spec 24 n),
      (Z.leb_spec 0 n), (Z.ltb_spec n (0 + 8)), (Z.ltb_spec n (8 + 8)),
      (Z.ltb_spec n (16 + 8)), (Z.ltb_spec n (24 + 8)); simpl; try reflexivity; lia.
  - rewrite (testbit_above w n) by lia. reflexivity.
Qed.

Lemma words_of_bytes_tobytes (arr : list Z) :
  Forall (fun w => 0 <= w < 2 ^ 32) arr ->
  words_of_bytes (tobytes arr) = arr.
Proof.
  induction 1 as [|w arr Hw _ IH]; [reflexivity|].
  unfold tobytes in *. cbn [map concat bytes_of_word app words_of_bytes].
  rewrite word_of_bytes_of_word by assumption. by rewrite IH.
Qed.

Lemma length_tobytes (arr : list Z) :
  length (tobytes arr) = (4 * length arr)%nat.
Proof.
  unfold tobytes. induction arr as [|w arr IH]; [reflexivity|].
  cbn [map concat bytes_of_word]. rewrite length_app, IH. simpl. lia.
Qed.

Lemma sign_bit_range (s : bool) : 0 <= sign_bit s <= 1.
Proof. destruct s; simpl; lia. Qed.

(** An element of a float32 array is a 32-bit pattern. *)
Lemma bits_of_single_range (x : spec_float) : 0 <= bits_of_single x < 2 ^ 32.
Proof.
  assert (Hlor : forall a b, 0 <= a < 2 ^ 32 -> 0 <= b < 2 ^ 32 ->
                             0 <= Z.lor a b < 2 ^ 32).
  { intros a b Ha Hb.
    assert (E : Z.lor a b = Z.land (Z.lor a b) (Z.ones 32)).
    { rewrite Z.land_lor_distr_l, !Z.land_ones, !Z.mod_small by lia. reflexivity. }
    rewrite E, Z.land_ones by lia. apply Z.mod_pos_bound. lia. }
  assert (Hsign : forall s, 0 <= Z.shiftl (sign_bit s) 31 < 2 ^ 32).
  { intros []; vm_compute; split; congruence. }
  assert (Hfrac : forall m, 0 <= Z.land m (Z.ones 23) < 2 ^ 32).
  { intros m. rewrite Z.land_ones by lia.
    pose proof (Z.mod_pos_bound m (2 ^ 23)). lia. }
  assert (Hexp : forall e, 0 <= Z.shiftl (Z.land e (Z.ones 8)) 23 < 2 ^ 32).
  { intros e. rewrite Z.land_ones, Z.shiftl_mul_pow2 by lia.
    pose proof (Z.mod_pos_bound e (2 ^ 8)). lia. }
  destruct x as [s|s| |s m e]; cbn [bits_of_single].
  - apply Hsign.
  - apply Hlor; [apply Hsign|vm_compute; split; congruence].
  - vm_compute; split; congruence.
  - destruct (Z.pos m <? 2 ^ 23); repeat apply Hlor; auto.
Qed.

Lemma float32_of_float_range (x : spec_float) : 0 <= float32_of_float x < 2 ^ 32.
Proof. apply bits_of_single_range. Qed.

(** Induction on a byte string, four bytes at a time. *)
Lemma bytes_ind4 (P : list Byte.byte -> Prop) :
  P [] -> (forall a, P [a]) -> (forall a b, P [a; b]) -> (forall a b c, P [a; b; c]) ->
  (forall a b c d rest, P rest -> P (a :: b :: c :: d :: rest)) ->
  forall data, P data.
Proof.
  intros H0 H1 H2 H3 H4.
  fix IH 1.
  intros [|a [|b [|c [|d rest]]]];
    [exact H0 | apply H1 | apply H2 | apply H3 | apply H4, IH].
Qed.

Lemma length_words_of_bytes (data : list Byte.byte) :
  length (words_of_bytes data) = (length data / 4)%nat.
Proof.
  induction data as [|a|a b|a b c|a b c d rest IH] using bytes_ind4;
    try reflexivity.
  cbn [words_of_bytes length]. rewrite IH.
  change (S (S (S (S (length rest))))) with (4 + length rest)%nat.
  replace (4 + length rest)%nat with (1 * 4 + length rest)%nat by lia.
  rewrite Nat.div_add_l by lia. lia.
Qed.

Lemma take_words_of_bytes (k : nat) (data : list Byte.byte) :
  take k (words_of_bytes data) = words_of_bytes (take (4 * k) data).
Proof.
  revert k.
  induction data as [|a|a b|a b c|a b c d rest IH] using bytes_ind4;
    intros [|k]; try reflexivity.
  - simpl. by rewrite take_nil.
  - replace (4 * S k)%nat with (S (S (S (S (4 * k))))) by lia.
    simpl. by destruct k.
  - replace (4 * S k)%nat with (S (S (S (S (4 * k))))) by lia.
    simpl. by destruct k.
  - replace (4 * S k)%nat with (S (S (S (S (4 * k))))) by lia.
    cbn [words_of_bytes take]. by rewrite IH.
Qed.

Lemma decode_words_short (arr : list Z) :
  (length arr < 5)%nat -> decode_words arr = raise IndexError.
Proof.
  destruct arr as [|a0 [|a1 [|a2 [|a3 [|a4 arr]]]]]; simpl; intros; try reflexivity; lia.
Qed.

Lemma decode_words_take (arr : list Z) :
  (5 <= length arr)%nat ->
  exists p, decode_words arr = ret p /\ decode_words (take 5 arr) = ret p.
Proof.
  destruct arr as [|a0 [|a1 [|a2 [|a3 [|a4 arr]]]]]; simpl; intros; try lia.
  eexists; split; reflexivity.
Qed.

Lemma float_eq_refl (x : spec_float) : x <> S754_nan -> float_eq x x = true.
Proof.
  unfold float_eq, SFeqb. destruct x as [s|s| |s m e]; cbn; try done.
  - by destruct s.
  - destruct s; by rewrite Z.compare_refl, Pos.compare_cont_refl.
Qed.

(** *** Digits and shifts of the mantissa *)

Lemma digits2_pos_size m : digits2_pos m = Pos.size m.
Proof. induction m; cbn; congruence. Qed.

Lemma digits2_pos_log2 m : Z.pos (digits2_pos m) = Z.log2 (Z.pos m) + 1.
Proof.
  rewrite digits2_pos_size. destruct m; cbn [Z.log2 Pos.size]; lia.
Qed.

Lemma Zdigits2_log2 m : 0 < m -> Zdigits2 m = Z.log2 m + 1.
Proof. destruct m; try lia. intros _. apply digits2_pos_log2. Qed.

Lemma Zdigits2_div m n :
  0 < m -> 0 <= n -> 0 < m / 2 ^ n -> Zdigits2 (m / 2 ^ n) = Zdigits2 m - n.
Proof.
  intros Hm Hn Hq.
  rewrite !Zdigits2_log2 by lia.
  rewrite <- Z.shiftr_div_pow2 by lia.
  rewrite Z.log2_shiftr by lia.
  assert (2 ^ n <= m).
  { destruct (Z_lt_le_dec m (2 ^ n)) as [Hlt|]; [|lia].
    rewrite Z.div_small in Hq by lia. lia. }
  assert (n <= Z.log2 m).
  { apply Z.log2_le_pow2; lia. }
  lia.
Qed.

Lemma shr_1_m mrs : 0 <= shr_m mrs -> shr_m (shr_1 mrs) = shr_m mrs / 2.
Proof.
  destruct mrs as [m r s]. cbn [shr_m]. intros Hm.
  rewrite <- Z.div2_div.
  destruct m as [|[p|p|]|p]; try reflexivity; lia.
Qed.

Lemma iter_shr_m p : forall mrs,
  0 <= shr_m mrs -> shr_m (SpecFloat.iter_pos shr_1 p mrs) = shr_m mrs / 2 ^ Z.pos p.
Proof.
  induction p as [p IH|p IH|]; intros mrs Hm; cbn [SpecFloat.iter_pos].
  - assert (H1 : 0 <= shr_m (shr_1 mrs)).
    { rewrite shr_1_m by lia. apply Z.div_pos; lia. }
    assert (H2 : 0 <= shr_m (SpecFloat.iter_pos shr_1 p (shr_1 mrs))).
    { rewrite IH by lia. apply Z.div_pos; lia. }
    rewrite IH, IH, shr_1_m by lia.
    rewrite !Z.div_div by lia.
    f_equal.
    replace (Z.pos p~1) with (1 + Z.pos p + Z.pos p) by lia.
    rewrite !Z.pow_add_r by lia. lia.
  - assert (H2 : 0 <= shr_m (SpecFloat.iter_pos shr_1 p mrs)).
    { rewrite IH by lia. apply Z.div_pos; lia. }
    rewrite IH, IH by lia.
    rewrite !Z.div_div by lia.
    f_equal.
    replace (Z.pos p~0) with (Z.pos p + Z.pos p) by lia.
    rewrite !Z.pow_add_r by lia. lia.
  - rewrite shr_1_m by lia. reflexivity.
Qed.

(** *** Rounding gives a number of the format *)

Section Valid.
Variables prec emax : Z.
Hypothesis Hprec : 0 < prec.

Abbreviation fexp := (fexp prec emax).
Abbreviation emin := (emin prec emax).

Lemma fexp_mono x y : x <= y -> fexp x <= fexp y.
Proof. unfold SpecFloat.fexp. lia. Qed.

Lemma shr_record_of_loc_m m l : shr_m (shr_record_of_loc m l) = m.
Proof. destruct l as [|[]]; reflexivity. Qed.

(** The mantissa and the exponent that [shr_fexp] returns. *)
Lemma shr_fexp_spec m e l :
  0 <= m ->
  let n := fexp (Zdigits2 m + e) - e in
  shr_m (fst (shr_fexp prec emax m e l)) = (if 0 <? n then m / 2 ^ n else m)
  /\ snd (shr_fexp prec emax m e l) = (if 0 <? n then e + n else e).
Proof.
  intros Hm n. unfold shr_fexp. fold n.
  destruct n as [|p|p] eqn:Hn; cbn [shr fst snd Z.ltb Z.compare].
  - by rewrite shr_record_of_loc_m.
  - rewrite iter_shr_m, shr_record_of_loc_m; [easy|].
    by rewrite shr_record_of_loc_m.
  - by rewrite shr_record_of_loc_m.
Qed.

Lemma Zdigits2_nonneg m : 0 <= m -> 0 <= Zdigits2 m.
Proof. destruct m; cbn; lia. Qed.

Lemma Zdigits2_mono m m' : 0 < m -> m <= m' -> Zdigits2 m <= Zdigits2 m'.
Proof.
  intros Hm Hle. rewrite !Zdigits2_log2 by lia.
  pose proof (Z.log2_le_mono m m' Hle). lia.
Qed.

(** After [shr_fexp] the mantissa is canonical for the exponent, or it is
    zero and the exponent is the least one. *)
Lemma shr_fexp_canonical m e l :
  0 < m -> e <= fexp (Zdigits2 m + e) ->
  let m' := shr_m (fst (shr_fexp prec emax m e l)) in
  let e' := snd (shr_fexp prec emax m e l) in
  0 <= m' /\ (0 < m' -> fexp (Zdigits2 m' + e') = e') /\ (m' = 0 -> e' = emin).
Proof.
  intros Hm He m' e'.
  destruct (shr_fexp_spec m e l) as [Hm' He']; [lia|].
  fold m' in Hm'. fold e' in He'.
  set (n := fexp (Zdigits2 m + e) - e) in *.
  destruct (Z.ltb_spec 0 n) as [Hn|Hn].
  - assert (0 <= m') by (rewrite Hm'; apply Z.div_pos; lia).
    split; [done|]. split.
    + intros Hpos. rewrite Hm', He'.
      rewrite Zdigits2_div by lia.
      replace (Zdigits2 m - n + (e + n)) with (Zdigits2 m + e) by lia.
      unfold n. lia.
    + intros Hzero. rewrite He'.
      assert (Hlt : m < 2 ^ n).
      { destruct (Z_lt_le_dec m (2 ^ n)) as [|Hge]; [done|].
        assert (1 <= m / 2 ^ n); [|lia].
        apply Z.div_le_lower_bound; lia. }
      assert (Z.log2 m < n) by (apply Z.log2_lt_pow2; lia).
      pose proof (Zdigits2_log2 m Hm).
      unfold n, SpecFloat.fexp in *. lia.
  - assert (n = 0) by lia.
    rewrite Hm', He'. split; [lia|]. split; [|lia].
    intros _. unfold n in *. lia.
Qed.

Lemma round_nearest_even_cases m l :
  round_nearest_even m l = m \/ round_nearest_even m l = m + 1.
Proof.
  destruct l as [|[]]; cbn [round_nearest_even]; auto.
  destruct (Z.even m); auto.
Qed.

Lemma binary_round_aux_valid s m e l :
  0 < m -> e <= fexp (Zdigits2 m + e) ->
  valid_binary prec emax (binary_round_aux prec emax s m e l) = true.
Proof.
  intros Hm He. unfold binary_round_aux.
  destruct (shr_fexp_canonical m e l Hm He) as (Hm1 & Hcan1 & Hzero1).
  destruct (shr_fexp prec emax m e l) as [mrs' e'] eqn:Hshr1.
  cbn [fst snd] in *.
  set (m1 := shr_m mrs') in *.
  set (m2 := round_nearest_even m1 (loc_of_shr_record mrs')).
  assert (Hm2 : m2 = m1 \/ m2 = m1 + 1) by apply round_nearest_even_cases.
  destruct (Z.eq_dec m2 0) as [Hz|Hnz].
  - destruct (shr_fexp_spec m2 e' loc_Exact) as [Hm3 _]; [lia|].
    destruct (shr_fexp prec emax m2 e' loc_Exact) as [mrs'' e''].
    cbn [fst] in Hm3. rewrite Hm3, Hz.
    rewrite Z.div_0_l by (apply Z.pow_nonzero; [lia|unfold SpecFloat.fexp; cbn; lia]).
    by destruct (0 <? fexp (Zdigits2 0 + e') - e').
  - assert (Hpos2 : 0 < m2) by lia.
    assert (He2 : e' <= fexp (Zdigits2 m2 + e')).
    { destruct (Z.eq_dec m1 0) as [H0|H0].
      - assert (m2 = 1) as -> by lia.
        rewrite (Hzero1 H0). unfold SpecFloat.fexp. cbn [Zdigits2 digits2_pos]. lia.
      - assert (0 < m1) by lia.
        rewrite <- (Hcan1 ltac:(done)) at 1.
        apply fexp_mono.
        pose proof (Zdigits2_mono m1 m2 ltac:(done) ltac:(lia)). lia. }
    destruct (shr_fexp_canonical m2 e' loc_Exact Hpos2 He2) as (Hm3 & Hcan3 & _).
    destruct (shr_fexp prec emax m2 e' loc_Exact) as [mrs'' e''].
    cbn [fst snd] in *.
    destruct (shr_m mrs'') as [|m3|m3] eqn:Hm3'; [done| |done].
    destruct (Z.leb_spec e'' (emax - prec)) as [Hle|Hgt]; [|done].
    cbn [valid_binary]. unfold bounded, canonical_mantissa.
    apply andb_true_iff. split.
    + apply Z.eqb_eq. apply (Hcan3 ltac:(lia)).
    + by apply Z.leb_le.
Qed.

Lemma Pos_iter_xO m d : Z.pos (Pos.iter xO m d) = Z.pos m * 2 ^ Z.pos d.
Proof.
  induction d as [|d IH] using Pos.peano_ind.
  - cbn. lia.
  - rewrite Pos.iter_succ, Pos2Z.inj_xO, IH, Pos2Z.inj_succ.
    rewrite Z.pow_succ_r by lia. lia.
Qed.

Lemma digits2_pos_iter_xO m d :
  Z.pos (digits2_pos (Pos.iter xO m d)) = Z.pos (digits2_pos m) + Z.pos d.
Proof.
  rewrite !digits2_pos_log2, Pos_iter_xO.
  rewrite Z.log2_mul_pow2 by lia. lia.
Qed.

(** The result of rounding is a number of the format. *)
Lemma binary_round_valid s m e :
  valid_binary prec emax (binary_round prec emax s m e) = true.
Proof.
  unfold binary_round, shl_align.
  set (e' := fexp (Z.pos (digits2_pos m) + e)).
  destruct (e' - e) as [|d|d] eqn:Hd.
  - apply binary_round_aux_valid; [lia|]. cbn [Zdigits2]. fold e'. lia.
  - apply binary_round_aux_valid; [lia|]. cbn [Zdigits2]. fold e'. lia.
  - apply binary_round_aux_valid; [lia|]. cbn [Zdigits2].
    rewrite digits2_pos_iter_xO.
    replace (Z.pos (digits2_pos m) + Z.pos d + e') with (Z.pos (digits2_pos m) + e) by lia.
    fold e'. lia.
Qed.

End Valid.

(** *** The bit pattern of a binary32 number *)

Lemma land_shiftl_small a b n :
  0 <= n -> 0 <= b < 2 ^ n -> Z.land (Z.shiftl a n) b = 0.
Proof.
  intros Hn Hb. apply Z.bits_inj'. intros k Hk.
  rewrite Z.land_spec, Z.bits_0.
  destruct (Z_lt_le_dec k n).
  - by rewrite Z.shiftl_spec_low by lia.
  - destruct (Z.eq_dec b 0) as [->|].
    { rewrite Z.bits_0. apply andb_false_r. }
    rewrite (Z.bits_above_log2 b k); [apply andb_false_r|lia|].
    enough (Z.log2 b < n) by lia. apply Z.log2_lt_pow2; lia.
Qed.

Lemma lor_shiftl_add a b n :
  0 <= n -> 0 <= b < 2 ^ n -> Z.lor (Z.shiftl a n) b = a * 2 ^ n + b.
Proof.
  intros Hn Hb. pose proof (Z.add_lor_land (Z.shiftl a n) b) as H.
  rewrite land_shiftl_small in H by done.
  rewrite Z.shiftl_mul_pow2 in * by done. lia.
Qed.

(** The three fields of a 32-bit pattern. *)
Lemma fields_of_pattern s E M w :
  0 <= E < 256 -> 0 <= M < 2 ^ 23 ->
  w = sign_bit s * 2 ^ 31 + E * 2 ^ 23 + M ->
  Z.testbit w 31 = s
  /\ Z.land (Z.shiftr w 23) (Z.ones 8) = E
  /\ Z.land w (Z.ones 23) = M.
Proof.
  intros HE HM ->.
  change (2 ^ 23) with 8388608 in *. change (2 ^ 31) with 2147483648.
  assert (Hsign : 0 <= sign_bit s <= 1) by (destruct s; cbn; lia).
  split; [|split].
  - rewrite Z.testbit_odd, Z.shiftr_div_pow2 by lia.
    change (2 ^ 31) with 2147483648.
    assert ((sign_bit s * 2147483648 + E * 8388608 + M) / 2147483648
            = sign_bit s) as ->.
    { symmetry. apply Z.div_unique with (E * 8388608 + M); lia. }
    by destruct s.
  - rewrite Z.land_ones, Z.shiftr_div_pow2 by lia.
    change (2 ^ 23) with 8388608. change (2 ^ 8) with 256.
    assert ((sign_bit s * 2147483648 + E * 8388608 + M) / 8388608
            = sign_bit s * 256 + E) as ->.
    { symmetry. apply Z.div_unique with M; lia. }
    symmetry. apply Z.mod_unique with (sign_bit s); lia.
  - rewrite Z.land_ones by lia. change (2 ^ 23) with 8388608.
    symmetry. apply Z.mod_unique with (sign_bit s * 256 + E); lia.
Qed.

Lemma float_of_float32_pattern s E M w :
  0 <= E < 256 -> 0 <= M < 2 ^ 23 ->
  w = sign_bit s * 2 ^ 31 + E * 2 ^ 23 + M ->
  float_of_float32 w
  = if E =? 255 then (if M =? 0 then S754_infinity s else S754_nan)
    else if E =? 0 then binary_normalize 53 1024 (cond_Zopp s M) (-149) s
    else binary_normalize 53 1024 (cond_Zopp s (M + 2 ^ 23)) (E - 150) s.
Proof.
  intros HE HM Hw.
  destruct (fields_of_pattern s E M w HE HM Hw) as (Hs & HE' & HM').
  unfold float_of_float32. cbv zeta. by rewrite Hs, HE', HM'.
Qed.

(** The mantissa and the exponent of a number of the binary32 format. *)
Lemma bounded_single m e :
  bounded 24 128 m e = true ->
  (Z.pos m < 2 ^ 23 /\ e = -149)
  \/ (2 ^ 23 <= Z.pos m < 2 ^ 24 /\ -149 <= e <= 104).
Proof.
  unfold bounded, canonical_mantissa, fexp, emin.
  intros [Hcan Hle%Z.leb_le]%andb_true_iff. apply Z.eqb_eq in Hcan.
  pose proof (digits2_pos_log2 m) as Hd.
  pose proof (Z.log2_spec (Z.pos m) ltac:(lia)) as [Hlo Hhi].
  set (d := Z.pos (digits2_pos m)) in *.
  replace (Z.succ (Z.log2 (Z.pos m))) with d in Hhi by lia.
  replace (Z.log2 (Z.pos m)) with (d - 1) in Hlo by lia.
  destruct (Z_lt_le_dec d 24) as [Hlt|Hge].
  - left. split; [|lia].
    eapply Z.lt_le_trans; [apply Hhi|]. apply Z.pow_le_mono_r; lia.
  - right. assert (d = 24) as Hd24 by lia. rewrite Hd24 in *.
    change (24 - 1) with 23 in Hlo. lia.
Qed.

(** [float(w)] of the pattern of a binary32 number is the double with its
    value. *)
Lemma float_of_float32_bits y :
  valid_binary 24 128 y = true ->
  float_of_float32 (bits_of_single y) = widen y.
Proof.
  destruct y as [s|s| |s m e]; try (by destruct s); try done.
  cbn [valid_binary widen bits_of_single]. intros Hb.
  destruct (bounded_single m e Hb) as [[Hm He]|[Hm He]].
  - destruct (Z.ltb_spec (Z.pos m) (2 ^ 23)); [|lia].
    rewrite (float_of_float32_pattern s 0 (Z.pos m)); [|lia|lia|].
    + cbn [Z.eqb]. by rewrite He.
    + rewrite Z.land_ones, Z.mod_small by lia.
      rewrite lor_shiftl_add by lia. lia.
  - destruct (Z.ltb_spec (Z.pos m) (2 ^ 23)); [lia|].
    rewrite (float_of_float32_pattern s (e + 150) (Z.pos m - 2 ^ 23)); [|lia|lia|].
    + destruct (Z.eqb_spec (e + 150) 255); [lia|].
      destruct (Z.eqb_spec (e + 150) 0); [lia|].
      by replace (Z.pos m - 2 ^ 23 + 2 ^ 23) with (Z.pos m) by lia;
         replace (e + 150 - 150) with e by lia.
    + assert (HM : Z.land (Z.pos m) (Z.ones 23) = Z.pos m - 2 ^ 23).
      { rewrite Z.land_ones by lia. symmetry.
        apply Z.mod_unique with 1; lia. }
      assert (HE : Z.land (e + 150) (Z.ones 8) = e + 150).
      { rewrite Z.land_ones by lia. apply Z.mod_small.
        change (2 ^ 8) with 256. lia. }
      rewrite HM, HE.
      rewrite (lor_shiftl_add (e + 150)) by lia.
      rewrite lor_shiftl_add; [lia|lia|].
      change (2 ^ 31) with 2147483648. change (2 ^ 23) with 8388608 in *.
      change (2 ^ 24) with 16777216 in *. lia.
Qed.

Lemma shr_1_even a :
  0 <= a ->
  shr_1 {| shr_m := 2 * a; shr_r := false; shr_s := false |}
  = {| shr_m := a; shr_r := false; shr_s := false |}.
Proof. destruct a; try lia; done. Qed.

Lemma iter_shr_exact p : forall a,
  0 <= a ->
  SpecFloat.iter_pos shr_1 p
    {| shr_m := a * 2 ^ Z.pos p; shr_r := false; shr_s := false |}
  = {| shr_m := a; shr_r := false; shr_s := false |}.
Proof.
  induction p as [p IH|p IH|]; intros a Ha; cbn [SpecFloat.iter_pos].
  - replace (a * 2 ^ Z.pos p~1) with (2 * (a * 2 ^ Z.pos p * 2 ^ Z.pos p)).
    2:{ replace (Z.pos p~1) with (1 + Z.pos p + Z.pos p) by lia.
        rewrite !Z.pow_add_r by lia. lia. }
    rewrite shr_1_even by nia. rewrite IH by nia. by rewrite IH.
  - replace (a * 2 ^ Z.pos p~0) with (a * 2 ^ Z.pos p * 2 ^ Z.pos p).
    2:{ replace (Z.pos p~0) with (Z.pos p + Z.pos p) by lia.
        rewrite !Z.pow_add_r by lia. lia. }
    rewrite IH by nia. by rewrite IH.
  - replace (a * 2 ^ 1) with (2 * a) by lia. by apply shr_1_even.
Qed.

(** Rounding a canonical mantissa leaves it as it is. *)
Lemma binary_round_aux_canonical prec emax s m e :
  fexp prec emax (Z.pos (digits2_pos m) + e) = e -> e <= emax - prec ->
  binary_round_aux prec emax s (Z.pos m) e loc_Exact = S754_finite s m e.
Proof.
  intros Hcan Hle. unfold binary_round_aux, shr_fexp.
  cbn [Zdigits2]. rewrite Hcan, Z.sub_diag. cbn [shr shr_record_of_loc].
  cbn [shr_m loc_of_shr_record round_nearest_even Zdigits2].
  rewrite Hcan, Z.sub_diag. cbn [shr shr_record_of_loc shr_m].
  by destruct (Z.leb_spec e (emax - prec)); [|lia].
Qed.

(** The double with the value of a binary32 number: the mantissa gets as
    many zeros as it needs for 53 digits. *)
Lemma widen_finite s m e :
  bounded 24 128 m e = true ->
  exists p,
    Z.pos p = 53 - Z.pos (digits2_pos m)
    /\ widen (S754_finite s m e)
       = S754_finite s (Pos.iter xO m p) (e - Z.pos p).
Proof.
  intros Hb.
  assert (Hd : Z.pos (digits2_pos m) <= 24 /\ -149 <= e
               /\ fexp 24 128 (Z.pos (digits2_pos m) + e) = e).
  { revert Hb. unfold bounded, canonical_mantissa, fexp, emin.
    intros [Hcan%Z.eqb_eq Hle%Z.leb_le]%andb_true_iff. lia. }
  destruct Hd as (Hd & He & Hcan).
  destruct (53 - Z.pos (digits2_pos m)) as [|p|p] eqn:Hp; try lia.
  exists p. split; [done|].
  assert (binary_round 53 1024 s m e
          = S754_finite s (Pos.iter xO m p) (e - Z.pos p)) as Hround.
  { unfold binary_round, shl_align.
    assert (fexp 53 1024 (Z.pos (digits2_pos m) + e) - e = Z.neg p) as Hsub.
    { unfold fexp, emin. lia. }
    rewrite Hsub.
    assert (fexp 53 1024 (Z.pos (digits2_pos m) + e) = e - Z.pos p) as ->
      by lia.
    apply binary_round_aux_canonical.
    - rewrite digits2_pos_iter_xO. unfold fexp, emin. lia.
    - revert Hb. unfold bounded. intros [_ Hle%Z.leb_le]%andb_true_iff. lia. }
  cbn [widen]. by destruct s.
Qed.

(** Rounding the double of a binary32 number to single precision gives the
    number back. *)
Lemma round_to_single_widen y :
  valid_binary 24 128 y = true -> round_to_single (widen y) = y.
Proof.
  destruct y as [s|s| |s m e]; try done.
  cbn [valid_binary]. intros Hb.
  destruct (widen_finite s m e Hb) as (p & Hp & ->).
  cbn [round_to_single].
  assert (Hd : fexp 24 128 (Z.pos (digits2_pos m) + e) = e /\ e <= 104).
  { revert Hb. unfold bounded, canonical_mantissa.
    intros [Hcan%Z.eqb_eq Hle%Z.leb_le]%andb_true_iff. lia. }
  destruct Hd as [Hcan Hle].
  unfold binary_round, shl_align.
  rewrite digits2_pos_iter_xO.
  replace (Z.pos (digits2_pos m) + Z.pos p + (e - Z.pos p))
    with (Z.pos (digits2_pos m) + e) by lia.
  rewrite Hcan.
  replace (e - (e - Z.pos p)) with (Z.pos p) by lia.
  unfold binary_round_aux, shr_fexp. cbn [Zdigits2].
  rewrite digits2_pos_iter_xO.
  replace (Z.pos (digits2_pos m) + Z.pos p + (e - Z.pos p))
    with (Z.pos (digits2_pos m) + e) by lia.
  rewrite Hcan.
  replace (e - (e - Z.pos p)) with (Z.pos p) by lia.
  cbn [shr shr_record_of_loc].
  rewrite Pos_iter_xO, iter_shr_exact by lia.
  cbn [shr_m loc_of_shr_record round_nearest_even Zdigits2].
  replace (e - Z.pos p + Z.pos p) with e by lia.
  rewrite Hcan, Z.sub_diag. cbn [shr shr_record_of_loc shr_m].
  by destruct (Z.leb_spec e (128 - 24)); [|lia].
Qed.

Lemma rounding_widen (x : spec_float) : rounding x = widen (round_to_single x).
Proof. by destruct x. Qed.

(** What the cell of the array gives back: the single-precision rounding
    of the double that was cast. *)
Lemma float_of_float32_of_float (x : spec_float) :
  float_of_float32 (float32_of_float x) = rounding x.
Proof.
  unfold float32_of_float. rewrite rounding_widen.
  apply float_of_float32_bits.
  destruct x as [s|s| |s m e]; try done.
  cbn [round_to_single]. by apply binary_round_valid.
Qed.

Lemma rounding_representable (x : spec_float) : representable x -> rounding x = x.
Proof.
  intros (_ & y & Hy & <-).
  by rewrite rounding_widen, round_to_single_widen.
Qed.

Lemma decompress_compress (p : GPSPoint) :
  _decompress_gps_point (_compress_gps_point p) = ret (round_point p).
Proof.
  unfold _decompress_gps_point, frombuffer, _compress_gps_point.
  rewrite length_tobytes.
  change (Z.of_nat (4 * length _) mod 4 =? 0) with true. cbn iota.
  rewrite words_of_bytes_tobytes
    by (repeat constructor; apply float32_of_float_range).
  cbn [map decode_words getitem nth_error bind ret].
  by rewrite !float_of_float32_of_float.
Qed.

(** C10.  The block that encodes a point has 20 bytes, and decoding it
    gives the point whose five fields are the single-precision roundings of
    the original fields (the nearest binary32 number, ties to even, as a
    double), in the order latitude, longitude, timestamp, speed,
    direction; when the five fields are exactly representable in single
    precision, that is numbers with the value of a binary32 number, it
    gives the original point, equal to it field by field also for
    Python's [==]. *)
Theorem decompress_compress_roundtrip (p : GPSPoint) :
  length (_compress_gps_point p) = 20%nat
  /\ _decompress_gps_point (_compress_gps_point p) = ret (round_point p)
  /\ (representable (lat p) -> representable (lng p) ->
      representable (timestamp p) -> representable (speed p) ->
      representable (direction p) ->
      exists q, _decompress_gps_point (_compress_gps_point p) = ret q
                /\ q = p /\ GPSPoint_eq q p = true).
Proof.
  split; [|split].
  - unfold _compress_gps_point. by rewrite length_tobytes.
  - apply decompress_compress.
  - intros Hlat Hlng Hts Hspeed Hdir. exists p.
    rewrite decompress_compress. unfold round_point.
    rewrite !rounding_representable by assumption.
    split; [by destruct p|]. split; [reflexivity|].
    unfold GPSPoint_eq.
    rewrite !float_eq_refl; [reflexivity|apply Hdir|apply Hspeed|apply Hts|
                             apply Hlng|apply Hlat].
Qed.

Lemma decompress_compress_roundtrip_witness :
  (exists q, _decompress_gps_point (_compress_gps_point sample_point) = ret q
             /\ q = sample_point /\ GPSPoint_eq q sample_point = true)
  /\ _decompress_gps_point (_compress_gps_point tenth_point) = ret tenth_rounded.
Proof.
  split.
  - apply (decompress_compress_roundtrip sample_point);
      (split; [discriminate|]);
      [exists (round_to_single (lat sample_point))
      |exists (round_to_single (lng sample_point))
      |exists (round_to_single (timestamp sample_point))
      |exists (round_to_single (speed sample_point))
      |exists (round_to_single (direction sample_point))];
      (split; vm_compute; reflexivity).
  - destruct (decompress_compress_roundtrip tenth_point) as (_ & -> & _).
    vm_compute. reflexivity.
Defined.

(** C5, as the code has it.  A block whose length is not a multiple of 4 is
    refused by numpy with [ValueError]; a block of 0, 4, 8, 12 or 16 bytes
    is refused with [IndexError] at the first missing element; every block
    of 20, 24, 28, ... bytes is decoded, from its first 20 bytes. *)
Theorem decompress_by_length (data : list Byte.byte) :
  (Z.of_nat (length data) mod 4 <> 0 ->
   _decompress_gps_point data = raise ValueError)
  /\ (Z.of_nat (length data) mod 4 = 0 -> (length data < 20)%nat ->
      _decompress_gps_point data = raise IndexError)
  /\ (Z.of_nat (length data) mod 4 = 0 -> (20 <= length data)%nat ->
      exists p, _decompress_gps_point data = ret p
                /\ _decompress_gps_point (take 20 data) = ret p).
Proof.
  unfold _decompress_gps_point, frombuffer. repeat split.
  - intros H. apply Z.eqb_neq in H. by rewrite H.
  - intros H Hlt. apply Z.eqb_eq in H. rewrite H. cbn [bind ret].
    apply decode_words_short. rewrite length_words_of_bytes.
    apply Nat.Div0.div_lt_upper_bound. lia.
  - intros H Hge. apply Z.eqb_eq in H. rewrite H. cbn [bind ret].
    rewrite length_take, Nat.min_l by lia.
    change (Z.of_nat 20 mod 4 =? 0) with true. cbn [bind ret].
    change 20%nat with (4 * 5)%nat. rewrite <- take_words_of_bytes.
    apply decode_words_take. rewrite length_words_of_bytes.
    apply Nat.div_le_lower_bound; lia.
Qed.

Lemma decompress_by_length_witness :
  _decompress_gps_point (repeat Byte.x00 3) = raise ValueError
  /\ _decompress_gps_point (repeat Byte.x00 16) = raise IndexError
  /\ exists p, _decompress_gps_point (repeat Byte.x00 24) = ret p
               /\ _decompress_gps_point (take 20 (repeat Byte.x00 24)) = ret p.
Proof.
  split; [|split].
  - apply (decompress_by_length (repeat Byte.x00 3)). vm_compute. congruence.
  - apply (decompress_by_length (repeat Byte.x00 16)); [reflexivity|simpl; lia].
  - apply (decompress_by_length (repeat Byte.x00 24)); [reflexivity|simpl; lia].
Defined.

(** C5, as stated, fails: a block of 24 bytes is not rejected. *)
Lemma decompress_accepts_24_bytes :
  length (repeat Byte.x00 24) <> 20%nat
  /\ _decompress_gps_point (repeat Byte.x00 24) = ret zero_point.
Proof. split; [simpl; lia|reflexivity]. Qed.

End PointCodecFacts.

(** ** FastCache *)

Module RedisCacheFacts.
Import PointCodec RedisCache Samples.

Lemma geoadd_raises {A} (name : string) (values nx : spec_float) (xx : string) :
  exists e, geoadd (A := A) name values nx xx = raise e.
Proof. unfold geoadd. destruct (_ && _); eauto. Qed.

(** The loop of the flush raises at the first vehicle that has a point. *)
Lemma flush_item_raises (c : cache) (v : string) (pts : list GPSPoint) :
  pts <> [] -> exists e, flush_item c (v, pts) = raise e.
Proof.
  intros Hne. unfold flush_item. destruct (last pts) as [latest|] eqn:Hlast.
  - destruct (geoadd_raises (A := unit) geo_key (lng latest) (lat latest) v)
      as [e He].
    exists e. by rewrite He.
  - by apply last_None in Hlast.
Qed.

Lemma pipeline_raises (c : cache) (items : list (string * list GPSPoint)) :
  items <> [] -> Forall (fun item => item.2 <> []) items ->
  exists e, pipeline c items = raise e.
Proof.
  destruct items as [|[v pts] items]; [done|]. intros _ Hall.
  apply Forall_cons in Hall as [Hpts _].
  destruct (flush_item_raises c v pts Hpts) as [e He].
  exists e. cbn [pipeline foldr]. by rewrite He.
Qed.

(** On a buffer whose lists all hold a point, the flush changes nothing:
    it returns at once when the buffer is empty, and raises otherwise. *)
Lemma flush_filled (c : cache) :
  filled c ->
  fst (_flush_write_buffer c) = c
  /\ (write_buffer c = ∅ -> snd (_flush_write_buffer c) = ret tt)
  /\ (write_buffer c <> ∅ -> exists e, snd (_flush_write_buffer c) = raise e).
Proof.
  intros Hfilled. unfold _flush_write_buffer. case_decide as Hempty.
  - by repeat split.
  - destruct (pipeline_raises c (map_to_list (write_buffer c))) as [e He].
    + by intros ?%map_to_list_empty_iff.
    + apply Forall_forall. intros [v pts] Hin%elem_of_map_to_list.
      by apply (Hfilled v).
    + rewrite He. split; [done|]. split; [done|]. intros _. by exists e.
Qed.

(** The cache with one more point in the list of a vehicle. *)
Lemma filled_insert (c : cache) (v : string) (p : GPSPoint) (c' : cache) :
  filled c ->
  write_buffer c' = <[v := default [] (write_buffer c !! v) ++ [p]]> (write_buffer c) ->
  filled c'.
Proof.
  intros Hfilled Hwb v' pts. rewrite Hwb.
  destruct (decide (v = v')) as [->|Hne].
  - rewrite lookup_insert_eq. intros [= <-]. by destruct (default _ _).
  - rewrite lookup_insert_ne by done. apply Hfilled.
Qed.

Lemma cache_gps_point_filled (c : cache) (v : string) (p : GPSPoint) :
  filled c ->
  let c' := fst (cache_gps_point c v p) in
  filled c'
  /\ store c' = store c /\ write_count c' = write_count c
  /\ batch_size c' = batch_size c
  /\ write_buffer c'
     = <[v := default [] (write_buffer c !! v) ++ [p]]> (write_buffer c).
Proof.
  intros Hfilled. unfold cache_gps_point.
  set (c1 := {| store := store c; vehicle_ttl := vehicle_ttl c;
                track_ttl := track_ttl c; batch_size := batch_size c;
                write_count := write_count c;
                write_buffer := <[v := default [] (write_buffer c !! v) ++ [p]]>
                                  (write_buffer c) |}).
  assert (Hfilled1 : filled c1) by (by apply (filled_insert c v p)).
  destruct (batch_size c <=? _).
  - destruct (flush_filled c1 Hfilled1) as (-> & _). by cbv zeta.
  - cbn [fst]. by cbv zeta.
Qed.

Lemma buffered_cache_gps_point (c : cache) (v : string) (p : GPSPoint) (vid : string) :
  filled c ->
  buffered (fst (cache_gps_point c v p)) vid
  = buffered c vid ++ (if decide (v = vid) then [p] else []).
Proof.
  intros Hfilled.
  destruct (cache_gps_point_filled c v p Hfilled) as (_ & _ & _ & _ & Hwb).
  unfold buffered. rewrite Hwb. case_decide as Hv.
  - subst. by rewrite lookup_insert_eq.
  - rewrite lookup_insert_ne by done. by rewrite app_nil_r.
Qed.

Lemma cached_points_cons (vid : string) (o : op) (ops : list op) :
  cached_points vid (o :: ops) = cached_points vid [o] ++ cached_points vid ops.
Proof. unfold cached_points. cbn [flat_map]. by rewrite app_nil_r. Qed.

(** Whatever is done to the cache, Redis and the counter of written points
    stay as they were, and every cached point stays in the buffer. *)
Lemma run_filled (ops : list op) : forall c : cache,
  filled c ->
  filled (run ops c)
  /\ store (run ops c) = store c
  /\ write_count (run ops c) = write_count c
  /\ batch_size (run ops c) = batch_size c
  /\ forall vid, buffered (run ops c) vid = buffered c vid ++ cached_points vid ops.
Proof.
  induction ops as [|o ops IH]; intros c Hfilled.
  - split; [done|]. split; [done|]. split; [done|]. split; [done|].
    intros vid. by rewrite app_nil_r.
  - change (run (o :: ops) c) with (run ops (step c o)).
    destruct o as [v p|]; cbn [step].
    + destruct (cache_gps_point_filled c v p Hfilled) as (Hf & Hs & Hw & Hb & _).
      destruct (IH _ Hf) as (Hf' & Hs' & Hw' & Hb' & Hbuf).
      split; [done|]. split; [congruence|]. split; [congruence|].
      split; [congruence|].
      intros vid. rewrite Hbuf, buffered_cache_gps_point by done.
      rewrite (cached_points_cons vid (Cache v p)), app_assoc.
      do 2 f_equal. unfold cached_points. cbn [flat_map]. by rewrite app_nil_r.
    + destruct (flush_filled c Hfilled) as (-> & _).
      by apply IH.
Qed.

Lemma filled_init (r : redis) : filled (init r).
Proof. intros v pts. cbn. by rewrite lookup_empty. Qed.

Lemma run_init (r : redis) (ops : list op) :
  filled (run ops (init r))
  /\ store (run ops (init r)) = r
  /\ write_count (run ops (init r)) = 0
  /\ batch_size (run ops (init r)) = 50
  /\ forall vid, buffered (run ops (init r)) vid = cached_points vid ops.
Proof.
  destruct (run_filled ops (init r) (filled_init r)) as (Hf & Hs & Hw & Hb & Hbuf).
  split; [done|]. split; [done|]. split; [done|]. split; [done|].
  intros vid. rewrite Hbuf.
  unfold buffered. cbn. by rewrite lookup_empty.
Qed.

Lemma write_buffer_nonempty (c : cache) (vid : string) :
  buffered c vid <> [] -> write_buffer c <> ∅.
Proof.
  unfold buffered. intros Hne Hempty. rewrite Hempty, lookup_empty in Hne.
  by apply Hne.
Qed.

(** C8, on the code as it is written.  No history is ever pushed: whatever
    points are cached and whenever the flush runs, by the size trigger or
    by the background task, the history of every vehicle in Redis is what
    it was when the cache was created, no point is counted as written, and
    every cached point is still in the write buffer.  The fiftieth point of
    a vehicle makes [cache_gps_point] raise the [DataError] of [geoadd],
    and so does the flush of a buffer that holds one point. *)
Theorem flush_pushes_nothing :
  (forall (r : redis) (ops : list op) (vid : string),
     history (run ops (init r)) vid = list_at r (track_key vid)
     /\ store (run ops (init r)) = r
     /\ write_count (run ops (init r)) = 0
     /\ buffered (run ops (init r)) vid = cached_points vid ops)
  /\ cache_gps_point (run (repeat (Cache "veh-1" sample_point) 49) (init redis_empty))
       "veh-1" sample_point
     = (run (repeat (Cache "veh-1" sample_point) 50) (init redis_empty),
        raise DataError)
  /\ history (run (repeat (Cache "veh-1" sample_point) 50) (init redis_empty)) "veh-1"
     = []
  /\ _flush_write_buffer (run [Cache "veh-1" sample_point] (init redis_empty))
     = (run [Cache "veh-1" sample_point] (init redis_empty), raise DataError).
Proof.
  split; [|split; [|split]].
  - intros r ops vid.
    destruct (run_init r ops) as (_ & Hs & Hw & _ & Hbuf).
    unfold history. rewrite Hs. auto.
  - vm_compute. reflexivity.
  - vm_compute. reflexivity.
  - vm_compute. reflexivity.
Qed.

End RedisCacheFacts.

(** ** DurableStore *)

(** Proves that the rows of an explicit list are rows the server takes. *)
Ltac all_admissible :=
  repeat constructor;
  try (cbn; lia);
  try (apply bool_decide_unpack; vm_compute; exact I).

Module DurableStoreFacts.
Import Num DurableStore.

Lemma do_update_same_key (x r : row) : key x = key r -> do_update x r = r.
Proof.
  destruct x as [[] ?], r as [[] ?]. unfold key, do_update. cbn.
  intros [= -> ->]. reflexivity.
Qed.

Lemma key_do_update (x r : row) : key (do_update x r) = key x.
Proof. reflexivity. Qed.

Lemma keys_insert_on_conflict (r : row) (t : table) :
  key <$> insert_on_conflict r t
  = if decide (key r ∈ key <$> t) then key <$> t else (key <$> t) ++ [key r].
Proof.
  induction t as [|x t IH].
  - cbn. rewrite decide_False; [reflexivity|apply not_elem_of_nil].
  - cbn [insert_on_conflict]. unfold has_key. case_bool_decide as Hk.
    + cbn [fmap list_fmap]. rewrite key_do_update.
      rewrite decide_True; [reflexivity|]. rewrite Hk. apply list_elem_of_here.
    + cbn [fmap list_fmap]. rewrite IH.
      destruct (decide (key r ∈ key <$> t)) as [Hin|Hnin].
      * rewrite decide_True; [reflexivity|by apply list_elem_of_further].
      * rewrite decide_False; [reflexivity|].
        intros [E|Hin]%elem_of_cons; [by symmetry in E|done].
Qed.

(** The statement keeps the primary key constraint. *)
Lemma pk_unique_insert_on_conflict (r : row) (t : table) :
  pk_unique t -> pk_unique (insert_on_conflict r t).
Proof.
  unfold pk_unique. intros Hnd. rewrite keys_insert_on_conflict.
  case_decide as Hin; [assumption|].
  apply NoDup_app. split; [assumption|]. split.
  - intros k Hk [->|[]%elem_of_nil]%elem_of_cons. done.
  - apply NoDup_singleton.
Qed.

Lemma filter_key_absent (k : string * Z) (t : table) :
  k ∉ key <$> t -> filter (fun x => key x = k) t = [].
Proof.
  induction t as [|x t IH]; [done|].
  cbn [fmap list_fmap]. intros Hnin. apply not_elem_of_cons in Hnin as [Hne Hnin].
  rewrite filter_cons_False by (intros E; by symmetry in E). by apply IH.
Qed.

Lemma filter_insert_on_conflict_eq (r : row) (t : table) :
  pk_unique t -> filter (fun x => key x = key r) (insert_on_conflict r t) = [r].
Proof.
  unfold pk_unique. induction t as [|x t IH]; intros Hnd.
  - cbn [insert_on_conflict]. by rewrite filter_cons_True.
  - cbn [fmap list_fmap] in Hnd. apply NoDup_cons in Hnd as [Hx Hnd].
    cbn [insert_on_conflict]. unfold has_key. case_bool_decide as Hk.
    + rewrite do_update_same_key by assumption.
      rewrite filter_cons_True by reflexivity.
      rewrite filter_key_absent; [reflexivity|]. by rewrite <- Hk.
    + rewrite filter_cons_False by assumption. by apply IH.
Qed.

Lemma filter_insert_on_conflict_ne (r : row) (t : table) (k : string * Z) :
  key r <> k ->
  filter (fun x => key x = k) (insert_on_conflict r t) = filter (fun x => key x = k) t.
Proof.
  intros Hne. induction t as [|x t IH].
  - cbn [insert_on_conflict]. by rewrite filter_cons_False.
  - cbn [insert_on_conflict]. unfold has_key. case_bool_decide as Hk.
    + rewrite !filter_cons_False; [reflexivity|congruence|].
      rewrite key_do_update. congruence.
    + rewrite !filter_cons, IH. reflexivity.
Qed.

Lemma upsert_app (t : table) (b1 b2 : list row) :
  upsert t (b1 ++ b2) = upsert (upsert t b1) b2.
Proof. apply fold_left_app. Qed.

Lemma pk_unique_upsert (t : table) (b : list row) :
  pk_unique t -> pk_unique (upsert t b).
Proof.
  revert t. induction b as [|r b IH]; intros t Ht; [exact Ht|].
  cbn. apply IH. by apply pk_unique_insert_on_conflict.
Qed.

Lemma filter_upsert_ne (t : table) (b : list row) (k : string * Z) :
  Forall (fun x => key x <> k) b ->
  filter (fun x => key x = k) (upsert t b)
  = filter (fun x => key x = k) t.
Proof.
  revert t. induction b as [|r b IH]; intros t Hb; [reflexivity|].
  apply Forall_cons in Hb as [Hr Hb].
  change (upsert t (r :: b))
    with (upsert (insert_on_conflict r t) b).
  rewrite (IH _ Hb). by apply filter_insert_on_conflict_ne.
Qed.

(** Within one batch, the last row written for a key is the stored one. *)
Lemma filter_upsert_last (t : table) (pre post : list row) (r : row) :
  pk_unique t ->
  Forall (fun x => key x <> key r) post ->
  filter (fun x => key x = key r) (upsert t (pre ++ r :: post)) = [r].
Proof.
  intros Ht Hpost. rewrite upsert_app.
  change (upsert ?t (r :: post))
    with (upsert (insert_on_conflict r t) post).
  rewrite filter_upsert_ne by assumption.
  apply filter_insert_on_conflict_eq. by apply pk_unique_upsert.
Qed.

(** *** What the server takes *)

Lemma stored_admissible (sv : server) (r : row) :
  admissible sv r -> stored sv r = ret r.
Proof.
  intros (Hnul & Hlen & Hpart). unfold stored, PgText.VARCHAR, PgText.TEXT.
  rewrite Hnul. cbn [bind ret].
  apply Nat.leb_le in Hlen. rewrite Hlen. cbn [bind ret].
  rewrite decide_True by done. by destruct r as [[] ?].
Qed.

(** The server raises one error only. *)
Lemma stored_raises (sv : server) (r : row) (e : exn) :
  stored sv r = raise e -> e = DBAPIError.
Proof.
  unfold stored, PgText.VARCHAR, PgText.TEXT, raise, ret, bind.
  destruct (PgText.has_nul _); [by intros [= <-]|].
  destruct (_ <=? _)%nat.
  - case_decide; [discriminate|by intros [= <-]].
  - destruct (PgText.all_spaces _); [|by intros [= <-]].
    case_decide; [discriminate|by intros [= <-]].
Qed.

Lemma stored_unpartitioned (sv : server) (r : row) :
  date_of sv (ts r) ∉ partitions sv -> stored sv r = raise DBAPIError.
Proof.
  intros Hpart. destruct (stored sv r) as [e|r'] eqn:E.
  - by rewrite (stored_raises sv r e E).
  - exfalso. revert E. unfold stored, bind.
    destruct (PgText.VARCHAR _ _); [discriminate|].
    by rewrite decide_False.
Qed.

Lemma fold_insert_row_raise (sv : server) (rows : list row) (e : exn) :
  fold_left (insert_row sv) rows (raise e) = raise e.
Proof. induction rows as [|r rows IH]; [reflexivity|exact IH]. Qed.

Lemma fold_insert_row_admissible (sv : server) (rows : list row) (t : table) :
  Forall (admissible sv) rows ->
  fold_left (insert_row sv) rows (ret t) = ret (upsert t rows).
Proof.
  revert t. induction rows as [|r rows IH]; intros t Hall; [reflexivity|].
  apply Forall_cons in Hall as [Hr Hall].
  cbn [fold_left]. unfold insert_row at 2. cbn [bind ret].
  rewrite (stored_admissible sv r Hr). cbn [bind ret]. by apply IH.
Qed.

Lemma fold_insert_row_unpartitioned (sv : server) (rows : list row) :
  Exists (fun r => date_of sv (ts r) ∉ partitions sv) rows ->
  forall t, fold_left (insert_row sv) rows (ret t) = raise DBAPIError.
Proof.
  induction 1 as [r rows Hr|r rows Hex IH]; intros t; cbn [fold_left].
  - unfold insert_row at 2. cbn [bind ret].
    rewrite (stored_unpartitioned sv r Hr). apply fold_insert_row_raise.
  - unfold insert_row at 2. cbn [bind ret].
    destruct (stored sv r) as [e|r'] eqn:E; cbn [bind ret].
    + rewrite (stored_raises sv r e E). apply fold_insert_row_raise.
    + apply IH.
Qed.

(** A batch of rows the server takes is written: the table is the one the
    statement run on each row in turn leaves, and the partitions are as
    they were. *)
Lemma execute_batch_insert_admissible (sv : server) (batch_data : list row) :
  Forall (admissible sv) batch_data ->
  _execute_batch_insert sv batch_data
  = ({| time_zone := time_zone sv; partitions := partitions sv;
        gps_locations_partitioned := upsert (gps_locations_partitioned sv) batch_data |},
     ret tt).
Proof.
  intros Hall. unfold _execute_batch_insert, execute_many.
  rewrite fold_insert_row_admissible by done.
  destruct batch_data; [by destruct sv|reflexivity].
Qed.

(** A batch with a row that has no partition is refused as a whole. *)
Lemma execute_batch_insert_unpartitioned (sv : server) (batch_data : list row) :
  Exists (fun r => date_of sv (ts r) ∉ partitions sv) batch_data ->
  _execute_batch_insert sv batch_data = (sv, raise DBAPIError).
Proof.
  intros Hex. unfold _execute_batch_insert, execute_many.
  rewrite fold_insert_row_unpartitioned by done.
  destruct batch_data; [by apply Exists_nil in Hex|reflexivity].
Qed.

(** C3.  Two bulk writes carry the same primary key [(vehicle_id,
    timestamp)], in rows [r1] and [r2] with any other column values; [r2]
    is the last row of the second write with this key.  The rows of both
    writes are rows the server takes: ids of at most 50 characters,
    timestamps on days that have their partition.  Both writes are then
    committed, and after them the table still has unique keys and holds
    exactly one row with this key: [r2], the row of the later write. *)
Theorem upsert_last_write_wins (sv : server) (b1 b2 pre post : list row) (r1 r2 : row) :
  pk_unique (gps_locations_partitioned sv) ->
  Forall (admissible sv) b1 ->
  Forall (admissible sv) b2 ->
  r1 ∈ b1 ->
  key r1 = key r2 ->
  b2 = pre ++ r2 :: post ->
  Forall (fun x => key x <> key r2) post ->
  exists sv1 sv2,
    _execute_batch_insert sv b1 = (sv1, ret tt)
    /\ _execute_batch_insert sv1 b2 = (sv2, ret tt)
    /\ pk_unique (gps_locations_partitioned sv2)
    /\ filter (fun x => key x = key r2) (gps_locations_partitioned sv2) = [r2].
Proof.
  intros Ht Hb1 Hb2 _ _ -> Hpost.
  eexists _, _. split; [by apply execute_batch_insert_admissible|].
  split; [by apply execute_batch_insert_admissible|].
  cbn [gps_locations_partitioned]. split.
  - by do 2 apply pk_unique_upsert.
  - apply filter_upsert_last; [|assumption]. by apply pk_unique_upsert.
Qed.

Lemma upsert_last_write_wins_witness :
  exists sv1 sv2,
    _execute_batch_insert Samples.empty_server [Samples.write1] = (sv1, ret tt)
    /\ _execute_batch_insert sv1 [Samples.write2] = (sv2, ret tt)
    /\ pk_unique (gps_locations_partitioned sv2)
    /\ filter (fun x => key x = key Samples.write2) (gps_locations_partitioned sv2)
       = [Samples.write2].
Proof.
  apply (upsert_last_write_wins Samples.empty_server [Samples.write1] [Samples.write2]
           [] [] Samples.write1 Samples.write2).
  - apply NoDup_nil_2.
  - all_admissible.
  - all_admissible.
  - apply list_elem_of_here.
  - reflexivity.
  - reflexivity.
  - apply Forall_nil_2.
Defined.

(** *** Order of the track query *)

#[local] Instance ts_desc_total : Total ts_desc.
Proof. intros r1 r2. unfold ts_desc. lia. Qed.

Lemma Sorted_take {A} (R : relation A) (n : nat) (l : list A) :
  Sorted R l -> Sorted R (take n l).
Proof.
  intros Hs. revert n. induction Hs as [|x l Hs IH Hhd]; intros [|n]; cbn [take];
    try constructor.
  - apply IH.
  - destruct Hhd as [|y l' Hxy]; destruct n; cbn [take]; constructor; assumption.
Qed.

(** [get_vehicle_track] lists the latest points first. *)
Lemma get_vehicle_track_descending (t : table) (now : Z) (vehicle_id : string)
    (start_time end_time : option Z) (limit : nat) :
  Sorted (fun a b => GPSBatchData.timestamp b <= GPSBatchData.timestamp a)
    (get_vehicle_track t now vehicle_id start_time end_time limit).
Proof.
  unfold get_vehicle_track.
  apply (Sorted_fmap data ts_desc); [auto|].
  apply Sorted_take, Sorted_merge_sort. apply _.
Qed.

(** *** Aggregates *)

Lemma Qmin_cases (x y : Q) : Qmin x y = x \/ Qmin x y = y.
Proof. unfold Qmin, GenericMinMax.gmin. destruct (x ?= y)%Q; auto. Qed.

Lemma Qmax_cases (x y : Q) : Qmax x y = x \/ Qmax x y = y.
Proof. unfold Qmax, GenericMinMax.gmax. destruct (x ?= y)%Q; auto. Qed.

Lemma agg_min_spec (x : Q) (xs : list Q) :
  (forall y, y ∈ x :: xs -> (agg_min x xs <= y)%Q) /\ agg_min x xs ∈ x :: xs.
Proof.
  unfold agg_min. revert x. induction xs as [|z xs IH]; intros x.
  - cbn. split; [|apply list_elem_of_here].
    intros y [->|[]%elem_of_nil]%elem_of_cons. apply Qle_refl.
  - cbn [foldl]. destruct (IH (Qmin x z)) as [Hle Hin]. split.
    + intros y Hy. apply elem_of_cons in Hy as [->|Hy].
      * eapply Qle_trans; [apply Hle, list_elem_of_here|apply Q.le_min_l].
      * apply elem_of_cons in Hy as [->|Hy].
        -- eapply Qle_trans; [apply Hle, list_elem_of_here|apply Q.le_min_r].
        -- by apply Hle, list_elem_of_further.
    + apply elem_of_cons in Hin as [-> | Hin].
      * destruct (Qmin_cases x z) as [-> | ->].
        -- apply list_elem_of_here.
        -- apply list_elem_of_further, list_elem_of_here.
      * by do 2 apply list_elem_of_further.
Qed.

Lemma agg_max_spec (x : Q) (xs : list Q) :
  (forall y, y ∈ x :: xs -> (y <= agg_max x xs)%Q) /\ agg_max x xs ∈ x :: xs.
Proof.
  unfold agg_max. revert x. induction xs as [|z xs IH]; intros x.
  - cbn. split; [|apply list_elem_of_here].
    intros y [->|[]%elem_of_nil]%elem_of_cons. apply Qle_refl.
  - cbn [foldl]. destruct (IH (Qmax x z)) as [Hle Hin]. split.
    + intros y Hy. apply elem_of_cons in Hy as [->|Hy].
      * eapply Qle_trans; [apply Q.le_max_l|apply Hle, list_elem_of_here].
      * apply elem_of_cons in Hy as [->|Hy].
        -- eapply Qle_trans; [apply Q.le_max_r|apply Hle, list_elem_of_here].
        -- by apply Hle, list_elem_of_further.
    + apply elem_of_cons in Hin as [-> | Hin].
      * destruct (Qmax_cases x z) as [-> | ->].
        -- apply list_elem_of_here.
        -- apply list_elem_of_further, list_elem_of_here.
      * by do 2 apply list_elem_of_further.
Qed.

(** C7, on the code as it is written.  [get_vehicle_statistics] raises
    on every call, whatever the table holds and whatever is asked: the
    select list casts the result of [ST_Distance], a double precision, to
    geography, and the server refuses the statement before it reads a
    row.  No displacement is reported. *)
Theorem get_vehicle_statistics_raises (t : table) (now : Z)
    (vehicle_ids : list string) (time_window_hours : Z) :
  get_vehicle_statistics t now vehicle_ids time_window_hours = raise DBAPIError.
Proof. reflexivity. Qed.

End DurableStoreFacts.

(** ** GPSService *)

Module GPSServiceFacts.
Import Num GPSService.

Lemma loop_body_stop_count (p c : GPSLocation.t) (st : loop_state) :
  l_stop_count (loop_body p c st)
  = if counted_stop (p, c) then l_stop_count st + 1 else l_stop_count st.
Proof.
  unfold loop_body, counted_stop, recorded_speed. cbn [fst snd].
  destruct (GPSLocation.speed c) as [speed|]; [|reflexivity].
  destruct (truthy (Some speed)); [|reflexivity].
  cbn [l_stop_count]. by destruct (Qlt_bool speed 5 && _).
Qed.

Lemma loop_body_stop_duration (p c : GPSLocation.t) (st : loop_state) :
  l_stop_duration (loop_body p c st)
  = if counted_stop (p, c) then l_stop_duration st + whole_minutes (p, c)
    else l_stop_duration st.
Proof.
  unfold loop_body, counted_stop, recorded_speed, whole_minutes. cbn [fst snd].
  destruct (GPSLocation.speed c) as [speed|]; [|reflexivity].
  destruct (truthy (Some speed)); [|reflexivity].
  cbn [l_stop_duration]. by destruct (Qlt_bool speed 5 && _).
Qed.

Lemma loop_body_speeds (p c : GPSLocation.t) (st : loop_state) :
  l_speeds (loop_body p c st)
  = l_speeds st ++ match recorded_speed c with Some speed => [speed] | None => [] end.
Proof.
  unfold loop_body, recorded_speed.
  destruct (GPSLocation.speed c) as [speed|]; [|by rewrite app_nil_r].
  destruct (truthy (Some speed)); [reflexivity|by rewrite app_nil_r].
Qed.

Lemma loop_body_total_distance (p c : GPSLocation.t) (st : loop_state) :
  l_total_distance (loop_body p c st)
  = (l_total_distance st
     + _calculate_distance
         (Q2R (GPSLocation.latitude p)) (Q2R (GPSLocation.longitude p))
         (Q2R (GPSLocation.latitude c)) (Q2R (GPSLocation.longitude c)))%R.
Proof.
  unfold loop_body.
  destruct (GPSLocation.speed c) as [speed|]; [|reflexivity].
  by destruct (truthy (Some speed)).
Qed.

(** The loop counts one stop for every counted gap. *)
Lemma route_loop_stop_count (prev : GPSLocation.t) (rest : list GPSLocation.t)
    (st : loop_state) :
  l_stop_count (route_loop prev rest st)
  = l_stop_count st + Z.of_nat (length (List.filter counted_stop (gaps prev rest))).
Proof.
  revert prev st. induction rest as [|c rest IH]; intros prev st.
  - cbn. lia.
  - cbn [route_loop gaps List.filter]. rewrite IH, loop_body_stop_count.
    destruct (counted_stop (prev, c)); cbn [length]; lia.
Qed.

Lemma route_loop_stop_duration (prev : GPSLocation.t) (rest : list GPSLocation.t)
    (st : loop_state) :
  l_stop_duration (route_loop prev rest st)
  = l_stop_duration st
    + sum_Z (whole_minutes <$> List.filter counted_stop (gaps prev rest)).
Proof.
  revert prev st. induction rest as [|c rest IH]; intros prev st.
  - cbn. lia.
  - cbn [route_loop gaps List.filter]. rewrite IH, loop_body_stop_duration.
    destruct (counted_stop (prev, c)); cbn [fmap list_fmap sum_Z foldr]; [|reflexivity].
    fold (sum_Z (whole_minutes <$> List.filter counted_stop (gaps c rest))). lia.
Qed.

Lemma route_loop_speeds (prev : GPSLocation.t) (rest : list GPSLocation.t)
    (st : loop_state) :
  l_speeds (route_loop prev rest st) = l_speeds st ++ omap recorded_speed rest.
Proof.
  revert prev st. induction rest as [|c rest IH]; intros prev st.
  - cbn. by rewrite app_nil_r.
  - cbn [route_loop omap list_omap]. rewrite IH, loop_body_speeds, <- app_assoc.
    by destruct (recorded_speed c).
Qed.

Lemma analyze_points_stop_count (first : GPSLocation.t) (rest : list GPSLocation.t) :
  rest <> [] ->
  RouteAnalysis.stop_count (analyze_points (first :: rest))
  = Z.of_nat (length (List.filter counted_stop (gaps first rest))).
Proof.
  destruct rest as [|c rest]; [done|]. intros _.
  unfold analyze_points. cbn [RouteAnalysis.stop_count].
  by rewrite route_loop_stop_count.
Qed.

Lemma analyze_points_stop_duration (first : GPSLocation.t) (rest : list GPSLocation.t) :
  rest <> [] ->
  RouteAnalysis.stop_duration (analyze_points (first :: rest))
  = sum_Z (whole_minutes <$> List.filter counted_stop (gaps first rest)).
Proof.
  destruct rest as [|c rest]; [done|]. intros _.
  unfold analyze_points. cbn [RouteAnalysis.stop_duration].
  by rewrite route_loop_stop_duration.
Qed.

(** The reported average is the mean of the recorded speeds. *)
Lemma analyze_points_average_speed (first : GPSLocation.t) (rest : list GPSLocation.t) :
  rest <> [] ->
  RouteAnalysis.average_speed (analyze_points (first :: rest))
  = round2 (mean (omap recorded_speed rest)).
Proof.
  destruct rest as [|c rest]; [done|]. intros _.
  unfold analyze_points. cbn [RouteAnalysis.average_speed].
  rewrite route_loop_speeds. cbn [loop_init l_speeds app]. unfold mean.
  by destruct (omap recorded_speed (c :: rest)).
Qed.

Lemma analyze_points_total_duration (first : GPSLocation.t) (rest : list GPSLocation.t) :
  rest <> [] ->
  RouteAnalysis.total_duration (analyze_points (first :: rest))
  = int_of_Q (total_seconds (GPSLocation.gps_time (List.last rest first))
                            (GPSLocation.gps_time first) / 60).
Proof. destruct rest as [|c rest]; [done|]. reflexivity. Qed.

(** *** The average speed *)

Lemma _calculate_distance_same_place (lat1 lon1 : R) :
  _calculate_distance lat1 lon1 lat1 lon1 = 0%R.
Proof.
  unfold _calculate_distance.
  replace (radians lat1 - radians lat1)%R with 0%R by lra.
  replace (radians lon1 - radians lon1)%R with 0%R by lra.
  replace (0 / 2)%R with 0%R by lra. rewrite sin_0.
  replace (0 ^ 2 + cos (radians lat1) * cos (radians lat1) * 0 ^ 2)%R with 0%R by lra.
  rewrite sqrt_0, asin_0. lra.
Qed.

Lemma Rround2_0 : Rround2 0 = 0%R.
Proof.
  unfold Rround2, Rround_half_even.
  replace (0 * 100)%R with 0%R by lra.
  assert (E : Int_part 0 = 0).
  { symmetry. apply Int_part_spec. lra. }
  rewrite E. destruct (Rlt_dec (0 - 0) (1 / 2)); lra.
Qed.

Lemma total_distance_of_two (p c : GPSLocation.t) :
  RouteAnalysis.total_distance (analyze_points [p; c])
  = Rround2 (0 + _calculate_distance
                   (Q2R (GPSLocation.latitude p)) (Q2R (GPSLocation.longitude p))
                   (Q2R (GPSLocation.latitude c)) (Q2R (GPSLocation.longitude c))).
Proof.
  unfold analyze_points. cbn [RouteAnalysis.total_distance route_loop].
  by rewrite loop_body_total_distance.
Qed.

(** *** Order of the queries *)

#[local] Instance gps_time_asc_total : Total gps_time_asc.
Proof. intros p1 p2. unfold gps_time_asc. lia. Qed.

(** C6, as the code has it.  [get_tracking_history] lists its points by
    ascending [gps_time]; [get_vehicle_track] lists its points by descending
    [timestamp], the latest first. *)
Theorem track_queries_are_ordered (db : database) (filters : option TrackingFilter.t)
    (limit : nat) (t : DurableStore.table) (now : Z) (vehicle_id : string)
    (start_time end_time : option Z) (limit' : nat) :
  Sorted gps_time_asc (get_tracking_history db filters limit)
  /\ Sorted (fun a b => GPSBatchData.timestamp b <= GPSBatchData.timestamp a)
       (DurableStore.get_vehicle_track t now vehicle_id start_time end_time limit').
Proof.
  split.
  - unfold get_tracking_history.
    apply DurableStoreFacts.Sorted_take, Sorted_merge_sort. apply _.
  - apply DurableStoreFacts.get_vehicle_track_descending.
Qed.

(** C6, as stated, fails: [get_vehicle_track] returns the three points of
    the round trip with the timestamps 3, 2, 1. *)
Lemma get_vehicle_track_latest_first :
  GPSBatchData.timestamp
    <$> DurableStore.get_vehicle_track Samples.round_trip 10 "veh-1" (Some 0) (Some 10) 1000
  = [3; 2; 1]
  /\ ~ Sorted (fun a b => GPSBatchData.timestamp a <= GPSBatchData.timestamp b)
        (DurableStore.get_vehicle_track Samples.round_trip 10 "veh-1"
           (Some 0) (Some 10) 1000).
Proof.
  assert (E : DurableStore.get_vehicle_track Samples.round_trip 10 "veh-1"
                (Some 0) (Some 10) 1000
              = [DurableStore.data (Samples.at_origin 3);
                 DurableStore.data (Samples.far_out 2);
                 DurableStore.data (Samples.at_origin 1)])
    by (vm_compute; reflexivity).
  rewrite E. split; [reflexivity|].
  intros Hs. apply Sorted_inv in Hs as [_ Hhd]. apply HdRel_inv in Hhd.
  cbn in Hhd. lia.
Qed.

End GPSServiceFacts.

(** ** FastCache: shards, pools, reads and statistics *)

Module RedisReadsFacts.
Import PointCodec Binary32 RedisCache RedisReads RedisCacheFacts.

(** X1.  With at least one client, the shard index of every key is a valid
    position of the client list, whatever the hash of the key, negative
    ones included: [get_client] returns a client and never raises. *)
Theorem get_client_in_range {Redis} (hash : string -> Z) (redis_clients : list Redis)
    (key : string) :
  redis_clients <> [] ->
  exists index client,
    RedisClusterManager._get_shard_index hash (Z.of_nat (length redis_clients)) key
    = Some index
    /\ 0 <= index < Z.of_nat (length redis_clients)
    /\ redis_clients !! Z.to_nat index = Some client
    /\ RedisClusterManager.get_client hash redis_clients key = Some (ret client).
Proof.
  intros Hne.
  assert (Hlen : 0 < Z.of_nat (length redis_clients)).
  { destruct redis_clients; [done|]. cbn [length]. lia. }
  unfold RedisClusterManager.get_client, RedisClusterManager._get_shard_index.
  replace (Z.of_nat (length redis_clients) =? 0) with false
    by (symmetry; apply Z.eqb_neq; lia).
  pose proof (Z.mod_pos_bound (hash key) _ Hlen) as Hb.
  destruct (redis_clients !! Z.to_nat (hash key mod Z.of_nat (length redis_clients)))
    as [client|] eqn:E.
  - exists (hash key mod Z.of_nat (length redis_clients)), client.
    cbn. rewrite E. auto.
  - apply lookup_ge_None in E. lia.
Qed.

Lemma get_client_in_range_witness :
  exists index client,
    RedisClusterManager._get_shard_index (fun _ => -7) (Z.of_nat (length [10; 20; 30]%nat))
      "v:veh-1" = Some index
    /\ 0 <= index < Z.of_nat (length [10; 20; 30]%nat)
    /\ [10; 20; 30]%nat !! Z.to_nat index = Some client
    /\ RedisClusterManager.get_client (fun _ => -7) [10; 20; 30]%nat "v:veh-1"
       = Some (ret client).
Proof.
  apply (get_client_in_range (fun _ => -7) [10; 20; 30]%nat "v:veh-1"). discriminate.
Defined.

(** X2.  The connection pools are handed out in turn: from a valid
    [current_pool], the k-th of [n] calls gets the pool at position
    [(current_pool + k) mod len], no call raises, and [current_pool] ends
    at [(current_pool + n) mod len]. *)
Theorem get_redis_client_round_robin {Pool} (pools : list Pool) (current_pool n : nat) :
  (current_pool < length pools)%nat ->
  exists served,
    RedisConnectionPool.get_redis_clients pools current_pool n
    = ret (served, ((current_pool + n) mod length pools)%nat)
    /\ length served = n
    /\ forall k, (k < n)%nat ->
         served !! k = pools !! ((current_pool + k) mod length pools)%nat.
Proof.
  revert current_pool. induction n as [|n IH]; intros cur Hcur.
  - exists []. cbn [RedisConnectionPool.get_redis_clients].
    rewrite Nat.add_0_r, Nat.mod_small by assumption.
    split; [reflexivity|]. split; [reflexivity|]. intros k Hk. lia.
  - assert (Hnext : ((cur + 1) mod length pools < length pools)%nat)
      by (apply Nat.mod_upper_bound; lia).
    destruct (IH _ Hnext) as (served & Hrun & Hlen & Hserved).
    destruct (lookup_lt_is_Some_2 pools cur Hcur) as [pool Hpool].
    exists (pool :: served).
    cbn [RedisConnectionPool.get_redis_clients].
    unfold RedisConnectionPool.get_redis_client at 1. rewrite Hpool.
    cbn [bind ret fst snd]. rewrite Hrun. cbn [bind ret fst snd].
    assert (Hmod : forall k, (((cur + 1) mod length pools + k) mod length pools
                              = (cur + S k) mod length pools)%nat).
    { intros k. rewrite Nat.Div0.add_mod_idemp_l. f_equal. lia. }
    rewrite Hmod. split; [reflexivity|]. split.
    + cbn [length]. by rewrite Hlen.
    + intros [|k] Hk.
      * cbn [lookup list_lookup]. by rewrite Nat.add_0_r, Nat.mod_small.
      * cbn [lookup list_lookup]. rewrite Hserved by lia. by rewrite Hmod.
Qed.

Lemma get_redis_client_round_robin_witness :
  exists served,
    RedisConnectionPool.get_redis_clients [10; 20; 30]%nat 0 5
    = ret (served, ((0 + 5) mod length [10; 20; 30]%nat)%nat)
    /\ length served = 5%nat
    /\ forall k, (k < 5)%nat ->
         served !! k = [10; 20; 30]%nat !! ((0 + k) mod length [10; 20; 30]%nat)%nat.
Proof.
  apply (get_redis_client_round_robin [10; 20; 30]%nat 0 5). simpl. lia.
Defined.

(** *** The size trigger *)

(** X3.  Up to the forty-ninth point of a vehicle [cache_gps_point] appends
    the point and returns; from the fiftieth on every call for this vehicle
    appends the point and raises, since the flush it starts raises and
    leaves the buffer as it is: the list of the vehicle grows by one point
    at each call, and Redis stays as it was. *)
Theorem cache_gps_point_raises_from_batch_size (r : redis) (ops : list op)
    (vid : string) (p : GPSPoint) :
  let c := run ops (init r) in
  let c' := fst (cache_gps_point c vid p) in
  buffered c' vid = cached_points vid ops ++ [p]
  /\ store c' = r
  /\ ((length (cached_points vid ops) < 49)%nat ->
      snd (cache_gps_point c vid p) = ret tt)
  /\ ((49 <= length (cached_points vid ops))%nat ->
      exists e, snd (cache_gps_point c vid p) = raise e).
Proof.
  intros c c'.
  destruct (run_init r ops) as (Hf & Hs & Hw & Hb & Hbuf). fold c in Hf, Hs, Hw, Hb, Hbuf.
  destruct (cache_gps_point_filled c vid p Hf) as (Hf' & Hs' & _ & _ & Hwb).
  fold c' in Hf', Hs', Hwb.
  assert (Hbuf' : buffered c' vid = cached_points vid ops ++ [p]).
  { unfold c'. rewrite buffered_cache_gps_point by done.
    rewrite Hbuf. by rewrite decide_True. }
  split; [done|]. split; [congruence|].
  assert (Hlen : length (default [] (write_buffer c !! vid) ++ [p])
                 = S (length (cached_points vid ops))).
  { fold (buffered c vid). rewrite Hbuf, length_app. cbn. lia. }
  unfold cache_gps_point. rewrite Hb, Hlen. split.
  - intros Hlt. by destruct (Z.leb_spec 50 (Z.of_nat (S (length (cached_points vid ops))))); [lia|].
  - intros Hge.
    destruct (Z.leb_spec 50 (Z.of_nat (S (length (cached_points vid ops))))); [|lia].
    set (c1 := {| store := store c; vehicle_ttl := vehicle_ttl c;
                  track_ttl := track_ttl c; batch_size := 50;
                  write_count := write_count c;
                  write_buffer := <[vid := default [] (write_buffer c !! vid) ++ [p]]>
                                    (write_buffer c) |}).
    assert (Hf1 : filled c1) by (by apply (filled_insert c vid p)).
    destruct (flush_filled c1 Hf1) as (_ & _ & Hraise).
    apply Hraise. cbn [c1 write_buffer]. apply insert_non_empty.
Qed.

(** *** The cached trajectory *)

Lemma decode_all_compressed (pts : list GPSPoint) :
  foldr (fun data acc =>
           let! p := _decompress_gps_point data in
           let! ps := acc in
           ret (p :: ps))
        (ret []) (_compress_gps_point <$> pts)
  = ret (round_point <$> pts).
Proof.
  induction pts as [|p pts IH]; [reflexivity|].
  cbn [fmap list_fmap foldr]. fold (list_fmap _ _ _compress_gps_point pts).
  fold (list_fmap _ _ round_point pts).
  change (list_fmap GPSPoint (list Byte.byte) _compress_gps_point pts)
    with (_compress_gps_point <$> pts).
  rewrite IH, PointCodecFacts.decompress_compress. reflexivity.
Qed.

Lemma ltrim_range_prefix (l : list (list Byte.byte)) (limit : Z) :
  1 <= limit -> ltrim_range l 0 (limit - 1) = take (Z.to_nat limit) l.
Proof.
  intros Hlimit. unfold ltrim_range. cbn [Z.ltb Z.compare orb].
  replace (limit - 1 <? 0) with false by (symmetry; apply Z.ltb_ge; lia).
  replace (limit - 1 <? 0) with false by (symmetry; apply Z.ltb_ge; lia).
  change (Z.to_nat 0) with 0%nat. rewrite drop_0.
  destruct (Z.leb_spec (Z.of_nat (length l)) 0) as [H0|Hpos]; cbn [orb].
  - destruct l; [by rewrite take_nil|simpl in H0; lia].
  - destruct (Z.le_gt_cases limit (Z.of_nat (length l))) as [Hbig|Hsmall].
    + rewrite Z.min_l by lia. f_equal. lia.
    + rewrite Z.min_r by lia.
      replace (Z.to_nat (Z.of_nat (length l) - 1 - 0 + 1)) with (length l) by lia.
      rewrite !take_ge by lia. reflexivity.
Qed.

Lemma ltrim_range_all (l : list (list Byte.byte)) : ltrim_range l 0 (-1) = l.
Proof.
  unfold ltrim_range. cbn [Z.ltb Z.compare orb].
  change (Z.to_nat 0) with 0%nat. rewrite drop_0.
  destruct l as [|x l]; [reflexivity|].
  replace (Z.of_nat (length (x :: l)) + -1 <? 0) with false
    by (symmetry; apply Z.ltb_ge; cbn [length]; lia).
  replace (Z.of_nat (length (x :: l)) <=? 0) with false
    by (symmetry; apply Z.leb_gt; cbn [length]; lia).
  cbn [orb]. rewrite Z.min_l by lia.
  rewrite take_ge; [reflexivity|]. lia.
Qed.

(** X4.  When the list of a vehicle in Redis holds the blocks of the points
    [pts], the head first, [get_vehicle_track] raises nothing and returns
    the first [limit] of these points, each rounded to single precision;
    with [limit = 0] the range is [0 .. -1] and all of them are
    returned. *)
Theorem get_vehicle_track_decodes_history (c : cache) (vid : string)
    (pts : list GPSPoint) (limit : Z) :
  history c vid = _compress_gps_point <$> pts ->
  (1 <= limit ->
   RedisCache.get_vehicle_track c vid limit
   = ret (round_point <$> take (Z.to_nat limit) pts))
  /\ RedisCache.get_vehicle_track c vid 0 = ret (round_point <$> pts).
Proof.
  unfold history. intros Hh.
  unfold RedisCache.get_vehicle_track, lrange. rewrite Hh. split.
  - intros Hlimit. rewrite ltrim_range_prefix by assumption.
    rewrite <- fmap_take. apply decode_all_compressed.
  - change (0 - 1) with (-1). rewrite ltrim_range_all.
    apply decode_all_compressed.
Qed.

Lemma get_vehicle_track_decodes_history_witness :
  (1 <= 1 ->
   RedisCache.get_vehicle_track (init Samples.stored_track) "veh-1" 1
   = ret (round_point <$> take (Z.to_nat 1) [Samples.tenth_point; Samples.sample_point]))
  /\ RedisCache.get_vehicle_track (init Samples.stored_track) "veh-1" 0
     = ret (round_point <$> [Samples.tenth_point; Samples.sample_point]).
Proof.
  apply (get_vehicle_track_decodes_history (init Samples.stored_track) "veh-1"
           [Samples.tenth_point; Samples.sample_point]).
  vm_compute. reflexivity.
Defined.

(** X5.  [cleanup] begins with a flush and ends as the flush does: when a
    point has been cached it raises, before the task is cancelled and the
    connections are closed, and the buffered points stay where they are;
    when none has been cached it returns.  The cache is left as it was in
    both cases. *)
Theorem cleanup_keeps_buffer (r : redis) (ops : list op) :
  let c := run ops (init r) in
  fst (cleanup c) = c
  /\ ((forall vid, cached_points vid ops = []) -> snd (cleanup c) = ret tt)
  /\ (forall vid, cached_points vid ops <> [] -> exists e, snd (cleanup c) = raise e).
Proof.
  intros c. destruct (run_init r ops) as (Hf & _ & _ & _ & Hbuf).
  fold c in Hf, Hbuf. unfold cleanup.
  destruct (flush_filled c Hf) as (Hfst & Hret & Hraise).
  split; [done|]. split.
  - intros Hnone. apply Hret. apply map_eq. intros v. rewrite lookup_empty.
    destruct (write_buffer c !! v) as [pts|] eqn:Hv; [|done].
    pose proof (Hf v pts Hv) as Hne. pose proof (Hbuf v) as Hb.
    unfold buffered in Hb. rewrite Hv, Hnone in Hb. cbn in Hb. by subst.
  - intros vid Hsome. apply Hraise, (write_buffer_nonempty c vid).
    by rewrite Hbuf.
Qed.

(** *** Counters *)

Lemma total_points_empty : total_points ∅ = 0.
Proof. unfold total_points. by rewrite map_to_list_empty. Qed.

Lemma total_points_insert_fresh (wb : gmap string (list GPSPoint)) (v : string)
    (pts : list GPSPoint) :
  wb !! v = None ->
  total_points (<[v := pts]> wb) = Z.of_nat (length pts) + total_points wb.
Proof.
  intros Hv. unfold total_points. rewrite map_to_list_insert by assumption.
  rewrite !fmap_cons. cbn [snd]. rewrite sum_list_with_foldr. cbn [foldr].
  rewrite <- sum_list_with_foldr. unfold Datatypes.id at 1. lia.
Qed.

Lemma total_points_insert (wb : gmap string (list GPSPoint)) (v : string)
    (p : GPSPoint) :
  total_points (<[v := default [] (wb !! v) ++ [p]]> wb) = total_points wb + 1.
Proof.
  destruct (wb !! v) as [old|] eqn:Hv; cbn [default from_option].
  - assert (E1 : total_points wb
                 = Z.of_nat (length old) + total_points (delete v wb)).
    { rewrite <- (insert_delete_id wb v old) at 1 by assumption.
      apply total_points_insert_fresh, lookup_delete_eq. }
    assert (E2 : total_points (<[v := Datatypes.id old ++ [p]]> wb)
                 = Z.of_nat (length (Datatypes.id old ++ [p]))
                   + total_points (delete v wb)).
    { rewrite <- insert_delete_eq.
      apply total_points_insert_fresh, lookup_delete_eq. }
    rewrite E1, E2, length_app. unfold Datatypes.id. cbn [length]. lia.
  - rewrite total_points_insert_fresh by assumption. cbn [app length]. lia.
Qed.

Lemma accounting_flush (c : cache) :
  write_count (fst (_flush_write_buffer c))
  + total_points (write_buffer (fst (_flush_write_buffer c)))
  = write_count c + total_points (write_buffer c).
Proof.
  unfold _flush_write_buffer. case_decide; [reflexivity|].
  destruct (pipeline c _); cbn [fst write_count write_buffer]; [reflexivity|].
  rewrite total_points_empty. lia.
Qed.

Lemma accounting_step (c : cache) (o : op) :
  write_count (step c o) + total_points (write_buffer (step c o))
  = write_count c + total_points (write_buffer c) + cached_count [o].
Proof.
  destruct o as [v p|]; cbn [step cached_count foldr].
  - unfold cache_gps_point.
    destruct (batch_size c <=? _); rewrite ?accounting_flush;
      cbn [fst write_count write_buffer]; rewrite total_points_insert; lia.
  - rewrite accounting_flush. lia.
Qed.

(** X6.  No cached point is lost or counted twice: at any time the points
    written to Redis and the points still buffered, as
    [get_performance_stats] reports them, add up to the number of points
    cached since the cache was created. *)
Theorem write_count_accounts_for_every_point (r : redis) (ops : list op) (n : counters) :
  ps_write_count (get_performance_stats (run ops (init r)) n)
  + buffer_size (get_performance_stats (run ops (init r)) n)
  = cached_count ops.
Proof.
  cbn [get_performance_stats ps_write_count buffer_size].
  assert (H : forall c,
             write_count (run ops c) + total_points (write_buffer (run ops c))
             = write_count c + total_points (write_buffer c) + cached_count ops).
  { induction ops as [|o ops IH]; intros c.
    - cbn. lia.
    - change (run (o :: ops) c) with (run ops (step c o)).
      rewrite IH, accounting_step. unfold cached_count. cbn [foldr].
      destruct o; lia. }
  rewrite H. cbn [init write_count write_buffer]. rewrite total_points_empty. lia.
Qed.

Lemma counters_read_step (c : cache) (n : counters) (r : read) :
  read_count (read_step c n r) = read_count n + 1
  /\ cache_hits (read_step c n r) + cache_misses (read_step c n r)
     = cache_hits n + cache_misses n + 1
  /\ cache_hits n <= cache_hits (read_step c n r).
Proof.
  destruct r as [vid|vid limit]; cbn [read_step].
  - unfold get_vehicle_location. destruct (hashes (store c) !! vehicle_key vid);
      cbn; lia.
  - unfold get_vehicle_track. destruct (lrange _ _ _ _); cbn; lia.
Qed.

Lemma cache_misses_fold_nonneg (reads : list (cache * read)) (n0 : counters) :
  0 <= cache_misses n0 ->
  0 <= cache_misses (fold_left (fun n cr => read_step (fst cr) n (snd cr)) reads n0).
Proof.
  revert n0. induction reads as [|[c' r] reads IH]; intros n0 Hn0; [exact Hn0|].
  cbn [fold_left fst snd]. apply IH.
  destruct r as [vid|vid limit]; cbn [read_step].
  - unfold get_vehicle_location.
    destruct (hashes (store c') !! vehicle_key vid);
      cbn [fst hit miss cache_misses]; lia.
  - unfold get_vehicle_track.
    destruct (lrange _ _ _ _); cbn [fst hit miss cache_misses]; lia.
Qed.

Lemma ratio_bounds (h r : Z) :
  0 <= h <= r -> 0 < r ->
  (0 <= inject_Z h / inject_Z r /\ inject_Z h / inject_Z r <= 1)%Q.
Proof.
  intros [Hh Hr] Hpos.
  assert (Hr' : (0 < inject_Z r)%Q)
    by (change 0%Q with (inject_Z 0); rewrite <- Zlt_Qlt; lia).
  assert (Hh' : (0 <= inject_Z h)%Q)
    by (change 0%Q with (inject_Z 0); rewrite <- Zle_Qle; lia).
  assert (Hhr : (inject_Z h <= inject_Z r)%Q) by (rewrite <- Zle_Qle; lia).
  split.
  - apply Qle_shift_div_l; [exact Hr'|]. Lqa.lra.
  - apply Qle_shift_div_r; [exact Hr'|]. Lqa.lra.
Qed.

Lemma Qround_half_even_bounds (y : Q) (N : Z) :
  (0 <= y)%Q -> (y <= inject_Z N)%Q -> 0 <= Num.Qround_half_even y <= N.
Proof.
  intros H0 HN. unfold Num.Qround_half_even.
  pose proof (Qfloor_le y) as Hf. pose proof (Qlt_floor y) as Hf'.
  rewrite inject_Z_plus in Hf'. change (inject_Z 1) with 1%Q in Hf'.
  assert (Hf0 : 0 <= Qfloor y).
  { assert (0 < Qfloor y + 1); [|lia].
    rewrite Zlt_Qlt, inject_Z_plus. change (inject_Z 1) with 1%Q.
    change (inject_Z 0) with 0%Q. Lqa.lra. }
  assert (HfN : Qfloor y <= N) by (rewrite Zle_Qle; Lqa.lra).
  destruct (y - inject_Z (Qfloor y) ?= 1 # 2)%Q eqn:Hc.
  - apply Qeq_alt in Hc.
    assert (Qfloor y < N) by (rewrite Zlt_Qlt; Lqa.lra).
    destruct (Z.even (Qfloor y)); lia.
  - lia.
  - apply Qgt_alt in Hc.
    assert (Qfloor y < N) by (rewrite Zlt_Qlt; Lqa.lra). lia.
Qed.

(** X7.  Whatever the reads and the caches they meet, every read is counted
    once, as a hit or as a miss: [read_count = cache_hits + cache_misses],
    and the reported hit rate lies between 0 and 100. *)
Theorem reads_are_hits_or_misses (reads : list (cache * read)) (c : cache) :
  let n := fold_left (fun n cr => read_step (fst cr) n (snd cr)) reads counters_init in
  read_count n = Z.of_nat (length reads)
  /\ read_count n = cache_hits n + cache_misses n
  /\ (0 <= hit_rate_percent (get_performance_stats c n) <= 100)%Q.
Proof.
  assert (H : forall n0,
             let n := fold_left (fun n cr => read_step (fst cr) n (snd cr)) reads n0 in
             read_count n = read_count n0 + Z.of_nat (length reads)
             /\ cache_hits n + cache_misses n
                = cache_hits n0 + cache_misses n0 + Z.of_nat (length reads)
             /\ cache_hits n0 <= cache_hits n).
  { induction reads as [|[c' r] reads IH]; intros n0.
    - cbn. lia.
    - cbn [fold_left fst snd length]. cbn zeta.
      destruct (IH (read_step c' n0 r)) as (H1 & H2 & H3).
      destruct (counters_read_step c' n0 r) as (H4 & H5 & H6). lia. }
  intros n. destruct (H counters_init) as (H1 & H2 & H3). fold n in H1, H2, H3.
  cbn [counters_init read_count cache_hits cache_misses] in H1, H2, H3.
  assert (Hm : 0 <= cache_misses n).
  { subst n. apply cache_misses_fold_nonneg. cbn. lia. }
  split; [lia|]. split; [lia|].
  cbn [get_performance_stats hit_rate_percent]. unfold Num.round2.
  assert (Hb : 0 <= Num.Qround_half_even
                       ((if 0 <? read_count n
                         then inject_Z (cache_hits n) / inject_Z (read_count n) * 100
                         else 0) * 100) <= 10000).
  { destruct (Z.ltb_spec 0 (read_count n)) as [Hpos|Hz].
    - destruct (ratio_bounds (cache_hits n) (read_count n)) as [Hq0 Hq1];
        [lia|lia|].
      apply Qround_half_even_bounds;
        [|change (inject_Z 10000) with 10000%Q]; Lqa.lra.
    - apply Qround_half_even_bounds;
        [|change (inject_Z 10000) with 10000%Q]; Lqa.lra. }
  unfold Qle. cbn [Qnum Qden]. lia.
Qed.

End RedisReadsFacts.

(** ** The batch processor and the partitions *)

Module AsyncBatchProcessorFacts.
Import DurableStore AsyncBatchProcessor DurableStoreFacts.

Lemma admissible_same (sv sv' : server) (r : row) :
  time_zone sv' = time_zone sv -> partitions sv' = partitions sv ->
  admissible sv r -> admissible sv' r.
Proof.
  unfold admissible, date_of. intros -> ->. done.
Qed.

(** A flush of rows the server takes. *)
Lemma flush_batch_admissible (p : processor) :
  Forall (admissible (engine p)) (batch_buffer p) ->
  snd (_flush_batch p) = ret tt
  /\ pending (fst (_flush_batch p)) = pending p
  /\ batch_buffer (fst (_flush_batch p)) = []
  /\ time_zone (engine (fst (_flush_batch p))) = time_zone (engine p)
  /\ partitions (engine (fst (_flush_batch p))) = partitions (engine p)
  /\ batch_size (fst (_flush_batch p)) = batch_size p
  /\ total_processed (fst (_flush_batch p))
     = total_processed p + Z.of_nat (length (batch_buffer p))
  /\ batch_count (fst (_flush_batch p))
     = batch_count p + (if decide (batch_buffer p = []) then 0 else 1).
Proof.
  intros Hall. unfold _flush_batch, pending.
  destruct (batch_buffer p) as [|r rs] eqn:E.
  - cbn [fst snd]. rewrite E. rewrite decide_True by done. cbn [length].
    split; [done|]. split; [done|]. split; [done|]. split; [done|].
    split; [done|]. split; [done|]. split; lia.
  - rewrite (execute_batch_insert_admissible _ _ Hall).
    cbn [fst snd engine batch_buffer batch_size total_processed batch_count
         time_zone partitions gps_locations_partitioned upsert fold_left].
    rewrite decide_False by done. done.
Qed.

Lemma add_gps_data_admissible (p : processor) (gps_data : GPSBatchData.t) :
  Forall (admissible (engine p)) (batch_buffer p ++ [item gps_data]) ->
  snd (add_gps_data p gps_data) = ret tt
  /\ pending (fst (add_gps_data p gps_data))
     = upsert (gps_locations_partitioned (engine p)) (batch_buffer p ++ [item gps_data])
  /\ time_zone (engine (fst (add_gps_data p gps_data))) = time_zone (engine p)
  /\ partitions (engine (fst (add_gps_data p gps_data))) = partitions (engine p)
  /\ batch_size (fst (add_gps_data p gps_data)) = batch_size p.
Proof.
  intros Hall. unfold add_gps_data. fold (item gps_data).
  set (p1 := {| engine := engine p; batch_size := batch_size p;
                batch_buffer := batch_buffer p ++ [item gps_data];
                total_processed := total_processed p;
                batch_count := batch_count p |}).
  cbn [batch_buffer].
  destruct (batch_size p <=? _).
  - destruct (flush_batch_admissible p1 Hall) as (H1 & H2 & _ & H4 & H5 & H6 & _).
    by rewrite H1, H2, H4, H5, H6.
  - done.
Qed.

(** As long as the server takes the rows, the processor stands for one
    table: what the engine holds once the buffer is written. *)
Lemma run_pending (events : list event) : forall p : processor,
  Forall (admissible (engine p)) (batch_buffer p ++ (item <$> added events)) ->
  pending (run p events)
  = upsert (gps_locations_partitioned (engine p))
      (batch_buffer p ++ (item <$> added events))
  /\ time_zone (engine (run p events)) = time_zone (engine p)
  /\ partitions (engine (run p events)) = partitions (engine p)
  /\ Forall (admissible (engine (run p events))) (batch_buffer (run p events)).
Proof.
  induction events as [|e events IH]; intros p Hall.
  - cbn [added omap fmap list_fmap run foldl] in *. rewrite app_nil_r in *. done.
  - change (run p (e :: events)) with (run (step p e) events).
    destruct e as [gps_data|]; cbn [step].
    + change (added (Add gps_data :: events)) with (gps_data :: added events) in *.
      rewrite fmap_cons, cons_middle, app_assoc in Hall.
      pose proof Hall as [Hnow Hlater]%Forall_app.
      destruct (add_gps_data_admissible p gps_data Hnow) as (_ & Hp & Htz & Hpart & _).
      set (p1 := fst (add_gps_data p gps_data)) in *.
      assert (Hb1 : Forall (admissible (engine p1)) (batch_buffer p1)).
      { unfold p1, add_gps_data. fold (item gps_data). cbn [batch_buffer].
        destruct (batch_size p <=? _).
        - destruct (flush_batch_admissible
                      {| engine := engine p; batch_size := batch_size p;
                         batch_buffer := batch_buffer p ++ [item gps_data];
                         total_processed := total_processed p;
                         batch_count := batch_count p |} Hnow) as (_ & _ & -> & _).
          constructor.
        - done. }
      destruct (IH p1) as (IH1 & IH2 & IH3 & IH4).
      { apply Forall_app. split; [done|].
        eapply Forall_impl; [exact Hlater|]. intros r. by apply admissible_same. }
      split; [|split; [congruence|split; [congruence|done]]].
      rewrite IH1, upsert_app. fold (pending p1). rewrite Hp.
      by rewrite <- upsert_app, <- app_assoc.
    + change (added (BackgroundFlush :: events)) with (added events) in *.
      pose proof Hall as [Hnow Hlater]%Forall_app.
      destruct (flush_batch_admissible p Hnow) as (_ & Hp & Hb & Htz & Hpart & _).
      set (p1 := fst (_flush_batch p)) in *.
      destruct (IH p1) as (IH1 & IH2 & IH3 & IH4).
      { rewrite Hb. cbn [app].
        eapply Forall_impl; [exact Hlater|]. intros r. by apply admissible_same. }
      split; [|split; [congruence|split; [congruence|done]]].
      rewrite IH1, upsert_app. fold (pending p1). rewrite Hp.
      unfold pending. by rewrite <- upsert_app.
Qed.



Lemma add_gps_data_counters (p : processor) (gps_data : GPSBatchData.t) :
  Forall (admissible (engine p)) (batch_buffer p ++ [item gps_data]) ->
  Z.of_nat (length (batch_buffer p)) < batch_size p ->
  let p' := fst (add_gps_data p gps_data) in
  batch_size p' = batch_size p
  /\ Z.of_nat (length (batch_buffer p')) < batch_size p'
  /\ total_processed p' + Z.of_nat (length (batch_buffer p'))
     = total_processed p + Z.of_nat (length (batch_buffer p)) + 1
  /\ total_processed p' - total_processed p
     = batch_size p * (batch_count p' - batch_count p).
Proof.
  intros Hall Hlt. unfold add_gps_data. fold (item gps_data). cbn [batch_buffer].
  set (p1 := {| engine := engine p; batch_size := batch_size p;
                batch_buffer := batch_buffer p ++ [item gps_data];
                total_processed := total_processed p;
                batch_count := batch_count p |}).
  assert (Hlen : length (batch_buffer p ++ [item gps_data])
                 = S (length (batch_buffer p))).
  { rewrite length_app. cbn. lia. }
  destruct (Z.leb_spec (batch_size p) (Z.of_nat (length (batch_buffer p ++ [item gps_data]))))
    as [Hfull|Hroom]; cbv zeta.
  - destruct (flush_batch_admissible p1 Hall) as (_ & _ & Hb & _ & _ & Hs & Ht & Hc).
    rewrite Hb, Hs, Ht, Hc. cbn [p1 batch_buffer batch_size total_processed batch_count].
    rewrite decide_False by (by destruct (batch_buffer p)).
    rewrite Hlen in *. cbn [length]. lia.
  - cbn [fst p1 batch_buffer batch_size total_processed batch_count].
    rewrite Hlen in *. lia.
Qed.

Lemma flush_batch_counters (p : processor) :
  Forall (admissible (engine p)) (batch_buffer p) ->
  Z.of_nat (length (batch_buffer p)) < batch_size p ->
  let p' := fst (_flush_batch p) in
  batch_size p' = batch_size p
  /\ Z.of_nat (length (batch_buffer p')) < batch_size p'
  /\ total_processed p' + Z.of_nat (length (batch_buffer p'))
     = total_processed p + Z.of_nat (length (batch_buffer p)).
Proof.
  intros Hall Hlt. cbv zeta.
  destruct (flush_batch_admissible p Hall) as (_ & _ & Hb & _ & _ & Hs & Ht & _).
  rewrite Hb, Hs, Ht. cbn [length]. lia.
Qed.

(** X9.  As long as the server takes the rows: from a buffer shorter than
    the batch size, the buffer stays shorter than the batch size whatever
    is added and whenever the background task flushes, and every datum
    added is either processed or still buffered.  Without a background
    flush, every batch written had exactly [batch_size] rows. *)
Theorem add_gps_data_writes_full_batches (p : processor) (events : list event) :
  Forall (admissible (engine p)) (batch_buffer p ++ (item <$> added events)) ->
  Z.of_nat (length (batch_buffer p)) < batch_size p ->
  let p' := run p events in
  Z.of_nat (length (batch_buffer p')) < batch_size p
  /\ total_processed p' + Z.of_nat (length (batch_buffer p'))
     = total_processed p + Z.of_nat (length (batch_buffer p))
       + Z.of_nat (length (added events))
  /\ (BackgroundFlush ∉ events ->
      total_processed p' - total_processed p
      = batch_size p * (batch_count p' - batch_count p)).
Proof.
  revert p. induction events as [|e events IH]; intros p Hall Hlt.
  - cbn. lia.
  - change (run p (e :: events)) with (run (step p e) events). cbn zeta.
    destruct e as [gps_data|]; cbn [step].
    + change (added (Add gps_data :: events)) with (gps_data :: added events) in *.
      rewrite fmap_cons, cons_middle, app_assoc in Hall.
      pose proof Hall as [Hnow Hlater]%Forall_app.
      destruct (add_gps_data_counters p gps_data Hnow Hlt) as (Hsize & Hlt' & Hsum & Hfull).
      destruct (run_pending [Add gps_data] p) as (_ & Htz & Hpart & Hb1).
      { cbn [added omap fmap list_fmap]. done. }
      change (run p [Add gps_data]) with (fst (add_gps_data p gps_data)) in *.
      cbn zeta in *.
      destruct (IH (fst (add_gps_data p gps_data))) as (IH1 & IH2 & IH3).
      { apply Forall_app. split; [done|].
        eapply Forall_impl; [exact Hlater|]. intros r. by apply admissible_same. }
      { done. }
      cbn zeta in *. rewrite Hsize in IH1, IH3.
      split; [exact IH1|]. split; [cbn [length]; lia|].
      intros Hno. rewrite not_elem_of_cons in Hno. destruct Hno as [_ Hno].
      specialize (IH3 Hno). lia.
    + change (added (BackgroundFlush :: events)) with (added events) in *.
      pose proof Hall as [Hnow Hlater]%Forall_app.
      destruct (flush_batch_counters p Hnow Hlt) as (Hsize & Hlt' & Hsum). cbn zeta in *.
      destruct (flush_batch_admissible p Hnow) as (_ & _ & Hb & Htz & Hpart & _).
      destruct (IH (fst (_flush_batch p))) as (IH1 & IH2 & _).
      { rewrite Hb. cbn [app].
        eapply Forall_impl; [exact Hlater|]. intros r. by apply admissible_same. }
      { done. }
      cbn zeta in *. rewrite Hsize in IH1.
      split; [exact IH1|]. split; [lia|].
      intros Hno. exfalso. apply Hno, list_elem_of_here.
Qed.

Lemma add_gps_data_writes_full_batches_witness :
  Z.of_nat (length (batch_buffer (run Samples.empty_processor
                                    [Add Samples.veh2_data; Add Samples.veh1_data;
                                     Add Samples.veh2_data]))) < 2
  /\ total_processed (run Samples.empty_processor
                        [Add Samples.veh2_data; Add Samples.veh1_data;
                         Add Samples.veh2_data])
     + Z.of_nat (length (batch_buffer (run Samples.empty_processor
                                         [Add Samples.veh2_data; Add Samples.veh1_data;
                                          Add Samples.veh2_data])))
     = 0 + 0 + 3.
Proof.
  destruct (add_gps_data_writes_full_batches Samples.empty_processor
              [Add Samples.veh2_data; Add Samples.veh1_data; Add Samples.veh2_data])
    as (H1 & H2 & _).
  - all_admissible.
  - cbn. lia.
  - split; [exact H1|exact H2].
Defined.

(** X14.  A batch the server refuses is lost.  When the datum that fills
    the buffer meets a row without the partition of its day, among the
    rows buffered or in itself, [add_gps_data] raises the error of the
    server; the transaction was rolled back, so the table is as it was;
    and the buffer was cleared before the insert, so it is empty: the
    rows of the batch, the good ones included, are nowhere, and they are
    not counted as processed. *)
Theorem failed_flush_loses_the_batch (p : processor) (gps_data : GPSBatchData.t) :
  batch_size p <= Z.of_nat (length (batch_buffer p)) + 1 ->
  Exists (fun r => date_of (engine p) (ts r) ∉ partitions (engine p))
         (batch_buffer p ++ [item gps_data]) ->
  add_gps_data p gps_data
  = ({| engine := engine p; batch_size := batch_size p; batch_buffer := [];
        total_processed := total_processed p; batch_count := batch_count p |},
     raise DBAPIError).
Proof.
  intros Hfull Hex. unfold add_gps_data. fold (item gps_data). cbn [batch_buffer].
  assert (Hlen : length (batch_buffer p ++ [item gps_data])
                 = S (length (batch_buffer p))).
  { rewrite length_app. cbn. lia. }
  destruct (Z.leb_spec (batch_size p) (Z.of_nat (length (batch_buffer p ++ [item gps_data]))))
    as [_|Hroom]; [|lia].
  unfold _flush_batch. cbn [batch_buffer engine batch_size total_processed batch_count].
  destruct (batch_buffer p ++ [item gps_data]) as [|r rs] eqn:E; [discriminate|].
  by rewrite (execute_batch_insert_unpartitioned _ _ Hex).
Qed.

Lemma failed_flush_loses_the_batch_witness :
  add_gps_data Samples.processor_with_veh2 Samples.impossible_data
  = ({| engine := Samples.empty_server; batch_size := 2; batch_buffer := [];
        total_processed := 0; batch_count := 0 |},
     raise DBAPIError).
Proof.
  apply (failed_flush_loses_the_batch Samples.processor_with_veh2 Samples.impossible_data).
  - cbn. lia.
  - apply Exists_cons_tl, Exists_cons_hd.
    intros Hin. by apply (bool_decide_pack _) in Hin.
Defined.




Lemma record_processing_time_window {A} (times : list A) (t : A) :
  record_processing_time (drop (length times - 100) times) t
  = drop (length (times ++ [t]) - 100) (times ++ [t]).
Proof.
  unfold record_processing_time.
  rewrite !length_app, length_drop. cbn [length].
  destruct (Nat.ltb_spec 100 (length times - (length times - 100) + 1)) as [H|H].
  - replace (length times - (length times - 100) + 1 - 100)%nat with 1%nat by lia.
    replace (length times + 1 - 100)%nat with (length times - 100 + 1)%nat by lia.
    rewrite <- drop_drop, (drop_app_le times) by lia.
    reflexivity.
  - replace (length times - 100)%nat with 0%nat by lia.
    replace (length times + 1 - 100)%nat with 0%nat by lia. reflexivity.
Qed.

(** X10.  [processing_times] is a sliding window: after any number of
    flushes it holds the times of the last 100 of them, in order, and so
    never more than 100. *)
Theorem processing_times_last_100 {A} (times : list A) :
  foldl record_processing_time [] times = drop (length times - 100) times
  /\ (length (foldl record_processing_time [] times) <= 100)%nat.
Proof.
  assert (H : foldl record_processing_time [] times = drop (length times - 100) times).
  { induction times as [|t times IH] using rev_ind; [reflexivity|].
    rewrite foldl_snoc, IH. apply record_processing_time_window. }
  split; [exact H|]. rewrite H, length_drop. lia.
Qed.

End AsyncBatchProcessorFacts.

Module PostgreSQLOptimizerFacts.
Import PostgreSQLOptimizer.

Lemma elem_of_create_fold (base_date : Z) (days : list Z) (partitions : gset Z) (d : Z) :
  d ∈ foldl (fun partitions i => let partition_date := base_date + i in
                                 {[ partition_date ]} ∪ partitions) partitions days
  <-> d ∈ partitions \/ exists i, i ∈ days /\ d = base_date + i.
Proof.
  revert partitions. induction days as [|i days IH]; intros partitions; cbn [foldl].
  - split; [auto|]. intros [H|(i & Hi & _)]; [exact H|]. by apply elem_of_nil in Hi.
  - rewrite IH. cbn zeta. rewrite elem_of_union, elem_of_singleton. split.
    + intros [[->|H]|(j & Hj & ->)].
      * right. exists i. split; [apply list_elem_of_here|reflexivity].
      * by left.
      * right. exists j. split; [by apply list_elem_of_further|reflexivity].
    + intros [H|(j & Hj & ->)]; [by left; right|].
      apply elem_of_cons in Hj as [->|Hj]; [by left; left|].
      right. by exists j.
Qed.

Lemma elem_of_create_daily_partitions (partitions : gset Z) (base_date days_ahead d : Z) :
  d ∈ create_daily_partitions partitions base_date days_ahead
  <-> d ∈ partitions \/ base_date - 1 <= d <= base_date + days_ahead.
Proof.
  unfold create_daily_partitions. rewrite elem_of_create_fold. split.
  - intros [H|(i & Hi & ->)]; [by left|]. apply elem_of_seqZ in Hi. right. lia.
  - intros [H|H]; [by left|]. right. exists (d - base_date).
    split; [apply elem_of_seqZ|]; lia.
Qed.

Lemma elem_of_cleanup_old_partitions (partitions : gset Z) (today retention_days d : Z) :
  d ∈ cleanup_old_partitions partitions today retention_days
  <-> today - retention_days <= d /\ d ∈ partitions.
Proof.
  unfold cleanup_old_partitions. cbn zeta. rewrite elem_of_filter.
  split; intros [H1 H2]; (split; [lia|exact H2]).
Qed.

(** X11.  The partitions after [create_daily_partitions] and
    [cleanup_old_partitions] on the same day: those of yesterday up to
    [days_ahead] days from now and those there were before, less the ones
    more than [retention_days] days old.  The partition of [today] itself
    survives exactly when [retention_days] is not negative. *)
Theorem partitions_created_then_cleaned (partitions : gset Z)
    (today days_ahead retention_days d : Z) :
  (d ∈ cleanup_old_partitions (create_daily_partitions partitions today days_ahead)
         today retention_days
   <-> today - retention_days <= d
       /\ (d ∈ partitions \/ today - 1 <= d <= today + days_ahead))
  /\ (0 <= days_ahead ->
      (today ∈ cleanup_old_partitions
                 (create_daily_partitions partitions today days_ahead)
                 today retention_days
       <-> 0 <= retention_days)).
Proof.
  split.
  - by rewrite elem_of_cleanup_old_partitions, elem_of_create_daily_partitions.
  - intros Hd. rewrite elem_of_cleanup_old_partitions, elem_of_create_daily_partitions.
    split; [lia|]. intros Hr. split; [lia|]. right. lia.
Qed.

Lemma partitions_created_then_cleaned_witness :
  (5 ∈ cleanup_old_partitions (create_daily_partitions ∅ 5 7) 5 30 <-> 0 <= 30).
Proof.
  apply (partitions_created_then_cleaned ∅ 5 7 30 5). lia.
Defined.

(** X12.  With the maintenance run once a day, the partitions never have a
    gap: on the [n]-th day after the start they are those of every day from
    the eve of the start to a week ahead that is at most 30 days old, and
    of the partitions there were at the start the ones at most 30 days
    old.  A row stamped with the current day, the day before or one of the
    seven days after always has its partition. *)
Theorem daily_maintenance_leaves_no_gap (partitions : gset Z) (start : Z) (n : nat)
    (d : Z) :
  let today := start + Z.of_nat n in
  (d ∈ daily_maintenance partitions start n
   <-> (d ∈ partitions /\ (n = 0%nat \/ today - 30 <= d))
       \/ (start - 1 <= d <= today + 7 /\ today - 30 <= d))
  /\ (today - 1 <= d <= today + 7 -> d ∈ daily_maintenance partitions start n).
Proof.
  assert (H : forall n d,
             d ∈ daily_maintenance partitions start n
             <-> (d ∈ partitions /\ (n = 0%nat \/ start + Z.of_nat n - 30 <= d))
                 \/ (start - 1 <= d <= start + Z.of_nat n + 7
                     /\ start + Z.of_nat n - 30 <= d)).
  { clear n d. induction n as [|n IH]; intros d.
    - cbn [daily_maintenance]. rewrite elem_of_create_daily_partitions.
      split.
      + intros [H|H]; [left; auto|right; lia].
      + intros [[H _]|[H _]]; [by left|right; lia].
    - cbn [daily_maintenance]. unfold maintenance.
      rewrite elem_of_cleanup_old_partitions, elem_of_create_daily_partitions, IH.
      split.
      + intros [Hold [[[Hp _]|[Hr _]]|Hr]].
        * left. split; [exact Hp|right; lia].
        * right. lia.
        * right. lia.
      + intros [[Hp [Hn|Hold]]|[Hr Hold]]; [lia| |].
        * split; [lia|]. left. left. split; [exact Hp|].
          destruct n; [by left|right; lia].
        * split; [lia|].
          destruct (Z_le_gt_dec d (start + Z.of_nat n + 7)) as [Hle|Hgt].
          -- left. right. lia.
          -- right. lia. }
  cbn zeta. split; [apply H|].
  intros Hd. apply H. right. lia.
Qed.

Lemma daily_maintenance_leaves_no_gap_witness :
  10 ∈ daily_maintenance ∅ 0 3.
Proof.
  apply (daily_maintenance_leaves_no_gap ∅ 0 3 10). lia.
Defined.

End PostgreSQLOptimizerFacts.

(** ** The queries of the durable store *)

Module GPSQueryOptimizerFacts.
Import Num DurableStore DurableStoreFacts.

#[local] Instance ts_desc_total' : Total ts_desc.
Proof. intros r1 r2. unfold ts_desc. lia. Qed.

#[local] Instance ts_desc_trans : Transitive ts_desc.
Proof. intros r1 r2 r3. unfold ts_desc. lia. Qed.

(** [ORDER BY ... LIMIT n]: the rows are split into the [n] first of the
    order, which are kept, and the others, none of which comes before a
    kept one. *)
Lemma order_by_limit {A} (R : relation A) `{!RelDecision R} `{!Total R}
    `{!Transitive R} (n : nat) (l : list A) :
  take n (merge_sort R l) ++ drop n (merge_sort R l) ≡ₚ l
  /\ length (take n (merge_sort R l)) = (n `min` length l)%nat
  /\ forall k d, k ∈ take n (merge_sort R l) -> d ∈ drop n (merge_sort R l) -> R k d.
Proof.
  split; [|split].
  - rewrite take_drop. apply merge_sort_Permutation.
  - rewrite length_take. by rewrite (Permutation_length (merge_sort_Permutation R l)).
  - intros k d Hk Hd.
    apply (StronglySorted_app_1_elem_of R (take n (merge_sort R l))
             (drop n (merge_sort R l))); [|assumption|assumption].
    rewrite take_drop. by apply StronglySorted_merge_sort.
Qed.

(** X13.  [get_vehicle_track] returns the [limit] most recent rows of the
    vehicle in the time range, both ends included, the latest first:
    every row of the vehicle in the range is either returned or left out,
    as many are returned as the limit allows, and no row left out is more
    recent than a returned one. *)
Theorem get_vehicle_track_most_recent (t : table) (now : Z) (vehicle_id : string)
    (start_time end_time : option Z) (limit : nat) :
  exists kept dropped,
    get_vehicle_track t now vehicle_id start_time end_time limit = data <$> kept
    /\ kept ++ dropped
       ≡ₚ filter (fun r => GPSBatchData.vehicle_id (data r) = vehicle_id
                           ∧ default (now - hours 24) start_time <= ts r
                             <= default now end_time) t
    /\ length kept = (limit `min` length (kept ++ dropped))%nat
    /\ Sorted ts_desc kept
    /\ forall k d, k ∈ kept -> d ∈ dropped -> ts d <= ts k.
Proof.
  unfold get_vehicle_track. cbn zeta.
  set (selected := filter _ t).
  destruct (order_by_limit ts_desc limit selected) as (Hperm & Hlen & Hord).
  exists (take limit (merge_sort ts_desc selected)),
         (drop limit (merge_sort ts_desc selected)).
  split; [reflexivity|]. split; [exact Hperm|]. split; [|split].
  - by rewrite Hlen, (Permutation_length Hperm).
  - apply Sorted_take, Sorted_merge_sort. apply _.
  - exact Hord.
Qed.

(** *** Sums *)

Lemma foldl_Qplus_le (m : Q) (xs : list Q) (a : Q) :
  (forall y, y ∈ xs -> (y <= m)%Q) ->
  (foldl Qplus a xs <= a + inject_Z (Z.of_nat (length xs)) * m)%Q.
Proof.
  revert a. induction xs as [|x xs IH]; intros a Hm; cbn [foldl length].
  - change (inject_Z (Z.of_nat 0)) with 0%Q. Lqa.lra.
  - specialize (IH (a + x)%Q (fun y Hy => Hm y (list_elem_of_further _ _ _ Hy))).
    specialize (Hm x (list_elem_of_here _ _)).
    rewrite Nat2Z.inj_succ. unfold Z.succ. rewrite inject_Z_plus.
    change (inject_Z 1) with 1%Q. Lqa.lra.
Qed.

End GPSQueryOptimizerFacts.

(** ** The reads of the GPS service *)

Module CurrentLocationFacts.
Import Num GPSService CurrentLocation.

#[local] Instance gps_time_asc_total' : Total gps_time_asc.
Proof. intros p1 p2. unfold gps_time_asc. lia. Qed.

#[local] Instance gps_time_asc_trans : Transitive gps_time_asc.
Proof. intros p1 p2 p3. unfold gps_time_asc. lia. Qed.

#[local] Instance gps_time_desc_total : Total gps_time_desc.
Proof. intros p1 p2. unfold gps_time_desc. lia. Qed.

#[local] Instance gps_time_desc_trans : Transitive gps_time_desc.
Proof. intros p1 p2 p3. unfold gps_time_desc. lia. Qed.

(** [ORDER BY ... LIMIT 1]: no row when there is none, else a row that
    comes before all of them. *)
Lemma head_merge_sort {A} (R : relation A) `{!RelDecision R} `{!Total R}
    `{!Transitive R} (l : list A) :
  match head (merge_sort R l) with
  | None => l = []
  | Some x => x ∈ l /\ forall y, y ∈ l -> R x y
  end.
Proof.
  pose proof (merge_sort_Permutation R l) as Hperm.
  pose proof (StronglySorted_merge_sort R l) as Hsort.
  destruct (merge_sort R l) as [|x sorted]; cbn [head].
  - by apply Permutation_nil in Hperm.
  - split.
    + rewrite <- Hperm. apply list_elem_of_here.
    + intros y Hy. rewrite <- Hperm in Hy.
      apply elem_of_cons in Hy as [->|Hy].
      * destruct (total R x x); assumption.
      * apply StronglySorted_inv in Hsort as [_ Hall].
        by apply (proj1 (Forall_forall _ _) Hall).
Qed.

(** X15.  [get_tracking_history] returns the [limit] earliest of the
    valid points the filter selects: every selected point is either
    returned or left out, as many are returned as the limit allows, and no
    point left out is earlier than a returned one. *)
Theorem get_tracking_history_earliest (db : database)
    (filters : option TrackingFilter.t) (limit : nat) :
  exists dropped,
    get_tracking_history db filters limit ++ dropped
    ≡ₚ filter (fun p => matches filters p = true) (gps_locations db)
    /\ length (get_tracking_history db filters limit)
       = (limit `min` length (get_tracking_history db filters limit ++ dropped))%nat
    /\ forall k d, k ∈ get_tracking_history db filters limit -> d ∈ dropped ->
         GPSLocation.gps_time k <= GPSLocation.gps_time d.
Proof.
  unfold get_tracking_history. set (selected := filter _ (gps_locations db)).
  destruct (GPSQueryOptimizerFacts.order_by_limit gps_time_asc limit selected)
    as (Hperm & Hlen & Hord).
  exists (drop limit (merge_sort gps_time_asc selected)).
  split; [exact Hperm|]. split; [|exact Hord].
  by rewrite Hlen, (Permutation_length Hperm).
Qed.

End CurrentLocationFacts.

(** ** Bounds of the route analysis *)

Module RouteAnalysisFacts.
Import Num GPSService GPSServiceFacts.

#[local] Instance gps_time_asc_total'' : Total gps_time_asc.
Proof. intros p1 p2. unfold gps_time_asc. lia. Qed.

#[local] Instance gps_time_asc_trans' : Transitive gps_time_asc.
Proof. intros p1 p2 p3. unfold gps_time_asc. lia. Qed.

Lemma get_tracking_history_sorted (db : database) (filters : option TrackingFilter.t)
    (limit : nat) :
  StronglySorted gps_time_asc (get_tracking_history db filters limit).
Proof.
  apply Sorted_StronglySorted; [apply _|]. unfold get_tracking_history.
  apply DurableStoreFacts.Sorted_take, Sorted_merge_sort. apply _.
Qed.

Lemma length_get_tracking_history (db : database) (filters : option TrackingFilter.t)
    (limit : nat) :
  (length (get_tracking_history db filters limit) <= limit)%nat.
Proof. unfold get_tracking_history. rewrite length_take. lia. Qed.

(** The whole minutes between two points. *)
Lemma int_of_minutes (later earlier : Z) :
  int_of_Q (total_seconds later earlier / 60) = Z.quot (later - earlier) 60000000.
Proof.
  unfold int_of_Q, total_seconds, Qdiv, Qinv, Qmult. cbn [Qnum Qden].
  by rewrite Z.mul_1_r.
Qed.

Lemma whole_minutes_quot (p c : GPSLocation.t) :
  whole_minutes (p, c)
  = Z.quot (GPSLocation.gps_time c - GPSLocation.gps_time p) 60000000.
Proof. unfold whole_minutes, time_diff. cbn [fst snd]. apply int_of_minutes. Qed.

Lemma last_cons_default {A} (c d : A) (l : list A) :
  List.last (c :: l) d = List.last l c.
Proof.
  revert c d. induction l as [|x l IH]; intros c d; [reflexivity|].
  change (List.last (c :: x :: l) d) with (List.last (x :: l) d).
  by rewrite !IH.
Qed.

Lemma last_sorted_ge (prev : GPSLocation.t) (rest : list GPSLocation.t) :
  StronglySorted gps_time_asc (prev :: rest) ->
  GPSLocation.gps_time prev <= GPSLocation.gps_time (List.last rest prev).
Proof.
  revert prev. induction rest as [|c rest IH]; intros prev Hs; [cbn; lia|].
  rewrite last_cons_default.
  apply StronglySorted_inv in Hs as [Hs Hall].
  apply Forall_cons in Hall as [Hpc _]. unfold gps_time_asc in Hpc.
  specialize (IH c Hs). lia.
Qed.

Lemma quot_add_le (a b : Z) :
  0 <= a -> 0 <= b ->
  Z.quot a 60000000 + Z.quot b 60000000 <= Z.quot (a + b) 60000000.
Proof.
  intros Ha Hb. rewrite !Z.quot_div_nonneg by lia.
  pose proof (Z.div_mod a 60000000 ltac:(lia)).
  pose proof (Z.div_mod b 60000000 ltac:(lia)).
  pose proof (Z.mod_pos_bound a 60000000 ltac:(lia)).
  pose proof (Z.mod_pos_bound b 60000000 ltac:(lia)).
  apply Z.div_le_lower_bound; lia.
Qed.

(** The counted stops last no longer than the route. *)
Lemma stop_minutes_le_duration (prev : GPSLocation.t) (rest : list GPSLocation.t) :
  StronglySorted gps_time_asc (prev :: rest) ->
  0 <= sum_Z (whole_minutes <$> List.filter counted_stop (gaps prev rest))
    <= Z.quot (GPSLocation.gps_time (List.last rest prev) - GPSLocation.gps_time prev)
              60000000.
Proof.
  revert prev. induction rest as [|c rest IH]; intros prev Hs.
  - cbn [gaps List.filter fmap list_fmap sum_Z foldr List.last].
    rewrite Z.sub_diag. by cbn.
  - rewrite last_cons_default.
    pose proof Hs as Hs0.
    apply StronglySorted_inv in Hs as [Hs Hall].
    apply Forall_cons in Hall as [Hpc _]. unfold gps_time_asc in Hpc.
    specialize (IH c Hs). pose proof (last_sorted_ge c rest Hs) as Hlast.
    pose proof (quot_add_le (GPSLocation.gps_time c - GPSLocation.gps_time prev)
                  (GPSLocation.gps_time (List.last rest c) - GPSLocation.gps_time c)
                  ltac:(lia) ltac:(lia)) as Hadd.
    replace (GPSLocation.gps_time c - GPSLocation.gps_time prev
             + (GPSLocation.gps_time (List.last rest c) - GPSLocation.gps_time c))
      with (GPSLocation.gps_time (List.last rest c) - GPSLocation.gps_time prev)
      in Hadd by lia.
    assert (H0 : 0 <= Z.quot (GPSLocation.gps_time c - GPSLocation.gps_time prev)
                        60000000)
      by (apply Z.quot_pos; lia).
    cbn [gaps List.filter]. destruct (counted_stop (prev, c)).
    + cbn [fmap list_fmap sum_Z foldr].
      fold (sum_Z (whole_minutes <$> List.filter counted_stop (gaps c rest))).
      rewrite whole_minutes_quot. lia.
    + lia.
Qed.

(** A counted stop lasts two whole minutes at least. *)
Lemma counted_stop_two_minutes (gap : GPSLocation.t * GPSLocation.t) :
  counted_stop gap = true -> 2 <= whole_minutes gap.
Proof.
  destruct gap as [p c]. unfold counted_stop. cbn [fst snd].
  destruct (recorded_speed c) as [speed|]; [|discriminate].
  intros H. apply andb_true_iff in H as [_ H].
  unfold Qlt_bool in H. apply negb_true_iff in H.
  rewrite whole_minutes_quot.
  unfold time_diff, total_seconds, Qdiv, Qinv, Qmult, Qle_bool in H.
  cbn [Qnum Qden] in H. apply Z.leb_gt in H.
  apply Z.quot_le_lower_bound; lia.
Qed.

Lemma stop_minutes_ge_count (gs : list (GPSLocation.t * GPSLocation.t)) :
  2 * Z.of_nat (length (List.filter counted_stop gs))
  <= sum_Z (whole_minutes <$> List.filter counted_stop gs).
Proof.
  induction gs as [|g gs IH]; [cbn; lia|].
  cbn [List.filter]. destruct (counted_stop g) eqn:E; [|exact IH].
  cbn [fmap list_fmap sum_Z foldr length].
  fold (sum_Z (whole_minutes <$> List.filter counted_stop gs)).
  pose proof (counted_stop_two_minutes g E). lia.
Qed.

Lemma length_gaps (prev : GPSLocation.t) (rest : list GPSLocation.t) :
  length (gaps prev rest) = length rest.
Proof.
  revert prev. induction rest as [|c rest IH]; intros prev; [reflexivity|].
  cbn [gaps length]. by rewrite IH.
Qed.

Lemma length_List_filter_le {A} (f : A -> bool) (l : list A) :
  (length (List.filter f l) <= length l)%nat.
Proof.
  induction l as [|x l IH]; [reflexivity|].
  cbn [List.filter]. destruct (f x); cbn [length]; lia.
Qed.

(** X18.  Whatever is stored, the durations [analyze_route] reports are
    consistent: no more than 999 stops, at most one per point after the
    first; each stop lasts two whole minutes at least; and the stops last
    no longer than the route, whose duration is not negative. *)
Theorem analyze_route_durations (db : database) (shipment_id : string)
    (time_from time_to : option Z) :
  let analysis := analyze_route db shipment_id time_from time_to in
  let gps_points :=
    get_tracking_history db (Some (route_filter shipment_id time_from time_to)) 1000 in
  0 <= RouteAnalysis.stop_count analysis <= Z.of_nat (length gps_points - 1)
  /\ RouteAnalysis.stop_count analysis <= 999
  /\ 2 * RouteAnalysis.stop_count analysis <= RouteAnalysis.stop_duration analysis
  /\ RouteAnalysis.stop_duration analysis <= RouteAnalysis.total_duration analysis.
Proof.
  cbn zeta. unfold analyze_route.
  pose proof (get_tracking_history_sorted db
                (Some (route_filter shipment_id time_from time_to)) 1000) as Hsorted.
  pose proof (length_get_tracking_history db
                (Some (route_filter shipment_id time_from time_to)) 1000) as Hlen.
  destruct (get_tracking_history db _ 1000) as [|first rest]; [cbn; lia|].
  destruct rest as [|second rest]; [cbn; lia|].
  rewrite analyze_points_stop_count, analyze_points_stop_duration,
    analyze_points_total_duration by done.
  rewrite int_of_minutes.
  pose proof (stop_minutes_le_duration first (second :: rest) Hsorted) as Hdur.
  pose proof (stop_minutes_ge_count (gaps first (second :: rest))) as Hcnt.
  pose proof (length_List_filter_le counted_stop (gaps first (second :: rest))) as Hf.
  rewrite length_gaps in Hf. cbn [length] in *. lia.
Qed.

(** *** Speeds *)

Lemma loop_body_max_speed (p c : GPSLocation.t) (st : loop_state) :
  l_max_speed (loop_body p c st)
  = match recorded_speed c with
    | Some speed => Qmax (l_max_speed st) speed
    | None => l_max_speed st
    end.
Proof.
  unfold loop_body, recorded_speed.
  destruct (GPSLocation.speed c) as [speed|]; [|reflexivity].
  by destruct (truthy (Some speed)).
Qed.

Lemma route_loop_max_speed (prev : GPSLocation.t) (rest : list GPSLocation.t)
    (st : loop_state) :
  l_max_speed (route_loop prev rest st)
  = foldl Qmax (l_max_speed st) (omap recorded_speed rest).
Proof.
  revert prev st. induction rest as [|c rest IH]; intros prev st; [reflexivity|].
  cbn [route_loop omap list_omap]. rewrite IH, loop_body_max_speed.
  by destruct (recorded_speed c).
Qed.

Lemma Qround_half_even_cases (x : Q) :
  (Qround_half_even x = Qfloor x /\ (x - inject_Z (Qfloor x) <= 1 # 2)%Q)
  \/ (Qround_half_even x = Qfloor x + 1 /\ (1 # 2 <= x - inject_Z (Qfloor x))%Q).
Proof.
  unfold Qround_half_even.
  destruct (x - inject_Z (Qfloor x) ?= 1 # 2)%Q eqn:Hc.
  - apply Qeq_alt in Hc.
    destruct (Z.even (Qfloor x)); [left|right]; (split; [reflexivity|Lqa.lra]).
  - apply Qlt_alt in Hc. left. split; [reflexivity|Lqa.lra].
  - apply Qgt_alt in Hc. right. split; [reflexivity|Lqa.lra].
Qed.

(** Rounding keeps the order. *)
Lemma Qround_half_even_mono (x y : Q) :
  (x <= y)%Q -> Qround_half_even x <= Qround_half_even y.
Proof.
  intros Hxy.
  pose proof (Qfloor_resp_le _ _ Hxy) as Hf.
  destruct (Z.eq_dec (Qfloor x) (Qfloor y)) as [E|N].
  - unfold Qround_half_even. rewrite <- E.
    destruct (x - inject_Z (Qfloor x) ?= 1 # 2)%Q eqn:Hx;
    destruct (y - inject_Z (Qfloor x) ?= 1 # 2)%Q eqn:Hy;
      try (destruct (Z.even (Qfloor x)); lia); try lia.
    + apply Qeq_alt in Hx. apply Qlt_alt in Hy. Lqa.lra.
    + apply Qgt_alt in Hx. apply Qeq_alt in Hy. Lqa.lra.
    + apply Qgt_alt in Hx. apply Qlt_alt in Hy. Lqa.lra.
  - destruct (Qround_half_even_cases x) as [[-> _]|[-> _]];
    destruct (Qround_half_even_cases y) as [[-> _]|[-> _]]; lia.
Qed.

Lemma round2_mono (x y : Q) : (x <= y)%Q -> (round2 x <= round2 y)%Q.
Proof.
  intros Hxy. unfold round2, Qle. cbn [Qnum Qden].
  assert (H : Qround_half_even (x * 100) <= Qround_half_even (y * 100))
    by (apply Qround_half_even_mono; Lqa.lra).
  lia.
Qed.

Lemma mean_le_max (speeds : list Q) : (mean speeds <= foldl Qmax 0%Q speeds)%Q.
Proof.
  destruct (DurableStoreFacts.agg_max_spec 0%Q speeds) as [Hmax _].
  change (DurableStore.agg_max 0%Q speeds) with (foldl Qmax 0%Q speeds) in Hmax.
  destruct speeds as [|x xs] eqn:E; [cbn; Lqa.lra|]. rewrite <- E in *.
  assert (Hmean : mean speeds = (sum speeds / inject_Z (Z.of_nat (length speeds)))%Q)
    by (by rewrite E).
  rewrite Hmean. apply Qle_shift_div_r.
  - change 0%Q with (inject_Z 0). rewrite <- Zlt_Qlt. rewrite E. cbn [length]. lia.
  - pose proof (GPSQueryOptimizerFacts.foldl_Qplus_le (foldl Qmax 0%Q speeds) speeds 0%Q) as H.
    unfold sum. rewrite Qplus_0_l in H. rewrite Qmult_comm. apply H.
    intros y Hy. apply Hmax. by apply list_elem_of_further.
Qed.

(** X19.  Whatever is stored, the reported speeds are consistent: the
    maximum is not negative, the average is not above the maximum, and the
    maximum is not below the speed, rounded to two decimals, of any
    analysed point after the first that has one other than zero.  The
    speed of the first point is never looked at. *)
Theorem analyze_route_speeds (db : database) (shipment_id : string)
    (time_from time_to : option Z) :
  let analysis := analyze_route db shipment_id time_from time_to in
  let gps_points :=
    get_tracking_history db (Some (route_filter shipment_id time_from time_to)) 1000 in
  (0 <= RouteAnalysis.max_speed analysis)%Q
  /\ (RouteAnalysis.average_speed analysis <= RouteAnalysis.max_speed analysis)%Q
  /\ forall p speed, p ∈ tail gps_points -> recorded_speed p = Some speed ->
       (round2 speed <= RouteAnalysis.max_speed analysis)%Q.
Proof.
  cbn zeta. unfold analyze_route.
  destruct (get_tracking_history db _ 1000) as [|first rest].
  { cbn. split; [Lqa.lra|]. split; [Lqa.lra|]. intros p speed Hp.
    by apply elem_of_nil in Hp. }
  destruct rest as [|second rest].
  { cbn. split; [Lqa.lra|]. split; [Lqa.lra|]. intros p speed Hp.
    by apply elem_of_nil in Hp. }
  rewrite analyze_points_average_speed by done.
  assert (Hmax : RouteAnalysis.max_speed (analyze_points (first :: second :: rest))
                 = round2 (foldl Qmax 0%Q (omap recorded_speed (second :: rest)))).
  { unfold analyze_points. cbn [RouteAnalysis.max_speed].
    by rewrite route_loop_max_speed. }
  rewrite Hmax. clear Hmax. cbn [tail].
  destruct (DurableStoreFacts.agg_max_spec 0%Q (omap recorded_speed (second :: rest)))
    as [Hle _].
  change (DurableStore.agg_max 0%Q ?l) with (foldl Qmax 0%Q l) in Hle.
  split; [|split].
  - apply (Qle_trans _ (round2 0)); [by vm_compute|].
    apply round2_mono, Hle, list_elem_of_here.
  - apply round2_mono, mean_le_max.
  - intros p speed Hp Hspeed. apply round2_mono, Hle, list_elem_of_further.
    apply list_elem_of_omap. by exists p.
Qed.

End RouteAnalysisFacts.

(** ** The distance *)

Module DistanceFacts.
Import Num GPSService.
Local Open Scope R_scope.

Lemma sin_half_sqr_swap (x y : R) : sin ((x - y) / 2) ^ 2 = sin ((y - x) / 2) ^ 2.
Proof.
  replace ((x - y) / 2) with (- ((y - x) / 2)) by lra.
  rewrite sin_neg. lra.
Qed.

Lemma cos_radians_nonneg (lat : R) : -90 <= lat <= 90 -> 0 <= cos (radians lat).
Proof.
  intros H. pose proof PI_RGT_0. unfold radians. apply cos_ge_0; nra.
Qed.

Lemma sin_half_sqr (x : R) : sin (x / 2) ^ 2 = (1 - cos x) / 2.
Proof.
  replace x with (2 * (x / 2)) at 2 by lra. rewrite cos_2a_sin. lra.
Qed.

(** The haversine of two points with their latitudes between the poles
    lies between 0 and 1. *)
Lemma haversine_range (u v w : R) :
  0 <= cos u -> 0 <= cos v ->
  0 <= sin ((v - u) / 2) ^ 2 + cos u * cos v * sin (w / 2) ^ 2 <= 1.
Proof.
  intros Hu Hv.
  pose proof (pow2_ge_0 (sin ((v - u) / 2))) as H1.
  pose proof (pow2_ge_0 (sin (w / 2))) as H2.
  assert (H3 : sin (w / 2) ^ 2 <= 1).
  { pose proof (SIN_bound (w / 2)). nra. }
  assert (Hc : 0 <= cos u * cos v) by nra.
  split; [nra|].
  rewrite sin_half_sqr, cos_minus.
  pose proof (sin2_cos2 u) as Su. pose proof (sin2_cos2 v) as Sv.
  unfold Rsqr in Su, Sv.
  assert (cos u * cos v * sin (w / 2) ^ 2 <= cos u * cos v) by nra.
  assert (cos u * cos v - sin u * sin v <= 1).
  { pose proof (pow2_ge_0 (cos u - cos v)). pose proof (pow2_ge_0 (sin u + sin v)).
    nra. }
  lra.
Qed.

Lemma asin_range (x : R) : 0 <= x <= 1 -> 0 <= asin x <= PI / 2.
Proof.
  intros Hx. pose proof (asin_bound x) as [Hl Hu]. split; [|exact Hu].
  destruct (Rle_or_lt 0 (asin x)) as [H|H]; [exact H|].
  pose proof PI_RGT_0.
  assert (sin (asin x) < 0) by (apply sin_lt_0_var; lra).
  rewrite sin_asin in *; lra.
Qed.

Lemma sqrt_range (a : R) : 0 <= a <= 1 -> 0 <= sqrt a <= 1.
Proof.
  intros [H0 H1]. split; [apply sqrt_pos|].
  rewrite <- sqrt_1. apply sqrt_le_1_alt. exact H1.
Qed.

(** X20.  For two points with their latitudes between -90 and 90 degrees,
    [_calculate_distance] takes the square root and the arc sine inside
    their domains, of a number between 0 and 1; the distance is not
    negative and at most half the circumference, 6371 times pi
    kilometres; and it is the same in both directions. *)
Theorem calculate_distance_range (lat1 lon1 lat2 lon2 : R) :
  -90 <= lat1 <= 90 -> -90 <= lat2 <= 90 ->
  let a := sin ((radians lat2 - radians lat1) / 2) ^ 2
           + cos (radians lat1) * cos (radians lat2)
             * sin ((radians lon2 - radians lon1) / 2) ^ 2 in
  0 <= a <= 1
  /\ _calculate_distance lat1 lon1 lat2 lon2 = 2 * asin (sqrt a) * 6371
  /\ 0 <= _calculate_distance lat1 lon1 lat2 lon2 <= 6371 * PI
  /\ _calculate_distance lat1 lon1 lat2 lon2 = _calculate_distance lat2 lon2 lat1 lon1.
Proof.
  intros Hlat1 Hlat2 a.
  assert (Ha : 0 <= a <= 1).
  { apply haversine_range; by apply cos_radians_nonneg. }
  split; [exact Ha|]. split; [reflexivity|]. split.
  - change (_calculate_distance lat1 lon1 lat2 lon2) with (2 * asin (sqrt a) * 6371).
    pose proof (asin_range (sqrt a) (sqrt_range a Ha)). lra.
  - unfold _calculate_distance. cbv zeta.
    rewrite (sin_half_sqr_swap (radians lat2)), (sin_half_sqr_swap (radians lon2)).
    by rewrite (Rmult_comm (cos (radians lat1))).
Qed.

Lemma calculate_distance_range_witness :
  0 <= _calculate_distance 39 116 31 121 <= 6371 * PI.
Proof.
  apply (calculate_distance_range 39 116 31 121); lra.
Defined.

End DistanceFacts.


(** ** The decimal columns *)

Module RecordLocationFacts.
Import Num GPSService.

(** Rounding to the nearest integer moves a number by a half at most. *)
Lemma round_half_away_error (y : Q) :
  (- (1 # 2) <= inject_Z (round_half_away y) - y <= 1 # 2)%Q.
Proof.
  unfold round_half_away. destruct (Qle_bool 0 y).
  - pose proof (Qfloor_le (y + (1 # 2))) as H1.
    pose proof (Qlt_floor (y + (1 # 2))) as H2.
    rewrite inject_Z_plus in H2. change (inject_Z 1) with 1%Q in H2.
    split; Lqa.lra.
  - pose proof (Qle_ceiling (y - (1 # 2))) as H1.
    pose proof (Qceiling_lt (y - (1 # 2))) as H2.
    unfold Z.sub in H2. rewrite inject_Z_plus in H2.
    change (inject_Z (- (1))) with (-1)%Q in H2.
    split; Lqa.lra.
Qed.

(** A number within the range of a decimal column is stored, rounded to
    the scale of the column. *)
Lemma DECIMAL_success (precision scale B : Z) (x : Q) :
  0 <= scale ->
  (- inject_Z B <= x <= inject_Z B)%Q ->
  B * 10 ^ scale < 10 ^ precision ->
  exists v,
    DECIMAL precision scale x = ret v
    /\ (v * inject_Z (10 ^ scale)
        == inject_Z (round_half_away (x * inject_Z (10 ^ scale))))%Q.
Proof.
  intros Hs [Hlo Hhi] Hfit.
  assert (HP : 0 < 10 ^ scale) by (apply Z.pow_pos_nonneg; lia).
  assert (HPq : (0 < inject_Z (10 ^ scale))%Q)
    by (change 0%Q with (inject_Z 0); by rewrite <- Zlt_Qlt).
  pose proof (round_half_away_error (x * inject_Z (10 ^ scale))) as [He1 He2].
  assert (Hy1 : (x * inject_Z (10 ^ scale) <= inject_Z (B * 10 ^ scale))%Q).
  { rewrite inject_Z_mult. apply Qmult_le_compat_r; [exact Hhi|Lqa.lra]. }
  assert (Hy2 : (- inject_Z (B * 10 ^ scale) <= x * inject_Z (10 ^ scale))%Q).
  { rewrite inject_Z_mult.
    assert (H : (- inject_Z B * inject_Z (10 ^ scale) <= x * inject_Z (10 ^ scale))%Q)
      by (apply Qmult_le_compat_r; [exact Hlo|Lqa.lra]).
    Lqa.lra. }
  assert (Hup : round_half_away (x * inject_Z (10 ^ scale)) < B * 10 ^ scale + 1).
  { rewrite Zlt_Qlt, inject_Z_plus. change (inject_Z 1) with 1%Q. Lqa.lra. }
  assert (Hdown : - (B * 10 ^ scale) - 1 < round_half_away (x * inject_Z (10 ^ scale))).
  { rewrite Zlt_Qlt. unfold Z.sub. rewrite inject_Z_plus, inject_Z_opp.
    change (inject_Z (- (1))) with (-1)%Q. Lqa.lra. }
  unfold DECIMAL. cbn zeta.
  replace (Z.abs _ <? 10 ^ precision) with true
    by (symmetry; apply Z.ltb_lt; lia).
  eexists. split; [reflexivity|].
  rewrite Qmake_Qdiv, Z2Pos.id by exact HP.
  rewrite Qmult_comm. apply Qmult_div_r. Lqa.lra.
Qed.

Lemma DECIMAL_opt_success (precision scale B : Z) (x : option Q) :
  0 <= scale ->
  (forall q, x = Some q -> (- inject_Z B <= q <= inject_Z B)%Q) ->
  B * 10 ^ scale < 10 ^ precision ->
  exists v, DECIMAL_opt precision scale (decimal_or_none x) = ret v.
Proof.
  intros Hs Hx Hfit. unfold decimal_or_none.
  destruct (truthy x); [|by eexists].
  destruct x as [q|]; [|by eexists].
  destruct (DECIMAL_success precision scale B q Hs (Hx q eq_refl) Hfit) as (v & Hv & _).
  cbn [DECIMAL_opt]. rewrite Hv. by eexists.
Qed.

End RecordLocationFacts.

(** ** The methods of [GPSService] *)

Module GPSServiceAPIFacts.
Import Num GPSService CurrentLocation Geofences GPSServiceAPI GPSServiceFacts.

#[local] Instance gps_time_desc_total' : Total gps_time_desc.
Proof. intros p1 p2. unfold gps_time_desc. lia. Qed.

#[local] Instance gps_time_desc_trans' : Transitive gps_time_desc.
Proof. intros p1 p2 p3. unfold gps_time_desc. lia. Qed.

Lemma str_nonempty (u : Z) : UUID.str u <> "".
Proof.
  unfold UUID.str. destruct (String.substring 0 8 (UUID.hex 32 u)); discriminate.
Qed.

Lemma truthy_str_str (u : Z) : truthy_str (Some (UUID.str u)) = true.
Proof.
  unfold truthy_str. destruct (String.eqb_spec (UUID.str u) ""); [|reflexivity].
  by destruct (str_nonempty u).
Qed.

Lemma wrap_ret {A} (body : result A) (a : A) : wrap body = ret a -> body = ret a.
Proof. destruct body; [discriminate|]. by intros [= ->]. Qed.

Lemma wrap_raise {A} (body : result A) (e : exn) :
  wrap body = raise e -> e = GPSServiceError.
Proof. destruct body; [|discriminate]. by intros [= <-]. Qed.

Lemma bind_ret {A B} (r : result A) (k : A -> result B) (b : B) :
  bind r k = ret b -> exists a, r = ret a /\ k a = ret b.
Proof. destruct r as [e|a]; [discriminate|]. intros H. by exists a. Qed.

(** On a sequence without a zero speed after its first point, the counted
    gaps are the qualifying ones. *)
Lemma counted_stops_qualifying (prev : GPSLocation.t) (rest : list GPSLocation.t) :
  Forall (fun p => forall speed, GPSLocation.speed p = Some speed -> ~ (speed == 0)%Q)
         rest ->
  List.filter counted_stop (gaps prev rest) = List.filter qualifying_gap (gaps prev rest).
Proof.
  intros Hrest. revert prev. induction Hrest as [|c rest Hc _ IH]; intros prev.
  - reflexivity.
  - cbn [gaps List.filter]. rewrite IH.
    assert (E : counted_stop (prev, c) = qualifying_gap (prev, c)).
    { unfold counted_stop, qualifying_gap, recorded_speed. cbn [snd].
      destruct (GPSLocation.speed c) as [speed|] eqn:Hs; [|reflexivity].
      cbn [truthy].
      destruct (Qeq_bool speed 0) eqn:Hz; [|reflexivity].
      apply Qeq_bool_iff in Hz. by destruct (Hc speed eq_refl). }
    by rewrite E.
Qed.

Section Methods.

Variable int_other : string -> result Z.

Lemma optional_truthy (x : option string) (v : option string) :
  UUID.optional int_other x = ret v ->
  (truthy_str x = false -> v = None)
  /\ (truthy_str x = true -> exists u, v = Some (UUID.str u)).
Proof.
  destruct x as [[|c x]|]; cbn [UUID.optional truthy_str].
  - intros [= <-]. split; [done|discriminate].
  - intros H. apply bind_ret in H as (u & _ & [= <-]).
    split; [discriminate|]. by exists u.
  - intros [= <-]. split; [done|discriminate].
Qed.

(** *** [analyze_route] *)

Lemma analyze_route_points (s : session) (tenant_id shipment_id : string)
    (time_from time_to : option Z) (gps_points : list GPSLocation.t) :
  get_tracking_history int_other s tenant_id
    (Some (route_filter shipment_id time_from time_to)) 1000 = ret gps_points ->
  analyze_route int_other s tenant_id shipment_id time_from time_to
  = ret (analyze_points gps_points).
Proof. intros H. unfold analyze_route. cbv zeta. by rewrite H. Qed.


(** *** [get_current_location] *)

Lemma current_location_spec (rows : list GPSLocation.t)
    (shipment vehicle : option string) :
  match head (merge_sort gps_time_desc
                (filter (fun p => current_of shipment vehicle p = true) rows)) with
  | None => forall p, p ∈ rows -> current_of shipment vehicle p = false
  | Some p =>
      p ∈ rows
      /\ current_of shipment vehicle p = true
      /\ forall q, q ∈ rows -> current_of shipment vehicle q = true ->
           GPSLocation.gps_time q <= GPSLocation.gps_time p
  end.
Proof.
  set (selected := filter _ rows).
  pose proof (CurrentLocationFacts.head_merge_sort gps_time_desc selected) as Hhead.
  destruct (head (merge_sort gps_time_desc selected)) as [p|].
  - destruct Hhead as [Hp Hmax]. apply list_elem_of_filter in Hp as [Hcur Hp].
    split; [exact Hp|]. split; [exact Hcur|].
    intros q Hq Hcurq. apply (Hmax q). by apply list_elem_of_filter.
  - intros p Hp. destruct (current_of shipment vehicle p) eqn:E; [|reflexivity].
    assert (Hin : p ∈ selected) by (by apply list_elem_of_filter).
    rewrite Hhead in Hin. by apply elem_of_nil in Hin.
Qed.

(** X16.  [get_current_location] raises nothing but [GPSServiceError], and
    raises it when it is given neither a shipment nor a vehicle.  When the
    server takes the tenant context and the ids given are texts of UUIDs,
    it returns: nothing exactly when no valid point of the shipment and
    vehicle is stored, and else one of these points, none of which is
    later. *)
Theorem get_current_location_latest (s : session) (tenant_id : string)
    (shipment_id vehicle_id : option string) :
  (forall e, get_current_location int_other s tenant_id shipment_id vehicle_id
             = raise e -> e = GPSServiceError)
  /\ (truthy_str shipment_id || truthy_str vehicle_id = false ->
      get_current_location int_other s tenant_id shipment_id vehicle_id
      = raise GPSServiceError)
  /\ (forall shipment vehicle,
        set_tenant_context s tenant_id = ret tt ->
        UUID.optional int_other shipment_id = ret shipment ->
        UUID.optional int_other vehicle_id = ret vehicle ->
        truthy_str shipment_id || truthy_str vehicle_id = true ->
        exists r,
          get_current_location int_other s tenant_id shipment_id vehicle_id = ret r
          /\ match r with
             | None => forall p, p ∈ gps_locations (db s) ->
                         current_of shipment vehicle p = false
             | Some p =>
                 p ∈ gps_locations (db s)
                 /\ current_of shipment vehicle p = true
                 /\ forall q, q ∈ gps_locations (db s) ->
                      current_of shipment vehicle q = true ->
                      GPSLocation.gps_time q <= GPSLocation.gps_time p
             end).
Proof.
  split; [|split].
  - intros e. apply wrap_raise.
  - intros Hid. apply orb_false_iff in Hid as [Hs Hv].
    unfold get_current_location.
    destruct (set_tenant_context s tenant_id) as [e|[]]; [reflexivity|].
    cbn [bind ret].
    destruct (UUID.optional int_other shipment_id) as [e|shipment] eqn:Es;
      [reflexivity|].
    destruct (UUID.optional int_other vehicle_id) as [e|vehicle] eqn:Ev;
      [reflexivity|].
    rewrite (proj1 (optional_truthy _ _ Es) Hs).
    by rewrite (proj1 (optional_truthy _ _ Ev) Hv).
  - intros shipment vehicle Hset Es Ev Hid.
    unfold get_current_location. rewrite Hset, Es, Ev. cbn [bind ret].
    pose proof (current_location_spec (gps_locations (db s)) shipment vehicle) as Hspec.
    assert (Hsome : is_Some shipment \/ is_Some vehicle).
    { apply orb_true_iff in Hid as [Hid|Hid].
      - destruct (proj2 (optional_truthy _ _ Es) Hid) as [u ->]. left. by eexists.
      - destruct (proj2 (optional_truthy _ _ Ev) Hid) as [u ->]. right. by eexists. }
    eexists. split; [|exact Hspec].
    by destruct shipment, vehicle, Hsome as [[]|[]].
Qed.

(** *** [record_location] *)

(** What a call of [record_location] that returns has done. *)
Lemma record_location_inv (s : session) (now update_time : Z) (tenant_id : string)
    (location : LocationPoint.t) (shipment_id vehicle_id : option string)
    (source : GPSSource.t) (device_id : option string)
    (s' : session) (g : GPSLocation.t) :
  record_location int_other s now update_time tenant_id location shipment_id vehicle_id
    source device_id = ret (s', g) ->
  set_tenant_context s tenant_id = ret tt
  /\ set_tenant_context s' = set_tenant_context s
  /\ UUID.optional int_other shipment_id = ret (GPSLocation.shipment_id g)
  /\ UUID.optional int_other vehicle_id = ret (GPSLocation.vehicle_id g)
  /\ gps_locations (db s') = gps_locations (db s) ++ [g]
  /\ GPSLocation.is_valid g = "1"
  /\ GPSLocation.gps_time g = default now (LocationPoint.timestamp location)
  /\ DECIMAL 10 8 (LocationPoint.latitude location) = ret (GPSLocation.latitude g)
  /\ DECIMAL 11 8 (LocationPoint.longitude location) = ret (GPSLocation.longitude g)
  /\ DECIMAL_opt 5 2 (decimal_or_none (LocationPoint.speed location))
     = ret (GPSLocation.speed g)
  /\ (forall v, GPSLocation.vehicle_id g = Some v -> is_Some (vehicles (db s) !! v))
  /\ (forall v, GPSLocation.shipment_id g = Some v -> v ∈ shipments s).
Proof.
  intros H%wrap_ret. revert H. unfold record_location.
  intros (u0 & H0 & H)%bind_ret. destruct u0.
  apply bind_ret in H as (tenant & _ & H).
  apply bind_ret in H as (shipment & Hshipment & H).
  apply bind_ret in H as (vehicle & Hvehicle & H).
  apply bind_ret in H as (latitude & Hlat & H).
  apply bind_ret in H as (longitude & Hlng & H).
  apply bind_ret in H as (altitude & _ & H).
  apply bind_ret in H as (accuracy & _ & H).
  apply bind_ret in H as (speed & Hspeed & H).
  apply bind_ret in H as (heading & _ & H).
  apply bind_ret in H as (device & _ & H).
  apply bind_ret in H as (address & _ & H).
  apply bind_ret in H as ([] & Hfk1 & H).
  apply bind_ret in H as ([] & Hfk2 & H).
  injection H as <- <-.
  cbn [GPSLocation.shipment_id GPSLocation.vehicle_id GPSLocation.is_valid
       GPSLocation.gps_time GPSLocation.latitude GPSLocation.longitude
       GPSLocation.speed with_db db set_tenant_context].
  do 4 (split; [done|]).
  split; [by destruct vehicle|].
  do 5 (split; [done|]).
  split.
  - intros v ->. cbn [foreign_key] in Hfk2.
    by destruct (bool_decide_reflect (is_Some (vehicles (db s) !! v))).
  - intros v ->. cbn [foreign_key] in Hfk1.
    by destruct (bool_decide_reflect (v ∈ shipments s)).
Qed.

(** X17.  What is recorded can be read back.  A point of a vehicle, with
    no shipment, is recorded with a time later than every point stored
    for the vehicle (as a point stamped by the service is, when the clock
    does not go back).  Then [get_current_location] of the vehicle, for
    the same tenant, returns this very point, as it was stored. *)
Theorem record_location_then_current (s : session) (now update_time : Z)
    (tenant_id : string) (location : LocationPoint.t) (vehicle_id : string)
    (source : GPSSource.t) (device_id : option string)
    (s' : session) (g : GPSLocation.t) :
  record_location int_other s now update_time tenant_id location None (Some vehicle_id)
    source device_id = ret (s', g) ->
  vehicle_id <> "" ->
  (forall q, q ∈ gps_locations (db s) ->
     GPSLocation.vehicle_id q = GPSLocation.vehicle_id g ->
     GPSLocation.gps_time q < GPSLocation.gps_time g) ->
  get_current_location int_other s' tenant_id None (Some vehicle_id) = ret (Some g).
Proof.
  intros Hrec Hv Hlater.
  destruct (record_location_inv _ _ _ _ _ _ _ _ _ _ _ Hrec)
    as (Hset & Hset' & _ & Hvid & Hrows & Hvalid & _).
  assert (Htruthy : truthy_str (Some vehicle_id) = true).
  { unfold truthy_str. by destruct (String.eqb_spec vehicle_id ""). }
  destruct (proj2 (optional_truthy _ _ Hvid) Htruthy) as [u Hu].
  destruct (get_current_location_latest s' tenant_id None (Some vehicle_id))
    as (_ & _ & Hget).
  destruct (Hget None (GPSLocation.vehicle_id g)) as (r & Hr & Hspec);
    [by rewrite Hset'|reflexivity|exact Hvid|exact Htruthy|].
  rewrite Hr. f_equal.
  assert (Hcur : forall q, current_of None (GPSLocation.vehicle_id g) q = true ->
                   GPSLocation.vehicle_id q = GPSLocation.vehicle_id g).
  { intros q. rewrite Hu. unfold current_of, cond_eq. rewrite truthy_str_str.
    cbn [truthy_str andb]. intros H. apply andb_true_iff in H as [H _].
    by apply bool_decide_eq_true in H. }
  assert (Hg : current_of None (GPSLocation.vehicle_id g) g = true).
  { rewrite Hu at 1. unfold current_of, cond_eq. rewrite truthy_str_str, Hvalid.
    cbn [truthy_str andb]. by rewrite bool_decide_eq_true_2. }
  assert (Hgin : g ∈ gps_locations (db s')).
  { rewrite Hrows. apply elem_of_app. right. apply list_elem_of_here. }
  destruct r as [p|].
  - destruct Hspec as (Hp & Hcurp & Hmax). f_equal.
    rewrite Hrows in Hp. apply elem_of_app in Hp as [Hp|Hp].
    + specialize (Hlater p Hp (Hcur p Hcurp)).
      specialize (Hmax g Hgin Hg). lia.
    + by apply list_elem_of_singleton in Hp.
  - specialize (Hspec g Hgin). congruence.
Qed.

Lemma nullable_VARCHAR (n : nat) (x : option string) :
  (forall v, x = Some v -> PgText.has_nul v = false /\ (PgText.chars v <= n)%nat) ->
  nullable (PgText.VARCHAR n) x = ret x.
Proof.
  destruct x as [v|]; [|reflexivity]. intros H.
  destruct (H v eq_refl) as [Hnul Hlen].
  cbn [nullable]. unfold PgText.VARCHAR, PgText.TEXT. rewrite Hnul. cbn [bind ret].
  apply Nat.leb_le in Hlen. by rewrite Hlen.
Qed.

Lemma nullable_TEXT (x : option string) :
  (forall v, x = Some v -> PgText.has_nul v = false) ->
  nullable PgText.TEXT x = ret x.
Proof.
  destruct x as [v|]; [|reflexivity]. intros H.
  cbn [nullable]. unfold PgText.TEXT. by rewrite (H v eq_refl).
Qed.

(** X22.  A position on the globe is always accepted.  The server takes
    the tenant context and the tenant id is the text of a UUID; the
    latitude is between -90 and 90, the longitude between -180 and 180,
    the optional measures within the range of their columns, the device
    id of at most 50 characters; no text has the character of code 0.
    Then [record_location] of the point, with no shipment and no vehicle,
    does not raise; it appends one row, stamped with the time of the
    device or else of the call, whose coordinates are the given ones to 8
    decimals (off by 0.000000005 at most), and changes no vehicle. *)
Theorem record_location_accepts_valid_coordinates (s : session) (now update_time : Z)
    (tenant_id : string) (tenant : Z) (location : LocationPoint.t)
    (source : GPSSource.t) (device_id : option string) :
  set_tenant_context s tenant_id = ret tt ->
  UUID.UUID int_other tenant_id = ret tenant ->
  (-90 <= LocationPoint.latitude location <= 90)%Q ->
  (-180 <= LocationPoint.longitude location <= 180)%Q ->
  (forall q, LocationPoint.altitude location = Some q -> (-999999 <= q <= 999999)%Q) ->
  (forall q, LocationPoint.accuracy location = Some q -> (-9999 <= q <= 9999)%Q) ->
  (forall q, LocationPoint.speed location = Some q -> (-999 <= q <= 999)%Q) ->
  (forall q, LocationPoint.heading location = Some q -> (-999 <= q <= 999)%Q) ->
  (forall v, device_id = Some v ->
     PgText.has_nul v = false /\ (PgText.chars v <= 50)%nat) ->
  (forall v, LocationPoint.address location = Some v -> PgText.has_nul v = false) ->
  exists s' g,
    record_location int_other s now update_time tenant_id location None None
      source device_id = ret (s', g)
    /\ gps_locations (db s') = gps_locations (db s) ++ [g]
    /\ vehicles (db s') = vehicles (db s)
    /\ GPSLocation.tenant_id g = UUID.str tenant
    /\ GPSLocation.gps_time g = default now (LocationPoint.timestamp location)
    /\ (- (5 # 1000000000)
        <= GPSLocation.latitude g - LocationPoint.latitude location
        <= 5 # 1000000000)%Q
    /\ (- (5 # 1000000000)
        <= GPSLocation.longitude g - LocationPoint.longitude location
        <= 5 # 1000000000)%Q.
Proof.
  intros Hset Htenant Hlat Hlng Halt Hacc Hspd Hhdg Hdev Haddr.
  destruct (RecordLocationFacts.DECIMAL_success 10 8 90 (LocationPoint.latitude location))
    as (lat & Elat & Hlat'); [lia|exact Hlat|by vm_compute|].
  destruct (RecordLocationFacts.DECIMAL_success 11 8 180 (LocationPoint.longitude location))
    as (lng & Elng & Hlng'); [lia|exact Hlng|by vm_compute|].
  destruct (RecordLocationFacts.DECIMAL_opt_success 8 2 999999
              (LocationPoint.altitude location))
    as (alt & Ealt); [lia|exact Halt|by vm_compute|].
  destruct (RecordLocationFacts.DECIMAL_opt_success 6 2 9999
              (LocationPoint.accuracy location))
    as (acc & Eacc); [lia|exact Hacc|by vm_compute|].
  destruct (RecordLocationFacts.DECIMAL_opt_success 5 2 999
              (LocationPoint.speed location))
    as (spd & Espd); [lia|exact Hspd|by vm_compute|].
  destruct (RecordLocationFacts.DECIMAL_opt_success 5 2 999
              (LocationPoint.heading location))
    as (hdg & Ehdg); [lia|exact Hhdg|by vm_compute|].
  unfold record_location.
  rewrite Hset, Htenant, Elat, Elng, Ealt, Eacc, Espd, Ehdg.
  cbn [UUID.optional bind ret].
  rewrite (nullable_VARCHAR 50 device_id Hdev), (nullable_TEXT _ Haddr).
  cbn [bind ret foreign_key wrap]. eexists _, _. split; [reflexivity|].
  cbn [with_db db gps_locations vehicles GPSLocation.gps_time GPSLocation.latitude
       GPSLocation.longitude GPSLocation.tenant_id].
  split; [reflexivity|]. split; [reflexivity|]. split; [reflexivity|].
  split; [reflexivity|].
  pose proof (RecordLocationFacts.round_half_away_error
                (LocationPoint.latitude location * inject_Z (10 ^ 8))) as Hrlat.
  pose proof (RecordLocationFacts.round_half_away_error
                (LocationPoint.longitude location * inject_Z (10 ^ 8))) as Hrlng.
  rewrite <- Hlat' in Hrlat. rewrite <- Hlng' in Hrlng.
  change (inject_Z (10 ^ 8)) with 100000000%Q in Hrlat, Hrlng.
  split; Lqa.lra.
Qed.

(** *** The geofences *)

Lemma create_geofence_inv (s : session) (id tenant_id name fence_type : string)
    (center_lat center_lng radius_meters : Q) (description : option string)
    (s' : session) (fence : Geofence.t) :
  create_geofence int_other s id tenant_id name fence_type center_lat center_lng
    radius_meters description = ret (s', fence) ->
  set_tenant_context s tenant_id = ret tt
  /\ set_tenant_context s' = set_tenant_context s
  /\ geofences s' = geofences s ++ [fence]
  /\ Geofence.id fence = id
  /\ PgText.VARCHAR 200 name = ret (Geofence.name fence)
  /\ PgText.VARCHAR 20 fence_type = ret (Geofence.fence_type fence)
  /\ Geofence.is_active fence = "1"
  /\ exists clat clng radius,
       Geofence.center_latitude fence = Some clat
       /\ Geofence.center_longitude fence = Some clng
       /\ Geofence.radius_meters fence = Some radius
       /\ DECIMAL 8 2 radius_meters = ret radius.
Proof.
  intros H%wrap_ret. revert H. unfold create_geofence.
  intros (u0 & H0 & H)%bind_ret. destruct u0.
  apply bind_ret in H as (tenant & _ & H).
  apply bind_ret in H as (name' & Hname & H).
  apply bind_ret in H as (description' & _ & H).
  apply bind_ret in H as (fence_type' & Htype & H).
  apply bind_ret in H as (clat & _ & H).
  apply bind_ret in H as (clng & _ & H).
  apply bind_ret in H as (radius & Hradius & H).
  destruct (bool_decide _); [discriminate|].
  injection H as <- <-. cbn.
  repeat (split; [done|]). by exists clat, clng, radius.
Qed.

(** A fence with its centre and radius is checked without an error. *)
Lemma check_fence_complete (latitude longitude : R) (fence : Geofence.t) :
  complete fence ->
  exists v, check_fence latitude longitude fence = ret v
            /\ forall x, v = Some x ->
                 fence_id x = Geofence.id fence
                 /\ fence_name x = Geofence.name fence
                 /\ violation_type x = "inside"
                 /\ Geofence.fence_type fence = "circle".
Proof.
  intros ([clat Hlat] & [clng Hlng] & [radius Hrad]).
  unfold check_fence. rewrite Hlat, Hlng, Hrad.
  destruct (String.eqb_spec (Geofence.fence_type fence) "circle") as [Ht|Ht].
  - cbn [float bind ret]. destruct (Rle_dec _ _).
    + eexists. split; [reflexivity|]. by intros x [= <-].
    + eexists. split; [reflexivity|]. discriminate.
  - eexists. split; [reflexivity|]. discriminate.
Qed.

Lemma check_fences_complete (latitude longitude : R) (fences : list Geofence.t) :
  Forall complete fences ->
  exists violations,
    check_fences latitude longitude fences = ret violations
    /\ forall x, x ∈ violations <->
         exists fence, fence ∈ fences
                       /\ check_fence latitude longitude fence = ret (Some x).
Proof.
  induction 1 as [|fence fences Hc _ (violations & Hvs & Hin)].
  - exists []. split; [reflexivity|]. intros x. split.
    + intros Hx. by apply elem_of_nil in Hx.
    + intros (fence & Hf & _). by apply elem_of_nil in Hf.
  - destruct (check_fence_complete latitude longitude fence Hc) as (v & Hv & _).
    cbn [check_fences]. rewrite Hv, Hvs. cbn [bind ret].
    eexists. split; [reflexivity|]. intros x. split.
    + intros Hx. destruct v as [v|].
      * apply elem_of_cons in Hx as [->|Hx].
        -- exists fence. split; [apply list_elem_of_here|exact Hv].
        -- apply Hin in Hx as (f & Hf & Hx). exists f.
           split; [by apply list_elem_of_further|exact Hx].
      * apply Hin in Hx as (f & Hf & Hx). exists f.
        split; [by apply list_elem_of_further|exact Hx].
    + intros (f & Hf & Hx). apply elem_of_cons in Hf as [->|Hf].
      * rewrite Hv in Hx. injection Hx as ->. apply list_elem_of_here.
      * assert (x ∈ violations) by (apply Hin; by exists f).
        destruct v; [by apply list_elem_of_further|assumption].
Qed.

Lemma DECIMAL_nonneg (precision scale : Z) (x v : Q) :
  (0 <= x)%Q -> DECIMAL precision scale x = ret v -> (0 <= Q2R v)%R.
Proof.
  intros Hx. unfold DECIMAL.
  destruct (Z.abs _ <? 10 ^ precision); [|discriminate].
  intros [= <-].
  assert (Hs : (0 <= x * inject_Z (10 ^ scale))%Q).
  { apply Qmult_le_0_compat; [exact Hx|].
    change 0%Q with (inject_Z 0). rewrite <- Zle_Qle.
    apply Z.pow_nonneg. lia. }
  assert (Hr : 0 <= round_half_away (x * inject_Z (10 ^ scale))).
  { unfold round_half_away.
    apply Qle_bool_iff in Hs as Hb. rewrite Hb.
    change 0 with (Qfloor 0). apply Qfloor_resp_le. Lqa.lra. }
  unfold Q2R. cbn [Qnum Qden].
  apply Rmult_le_pos; [by apply IZR_le|].
  apply Rlt_le, Rinv_0_lt_compat, IZR_lt. lia.
Qed.


End Methods.

(** *** On the samples *)



(** The stop of the specification's own example is not seen at all: a
    second point with speed 0 does not pass the test [if curr_point.speed],
    though its gap qualifies. *)
Lemma zero_speed_stop_not_counted :
  length (List.filter qualifying_gap
            (gaps (Samples.route_point 0 (Some 60%Q))
                  [Samples.route_point 10 (Some 0%Q);
                   Samples.route_point 11 (Some 60%Q)])) = 1%nat
  /\ exists analysis,
       analyze_route Samples.no_other (Samples.route_session Samples.zero_stop)
         Samples.tenant_1 Samples.ship_1 None None = ret analysis
       /\ RouteAnalysis.stop_count analysis = 0
       /\ RouteAnalysis.stop_duration analysis = 0.
Proof.
  assert (Hq : get_tracking_history Samples.no_other
                 (Samples.route_session Samples.zero_stop) Samples.tenant_1
                 (Some (route_filter Samples.ship_1 None None)) 1000
               = ret Samples.zero_stop)
    by (vm_compute; reflexivity).
  split; [vm_compute; reflexivity|].
  eexists. split; [by apply analyze_route_points|].
  unfold Samples.zero_stop.
  rewrite analyze_points_stop_count, analyze_points_stop_duration by discriminate.
  split; vm_compute; reflexivity.
Qed.

(** C2 at its failing input.  A vehicle reports 60 km/h an hour after its
    first point, from the same place: the distance is 0 and the duration
    60 minutes, so that distance over duration is 0; the reported average
    is 60, the mean of the speeds reported. *)
Theorem average_speed_is_mean_of_reported_speeds :
  exists analysis,
    analyze_route Samples.no_other (Samples.route_session Samples.parked_hour)
      Samples.tenant_1 Samples.ship_1 None None = ret analysis
    /\ RouteAnalysis.total_distance analysis = 0%R
    /\ RouteAnalysis.total_duration analysis = 60
    /\ (RouteAnalysis.average_speed analysis == 60)%Q.
Proof.
  assert (Hq : get_tracking_history Samples.no_other
                 (Samples.route_session Samples.parked_hour) Samples.tenant_1
                 (Some (route_filter Samples.ship_1 None None)) 1000
               = ret Samples.parked_hour)
    by (vm_compute; reflexivity).
  eexists. split; [by apply analyze_route_points|].
  unfold Samples.parked_hour.
  rewrite total_distance_of_two, _calculate_distance_same_place.
  rewrite !analyze_points_total_duration, !analyze_points_average_speed by discriminate.
  split; [|split].
  - rewrite Rplus_0_l. apply Rround2_0.
  - vm_compute. reflexivity.
  - vm_compute. reflexivity.
Qed.

(** C4 at its failing input.  A point with latitude 95, longitude 190 and
    speed -5 is stored by [record_location], for a tenant and a vehicle
    that exist, and appended to the batch buffer by [add_gps_data];
    neither raises.  The validators of [G7LocationData] refuse each of the
    three values. *)
Theorem impossible_location_is_accepted :
  (exists s' gps_location,
     record_location Samples.no_other MoreSamples.fleet_session 7 8 Samples.tenant_1
       Samples.impossible_location None (Some Samples.veh_1) GPSSource.G7_API None
     = ret (s', gps_location)
     /\ gps_locations (db s')
        = gps_locations (db MoreSamples.fleet_session) ++ [gps_location]
     /\ (GPSLocation.latitude gps_location == 95)%Q
     /\ (GPSLocation.longitude gps_location == 190)%Q
     /\ exists speed, GPSLocation.speed gps_location = Some speed /\ (speed == -5)%Q)
  /\ DurableStore.add_gps_data Samples.empty_processor Samples.impossible_data
     = ({| DurableStore.engine := Samples.empty_server;
           DurableStore.batch_size := 2;
           DurableStore.batch_buffer :=
             [{| DurableStore.data := Samples.impossible_data;
                 DurableStore.geom := (190, 95)%Q |}];
           DurableStore.total_processed := 0;
           DurableStore.batch_count := 0 |}, ret tt)
  /\ G7LocationData.validate_latitude 95 = raise ValidationError
  /\ G7LocationData.validate_longitude 190 = raise ValidationError
  /\ G7LocationData.validate_speed (-5) = raise ValidationError.
Proof.
  split; [|split; [reflexivity|repeat split]].
  eexists _, _. split; [vm_compute; reflexivity|].
  cbn [gps_locations db GPSLocation.latitude GPSLocation.longitude GPSLocation.speed].
  split; [reflexivity|]. split; [reflexivity|]. split; [reflexivity|].
  eexists. split; reflexivity.
Qed.

Lemma get_current_location_latest_witness :
  get_current_location Samples.no_other (Samples.route_session Samples.slow_stop)
    Samples.tenant_1 None (Some "")
  = raise GPSServiceError
  /\ get_current_location Samples.no_other (Samples.route_session Samples.slow_stop)
       Samples.tenant_1 (Some Samples.ship_1) None
     = ret (Some (Samples.route_point 11 (Some 60%Q))).
Proof.
  destruct (get_current_location_latest Samples.no_other
              (Samples.route_session Samples.slow_stop) Samples.tenant_1
              None (Some "")) as (_ & H & _).
  split; [by apply H|].
  vm_compute. reflexivity.
Defined.

Lemma record_location_then_current_witness :
  exists s' g,
    record_location Samples.no_other MoreSamples.fleet_session (minutes 31) (minutes 32)
      Samples.tenant_1 MoreSamples.tiananmen None (Some Samples.veh_1)
      GPSSource.DRIVER_APP None = ret (s', g)
    /\ get_current_location Samples.no_other s' Samples.tenant_1 None
         (Some Samples.veh_1) = ret (Some g).
Proof.
  destruct (record_location Samples.no_other MoreSamples.fleet_session (minutes 31)
              (minutes 32) Samples.tenant_1 MoreSamples.tiananmen None
              (Some Samples.veh_1) GPSSource.DRIVER_APP None)
    as [e|[s' g]] eqn:E; [vm_compute in E; discriminate|].
  exists s', g. split; [reflexivity|].
  apply (record_location_then_current Samples.no_other MoreSamples.fleet_session
           (minutes 31) (minutes 32) Samples.tenant_1 MoreSamples.tiananmen
           Samples.veh_1 GPSSource.DRIVER_APP None s' g);
    [exact E|discriminate|].
  vm_compute in E. injection E as _ <-.
  intros q Hq Hv. cbn [MoreSamples.fleet_session db MoreSamples.fleet_db gps_locations] in Hq.
  apply elem_of_cons in Hq as [->|Hq]; [vm_compute; reflexivity|].
  apply list_elem_of_singleton in Hq as ->. vm_compute; reflexivity.
Defined.

Lemma record_location_accepts_valid_coordinates_witness :
  exists s' g,
    record_location Samples.no_other MoreSamples.fleet_session (minutes 31) (minutes 32)
      Samples.tenant_1 MoreSamples.tiananmen None None GPSSource.DRIVER_APP
      (Some "device-7") = ret (s', g)
    /\ gps_locations (db s') = gps_locations (db MoreSamples.fleet_session) ++ [g]
    /\ vehicles (db s') = vehicles (db MoreSamples.fleet_session)
    /\ GPSLocation.tenant_id g = Samples.tenant_1
    /\ GPSLocation.gps_time g = minutes 30
    /\ (- (5 # 1000000000) <= GPSLocation.latitude g - (399042 # 10000)
        <= 5 # 1000000000)%Q
    /\ (- (5 # 1000000000) <= GPSLocation.longitude g - (1163974 # 10000)
        <= 5 # 1000000000)%Q.
Proof.
  destruct (UUID.UUID Samples.no_other Samples.tenant_1) as [e|tenant] eqn:Et;
    [vm_compute in Et; discriminate|].
  assert (Hstr : UUID.str tenant = Samples.tenant_1).
  { vm_compute in Et. injection Et as <-. vm_compute. reflexivity. }
  set (call := record_location _ _ _ _ _ _ _ _ _ _).
  rewrite <- Hstr. subst call.
  apply (record_location_accepts_valid_coordinates Samples.no_other
           MoreSamples.fleet_session (minutes 31) (minutes 32) Samples.tenant_1 tenant
           MoreSamples.tiananmen GPSSource.DRIVER_APP (Some "device-7")).
  - reflexivity.
  - exact Et.
  - split; unfold Qle; cbn; lia.
  - split; unfold Qle; cbn; lia.
  - intros q [=].
  - intros q [= <-]. split; unfold Qle; cbn; lia.
  - intros q [= <-]. split; unfold Qle; cbn; lia.
  - intros q [=].
  - intros v [= <-]. split; [reflexivity|vm_compute; lia].
  - intros v [=].
Defined.


End GPSServiceAPIFacts.
